(** * MeloMuse: a shallow embedding of the transition model and of the
      Spotify data collector, with the properties claimed about them.

    The Python sources are [src/models/transition_model.py] and
    [src/data/spotify_collector.py]; of the collector, the methods that ask
    the web API, gather a dataset and publish a playlist are embedded, its
    constructor and [save_data], which only reach files and the
    environment, are not.  Numbers that Python computes with
    (integers read from the CSV, results of true division, means) are
    rationals here; decimal literals such as 0.8 are the rationals they
    denote.  A Python exception is an explicit outcome [Raise e]. *)

From Stdlib Require Import List String Ascii Bool Arith ZArith Lia.
From Stdlib Require Import QArith Qabs Lqa Permutation DecimalString.
Import ListNotations.

Local Open Scope string_scope.
Local Open Scope list_scope.

(** ** Python outcomes *)

Module Py.

(** The exception classes the two modules can meet. *)
Inductive ExnClass :=
| ValueError | KeyError | IndexError | TypeError | AttributeError
| ZeroDivisionError | RuntimeWarning | NetworkXNoPath | ClientError.

(** What [e.response] is for an exception object [e]: the attribute may be
    absent ([hasattr(e, 'response')] is false), present and [None], or a
    response object with a status code, headers and possibly a body. *)
Inductive ResponseAttr :=
| NoResponseAttr
| ResponseNone
| ResponseObj (status_code : Z) (headers : list (string * string))
              (text : option string).

Record Exn := mkExn {
  exn_class : ExnClass;
  exn_str : string;               (* str(e) *)
  exn_response : ResponseAttr
}.

Definition raised (c : ExnClass) (msg : string) : Exn :=
  mkExn c msg NoResponseAttr.

Inductive Result (A : Type) :=
| Ok (a : A)
| Raise (e : Exn).
Arguments Ok {A} a.
Arguments Raise {A} e.

Definition bindR {A B} (r : Result A) (k : A -> Result B) : Result B :=
  match r with
  | Ok a => k a
  | Raise e => Raise e
  end.

End Py.
Import Py.

Declare Scope result_scope.
Delimit Scope result_scope with result.
Notation "x <- c ;; k" := (bindR c (fun x => k))
  (at level 61, c at next level, right associativity) : result_scope.

(** Methods that read or write [self] run in a state-and-exception monad:
    the state a computation leaves behind is kept also when it raises. *)
Definition M (S A : Type) : Type := S -> Result A * S.

Definition ret {S A} (a : A) : M S A := fun s => (Ok a, s).

Definition bind {S A B} (c : M S A) (k : A -> M S B) : M S B :=
  fun s => match c s with
           | (Ok a, s') => k a s'
           | (Raise e, s') => (Raise e, s')
           end.

Definition raise {S A} (e : Exn) : M S A := fun s => (Raise e, s).

Definition lift {S A} (r : Result A) : M S A := fun s => (r, s).

Definition get {S} : M S S := fun s => (Ok s, s).

Definition modify {S} (f : S -> S) : M S unit := fun s => (Ok tt, f s).

Declare Scope monad_scope.
Delimit Scope monad_scope with monad.
Notation "x <- c ;; k" := (bind c (fun x => k))
  (at level 61, c at next level, right associativity) : monad_scope.
Notation "c ;; k" := (bind c (fun _ => k))
  (at level 61, right associativity) : monad_scope.

(** [try: body  except Exception as e: handler(e)].  The handler starts from
    the state the body had reached when it raised. *)
Definition try_catch {S A} (body : M S A) (handler : Exn -> M S A) : M S A :=
  fun s => match body s with
           | (Raise e, s') => handler e s'
           | r => r
           end.

(** [for x in xs: body(x)] *)
Fixpoint for_each {S X} (xs : list X) (body : X -> M S unit) : M S unit :=
  match xs with
  | [] => ret tt
  | x :: rest => (body x ;; for_each rest body)%monad
  end.

(** A loop that carries a value from one round to the next. *)
Fixpoint fold_m {S X B} (xs : list X) (body : X -> B -> M S B) (b : B)
  : M S B :=
  match xs with
  | [] => ret b
  | x :: rest => (b' <- body x b ;; fold_m rest body b')%monad
  end.

(** [not l] for a list *)
Definition is_empty {A} (l : list A) : bool :=
  match l with
  | [] => true
  | _ => false
  end.

(** ** Rational helpers written as the Python operators *)

Definition Qltb (a b : Q) : bool := negb (Qle_bool b a).

(** [max(a, b)]: the first argument unless the second is larger. *)
Definition py_max (a b : Q) : Q := if Qltb a b then b else a.

(** [a / b], true division. *)
Definition py_div (a b : Q) : Result Q :=
  if Qeq_bool b 0 then Raise (raised ZeroDivisionError "division by zero")
  else Ok (a / b).

Definition Qsum (l : list Q) : Q := fold_right Qplus 0 l.

(** [np.mean(l)].  On an empty list numpy warns "Mean of empty slice" and
    yields nan, which is no rational: that outcome is [Raise] here. *)
Definition np_mean (l : list Q) : Result Q :=
  match l with
  | [] => Raise (raised RuntimeWarning "Mean of empty slice")
  | _ => Ok (Qsum l / inject_Z (Z.of_nat (List.length l)))
  end.

(** ** The transition model ([src/models/transition_model.py]) *)

Module TransitionModel.

Local Open Scope Q_scope.

(** One row of the dataset: a track record with its mood label.  The
    [cluster] column is written by [train] ([dataset['cluster'] = ...]
    creates or overwrites it), so what a row carries there beforehand is
    immaterial. *)
Record Song := mkSong {
  track_id : string;
  track_name : string;
  mood : string;
  popularity : Q;
  duration_ms : Q;
  explicit : bool;
  track_number : Q;
  disc_number : Q;
  available_markets : Q;
  album_type : string;
  album_total_tracks : Q;
  artist_popularity : Q;
  artist_followers : Q;
  cluster : nat
}.

Definition with_cluster (s : Song) (c : nat) : Song :=
  mkSong (track_id s) (track_name s) (mood s) (popularity s) (duration_ms s)
         (explicit s) (track_number s) (disc_number s) (available_markets s)
         (album_type s) (album_total_tracks s) (artist_popularity s)
         (artist_followers s) c.

(** *** [_calculate_feature_similarity] *)

(** features = ['popularity', 'duration_ms', 'artist_popularity',
    'artist_followers'] *)
Definition features : list (Song -> Q) :=
  [popularity; duration_ms; artist_popularity; artist_followers].

(** The loop over [features]: a term is appended only when the larger of
    the two values is positive. *)
Fixpoint numeric_similarities (fs : list (Song -> Q)) (song1 song2 : Song)
         (similarities : list Q) : Result (list Q) :=
  match fs with
  | [] => Ok similarities
  | feature :: rest =>
      let max_val := py_max (feature song1) (feature song2) in
      if Qltb 0 max_val then
        (d <- py_div (Qabs (feature song1 - feature song2)) max_val ;;
         numeric_similarities rest song1 song2 (similarities ++ [1 - d]))%result
      else numeric_similarities rest song1 song2 similarities
  end.

(** The list [similarities] as it stands just before [np.mean]. *)
Definition similarity_terms (song1 song2 : Song) : Result (list Q) :=
  (similarities <- numeric_similarities features song1 song2 [] ;;
   let similarities :=
     similarities ++ [if Bool.eqb (explicit song1) (explicit song2)
                      then 1 else 0] in
   let similarities :=
     similarities ++ [if String.eqb (album_type song1) (album_type song2)
                      then 1 else 0] in
   Ok similarities)%result.

Definition _calculate_feature_similarity (song1 song2 : Song) : Result Q :=
  (similarities <- similarity_terms song1 song2 ;;
   np_mean similarities)%result.

(** *** [_calculate_transition_weight] *)

(** The [mood_weights] dictionary, in the order it is written. *)
Definition mood_weights : list ((string * string) * Q) :=
  [ (("sad", "happy"), 8 # 10);
    (("happy", "sad"), 6 # 10);
    (("calm", "energetic"), 7 # 10);
    (("energetic", "calm"), 7 # 10);
    (("angry", "calm"), 8 # 10);
    (("calm", "angry"), 5 # 10);
    (("romantic", "happy"), 7 # 10);
    (("happy", "romantic"), 7 # 10);
    (("melancholic", "happy"), 6 # 10);
    (("happy", "melancholic"), 5 # 10) ].

(** [d.get(key, default)] on a dictionary keyed by pairs of strings. *)
Fixpoint dict_get (d : list ((string * string) * Q)) (key : string * string)
         (default : Q) : Q :=
  match d with
  | [] => default
  | ((k1, k2), v) :: rest =>
      if (String.eqb k1 (fst key) && String.eqb k2 (snd key))%bool then v
      else dict_get rest key default
  end.

(** [mood_weights.get((mood1, mood2), 0.3)] *)
Definition base_weight (mood1 mood2 : string) : Q :=
  dict_get mood_weights (mood1, mood2) (3 # 10).

Definition _calculate_transition_weight (song1 song2 : Song) : Result Q :=
  (let mood_pair := (mood song1, mood song2) in
   let base_weight := dict_get mood_weights mood_pair (3 # 10) in
   feature_similarity <- _calculate_feature_similarity song1 song2 ;;
   Ok (base_weight * feature_similarity))%result.

(** *** The graph ([networkx.DiGraph]) *)

(** The attributes [add_node] stores with a node. *)
Record NodeData := mkNode {
  node_mood : string;
  node_cluster : nat;
  songs : list Song
}.

(** Nodes in insertion order, as a [DiGraph] iterates them; edges keyed by
    the ordered pair of their end points, each with its [weight]. *)
Record Graph := mkGraph {
  nodes : list (string * NodeData);
  edges : list ((string * string) * Q)
}.

Definition empty_graph : Graph := mkGraph [] [].

Definition node_ids (g : Graph) : list string := map fst (nodes g).

Fixpoint lookup_node (l : list (string * NodeData)) (n : string)
  : option NodeData :=
  match l with
  | [] => None
  | (k, d) :: rest => if String.eqb k n then Some d else lookup_node rest n
  end.

(** A node that is already there keeps its place and takes the new
    attributes; a new node goes last. *)
Fixpoint set_node (l : list (string * NodeData)) (n : string) (d : NodeData)
  : list (string * NodeData) :=
  match l with
  | [] => [(n, d)]
  | (k, d0) :: rest =>
      if String.eqb k n then (k, d) :: rest else (k, d0) :: set_node rest n d
  end.

Definition add_node (n : string) (d : NodeData) (g : Graph) : Graph :=
  mkGraph (set_node (nodes g) n d) (edges g).

Definition edge_eqb (e1 e2 : string * string) : bool :=
  (String.eqb (fst e1) (fst e2) && String.eqb (snd e1) (snd e2))%bool.

Fixpoint set_edge (l : list ((string * string) * Q)) (e : string * string)
         (w : Q) : list ((string * string) * Q) :=
  match l with
  | [] => [(e, w)]
  | (k, w0) :: rest =>
      if edge_eqb k e then (k, w) :: rest else (k, w0) :: set_edge rest e w
  end.

(** [add_edge(u, v, weight=w)] between two nodes of the graph (the only way
    [_build_transition_graph] calls it). *)
Definition add_edge (u v : string) (w : Q) (g : Graph) : Graph :=
  mkGraph (nodes g) (set_edge (edges g) (u, v) w).

(** [self]: the graph, and how many draws the random generator has made. *)
Record Model := mkModel {
  graph : Graph;
  rng_draws : nat
}.

(** [TransitionModel()] *)
Definition __init__ : Model := mkModel empty_graph 0.

Definition update_graph (f : Graph -> Graph) : M Model unit :=
  modify (fun self => mkModel (f (graph self)) (rng_draws self)).

(** [self.graph.nodes[n]['songs']] *)
Definition node_songs (n : string) : M Model (list Song) :=
  (self <- get ;;
   match lookup_node (nodes (graph self)) n with
   | Some d => ret (songs d)
   | None => raise (raised KeyError n)
   end)%monad.

(** [l[0]] *)
Definition first {A} (l : list A) : Result A :=
  match l with
  | x :: _ => Ok x
  | [] => Raise (raised IndexError "list index out of range")
  end.

(** *** Strings *)

(** [s.split(sep)] for a one-character separator. *)
Fixpoint split (sep : ascii) (s : string) : list string :=
  match s with
  | EmptyString => [EmptyString]
  | String c rest =>
      if Ascii.eqb c sep then EmptyString :: split sep rest
      else match split sep rest with
           | piece :: pieces => String c piece :: pieces
           | [] => [String c EmptyString]
           end
  end.

(** [a, b = s.split('_')] *)
Definition split_pair (s : string) : Result (string * string) :=
  match split "_"%char s with
  | [a; b] => Ok (a, b)
  | [_] => Raise (raised ValueError
                    "not enough values to unpack (expected 2, got 1)")
  | _ => Raise (raised ValueError "too many values to unpack (expected 2)")
  end.

Definition str_of_nat (n : nat) : string :=
  NilEmpty.string_of_uint (Nat.to_uint n).

(** [f"{mood}_{cluster}"] *)
Definition node_id (mood : string) (cluster : nat) : string :=
  mood ++ "_" ++ str_of_nat cluster.

(** *** [dataset.groupby(['mood', 'cluster'])] *)

Definition key_of (s : Song) : string * nat := (mood s, cluster s).

Definition key_eqb (k1 k2 : string * nat) : bool :=
  (String.eqb (fst k1) (fst k2) && Nat.eqb (snd k1) (snd k2))%bool.

(** The order of the group keys: by mood, then by cluster. *)
Definition key_leb (k1 k2 : string * nat) : bool :=
  match String.compare (fst k1) (fst k2) with
  | Lt => true
  | Eq => Nat.leb (snd k1) (snd k2)
  | Gt => false
  end.

Definition key_eq_dec (k1 k2 : string * nat) : {k1 = k2} + {k1 <> k2}.
Proof. decide equality; [apply Nat.eq_dec | apply string_dec]. Defined.

Fixpoint insert_key (k : string * nat) (l : list (string * nat))
  : list (string * nat) :=
  match l with
  | [] => [k]
  | h :: t => if key_leb k h then k :: l else h :: insert_key k t
  end.

Definition sort_keys (l : list (string * nat)) : list (string * nat) :=
  fold_right insert_key [] l.

(** The distinct keys of the rows, sorted. *)
Definition group_keys (rows : list Song) : list (string * nat) :=
  sort_keys (nodup key_eq_dec (map key_of rows)).

(** The groups in key order, each with its rows in dataset order. *)
Definition groupby (rows : list Song)
  : list ((string * nat) * list Song) :=
  map (fun k => (k, filter (fun r => key_eqb (key_of r) k) rows))
      (group_keys rows).

(** *** [train] and [_build_transition_graph] *)

(** [self.feature_columns], with [explicit] already cast to an integer. *)
Definition feature_columns : list (Song -> Q) :=
  [ popularity; duration_ms; (fun s => if explicit s then 1 else 0);
    track_number; disc_number; available_markets; album_total_tracks;
    artist_popularity; artist_followers ].

Definition feature_matrix (dataset : list Song) : list (list Q) :=
  map (fun s => map (fun column => column s) feature_columns) dataset.

(** [dataset['cluster'] = labels] *)
Fixpoint set_cluster_column (dataset : list Song) (labels : list nat)
  : Result (list Song) :=
  match dataset, labels with
  | [], [] => Ok []
  | s :: dataset', c :: labels' =>
      (rest <- set_cluster_column dataset' labels' ;;
       Ok (with_cluster s c :: rest))%result
  | _, _ => Raise (raised ValueError
                     "Length of values does not match length of index")
  end.

Definition add_group_node (group : (string * nat) * list Song)
  : M Model unit :=
  let '((mood, cluster), songs) := group in
  update_graph (add_node (node_id mood cluster) (mkNode mood cluster songs)).

(** The body of the inner loop over [node2]. *)
Definition add_transition (node1 node2 : string) : M Model unit :=
  (_ <- lift (split_pair node2) ;;
   songs1 <- node_songs node1 ;;
   song1 <- lift (first songs1) ;;
   songs2 <- node_songs node2 ;;
   song2 <- lift (first songs2) ;;
   weight <- lift (_calculate_transition_weight song1 song2) ;;
   if Qltb 0 weight then update_graph (add_edge node1 node2 weight)
   else ret tt)%monad.

Definition _build_transition_graph (dataset : list Song) : M Model unit :=
  (let mood_clusters := groupby dataset in
   for_each mood_clusters add_group_node ;;
   self <- get ;;
   let graph_nodes := node_ids (graph self) in
   for_each graph_nodes (fun node1 =>
     _ <- lift (split_pair node1) ;;
     for_each graph_nodes (fun node2 => add_transition node1 node2)))%monad.

Section Estimators.

(** The scikit-learn estimators are not part of the repository: the scaler
    and the clustering are taken as they come, and so is what the scaler
    hands to the clustering. *)
Variable Scaled : Type.
Variable scaler_fit_transform : list (list Q) -> Result Scaled.
Variable kmeans_fit_predict : Scaled -> Result (list nat).

Definition train (dataset : list Song) : M Model unit :=
  (let features := feature_matrix dataset in
   scaled_features <- lift (scaler_fit_transform features) ;;
   labels <- lift (kmeans_fit_predict scaled_features) ;;
   dataset <- lift (set_cluster_column dataset labels) ;;
   _build_transition_graph dataset)%monad.

End Estimators.

Arguments train {Scaled} scaler_fit_transform kmeans_fit_predict dataset.

(** [KMeans(n_clusters=5)] labels every sample with one of 0..4. *)
Definition five_clusters {Scaled : Type}
           (kmeans_fit_predict : Scaled -> Result (list nat)) : Prop :=
  forall x labels, kmeans_fit_predict x = Ok labels ->
                   Forall (fun c => (c < 5)%nat) labels.

(** *** [generate_playlist] *)

(** [best_duration] starts at [float('inf')]. *)
Inductive ExtQ :=
| Finite (q : Q)
| PosInf.

(** [abs(path_duration - target) < abs(best_duration - target)] *)
Definition closer (path_duration : Q) (best_duration : ExtQ) (target : Q)
  : bool :=
  match best_duration with
  | PosInf => true
  | Finite b => Qltb (Qabs (path_duration - target)) (Qabs (b - target))
  end.

Definition is_no_path (e : Exn) : bool :=
  match exn_class e with
  | NetworkXNoPath => true
  | _ => false
  end.

Fixpoint path_duration_loop (path : list string) (total_duration : Q)
  : M Model Q :=
  match path with
  | [] => ret total_duration
  | node :: rest =>
      (songs <- node_songs node ;;
       if is_empty songs then path_duration_loop rest total_duration
       else
         avg_duration <- lift (np_mean (map duration_ms songs)) ;;
         path_duration_loop rest (total_duration + avg_duration))%monad
  end.

Definition _calculate_path_duration (path : list string) : M Model Q :=
  path_duration_loop path 0.

Section Playlist.

(** [networkx.shortest_path(G, source, target, weight='weight')] is not part
    of the repository; it is a parameter, used under the contract
    [shortest_path_contract] below. *)
Variable nx_shortest_path : Graph -> string -> string -> Result (list string).

(** The raw draws of numpy's global generator, in the order they are made. *)
Variable np_random : nat -> nat.

(** [np.random.choice(l)] *)
Definition np_random_choice (l : list Song) : M Model Song :=
  match l with
  | [] => raise (raised ValueError
                       "'a' cannot be empty unless no samples are taken")
  | d :: _ =>
      (self <- get ;;
       let i := (np_random (rng_draws self) mod List.length l)%nat in
       modify (fun self => mkModel (graph self) (S (rng_draws self))) ;;
       ret (nth i l d))%monad
  end.

(** The body of the two nested loops over [start_nodes] and [end_nodes];
    [best] is the pair ([best_path], [best_duration]). *)
Definition try_path (target_duration : Q) (start end_ : string)
           (best : option (list string) * ExtQ)
  : M Model (option (list string) * ExtQ) :=
  try_catch
    (self <- get ;;
     path <- lift (nx_shortest_path (graph self) start end_) ;;
     path_duration <- _calculate_path_duration path ;;
     if closer path_duration (snd best) target_duration
     then ret (Some path, Finite path_duration)
     else ret best)%monad
    (fun e => if is_no_path e then ret best else raise e).

Definition find_best_path (target_duration : Q)
           (start_nodes end_nodes : list string)
  : M Model (option (list string) * ExtQ) :=
  fold_m start_nodes
         (fun start best =>
            fold_m end_nodes
                   (fun end_ best => try_path target_duration start end_ best)
                   best)
         (None, PosInf).

(** The loop over [best_path] that fills [playlist]. *)
Fixpoint walk (target_duration : Q) (path : list string)
         (playlist : list Song) (current_duration : Q)
  : M Model (list Song) :=
  match path with
  | [] => ret playlist
  | node :: rest =>
      (songs <- node_songs node ;;
       if is_empty songs then walk target_duration rest playlist current_duration
       else
         song <- np_random_choice songs ;;
         let playlist := playlist ++ [song] in
         let current_duration := current_duration + duration_ms song in
         if Qle_bool target_duration current_duration then ret playlist
         else walk target_duration rest playlist current_duration)%monad
  end.

Definition no_such_mood (start_emotion end_emotion : string) : Exn :=
  raised ValueError ("Could not find nodes for emotions: "
                       ++ start_emotion ++ " or " ++ end_emotion).

Definition no_reachable_path (start_emotion end_emotion : string) : Exn :=
  raised ValueError ("No valid path found from "
                       ++ start_emotion ++ " to " ++ end_emotion).

(** [[n for n in self.graph.nodes() if n.startswith(emotion)]] *)
Definition nodes_with_prefix (emotion : string) (g : Graph) : list string :=
  filter (String.prefix emotion) (node_ids g).

(** The returned data frame is the list of its rows. *)
Definition generate_playlist (start_emotion end_emotion : string)
           (duration_minutes : Q) : M Model (list Song) :=
  (let target_duration := duration_minutes * 60 * 1000 in
   self <- get ;;
   let start_nodes := nodes_with_prefix start_emotion (graph self) in
   let end_nodes := nodes_with_prefix end_emotion (graph self) in
   if (is_empty start_nodes || is_empty end_nodes)%bool
   then raise (no_such_mood start_emotion end_emotion)
   else
     best <- find_best_path target_duration start_nodes end_nodes ;;
     match fst best with
     | None | Some [] => raise (no_reachable_path start_emotion end_emotion)
     | Some best_path => walk target_duration best_path [] 0
     end)%monad.

End Playlist.

(** *** Paths of the graph, and what [networkx.shortest_path] promises *)

Definition has_edge (g : Graph) (u v : string) : Prop :=
  exists w, In ((u, v), w) (edges g).

(** [is_path g u v p]: [p] lists the nodes of a directed path of [g] that
    starts at [u] and ends at [v]. *)
Inductive is_path (g : Graph) : string -> string -> list string -> Prop :=
| path_here u :
    In u (node_ids g) -> is_path g u u [u]
| path_step u v w p :
    In u (node_ids g) -> has_edge g u v -> is_path g v w p ->
    is_path g u w (u :: p).

Definition has_path (g : Graph) (u v : string) : Prop :=
  exists p, is_path g u v p.

(** For two nodes of the graph the search returns a path between them or
    raises [NetworkXNoPath], the latter only when there is none. *)
Definition shortest_path_contract
           (nx_shortest_path : Graph -> string -> string -> Result (list string))
           (g : Graph) : Prop :=
  forall u v, In u (node_ids g) -> In v (node_ids g) ->
    (exists p, nx_shortest_path g u v = Ok p /\ is_path g u v p) \/
    (exists e, nx_shortest_path g u v = Raise e /\
               exn_class e = NetworkXNoPath /\ ~ has_path g u v).

End TransitionModel.

(** ** The data collector ([src/data/spotify_collector.py]) *)

Module SpotifyDataCollector.

Set Warnings "-register-all".

(** *** Values of the web API

    The client hands back what the service's JSON decodes to, and the
    collector reads it with subscripts, [in], [len] and [.get]. *)
Inductive json :=
| JNull
| JBool (b : bool)
| JNum (n : Z)
| JStr (s : string)
| JList (items : list json)
| JDict (fields : list (string * json)).

(** [bool(x)] *)
Definition truthy (x : json) : bool :=
  match x with
  | JNull => false
  | JBool b => b
  | JNum n => negb (Z.eqb n 0)
  | JStr s => negb (String.eqb s "")
  | JList l => negb (is_empty l)
  | JDict kv => negb (is_empty kv)
  end.

Fixpoint dict_lookup (kv : list (string * json)) (key : string)
  : option json :=
  match kv with
  | [] => None
  | (k, v) :: rest => if String.eqb k key then Some v else dict_lookup rest key
  end.

Definition type_error {A} (msg : string) : Result A :=
  Raise (raised TypeError msg).

(** [x[key]] for a string [key] *)
Definition getitem (x : json) (key : string) : Result json :=
  match x with
  | JDict kv =>
      match dict_lookup kv key with
      | Some v => Ok v
      | None => Raise (raised KeyError key)
      end
  | JList _ => type_error "list indices must be integers or slices, not str"
  | JStr _ => type_error "string indices must be integers"
  | _ => type_error "object is not subscriptable"
  end.

(** [x[0]] *)
Definition getitem0 (x : json) : Result json :=
  match x with
  | JList (v :: _) => Ok v
  | JList [] => Raise (raised IndexError "list index out of range")
  | JStr (String c _) => Ok (JStr (String c ""))
  | JStr EmptyString => Raise (raised IndexError "string index out of range")
  | JDict _ => Raise (raised KeyError "0")
  | _ => type_error "object is not subscriptable"
  end.

(** [sub in s] for two strings *)
Fixpoint contains (sub s : string) : bool :=
  (String.prefix sub s ||
   match s with
   | EmptyString => false
   | String _ rest => contains sub rest
   end)%bool.

Definition is_str (key : string) (x : json) : bool :=
  match x with
  | JStr s => String.eqb s key
  | _ => false
  end.

(** [key in x] for a string [key] *)
Definition py_in (key : string) (x : json) : Result bool :=
  match x with
  | JDict kv => Ok (existsb (fun p => String.eqb (fst p) key) kv)
  | JList l => Ok (existsb (is_str key) l)
  | JStr s => Ok (contains key s)
  | _ => type_error "argument is not iterable"
  end.

(** [len(x)] *)
Definition py_len (x : json) : Result nat :=
  match x with
  | JList l => Ok (List.length l)
  | JStr s => Ok (String.length s)
  | JDict kv => Ok (List.length kv)
  | _ => type_error "object has no len()"
  end.

(** [x.get(key, default)] *)
Definition py_get (x : json) (key : string) (default : json) : Result json :=
  match x with
  | JDict kv =>
      match dict_lookup kv key with
      | Some v => Ok v
      | None => Ok default
      end
  | _ => Raise (raised AttributeError "object has no attribute 'get'")
  end.

Fixpoint chars (s : string) : list json :=
  match s with
  | EmptyString => []
  | String c rest => JStr (String c "") :: chars rest
  end.

(** What [for v in x] goes through. *)
Definition py_iter (x : json) : Result (list json) :=
  match x with
  | JList l => Ok l
  | JStr s => Ok (chars s)
  | JDict kv => Ok (map (fun p => JStr (fst p)) kv)
  | _ => type_error "object is not iterable"
  end.

(** [x[:n]] *)
Definition slice_to (x : json) (n : nat) : Result json :=
  match x with
  | JList l => Ok (JList (firstn n l))
  | JStr s => Ok (JStr (String.substring 0 n s))
  | _ => type_error "object is not sliceable"
  end.

(** [x.extend(y)] *)
Definition extend (x y : json) : Result json :=
  match x with
  | JList l => (more <- py_iter y ;; Ok (JList (l ++ more)))%result
  | _ => Raise (raised AttributeError "object has no attribute 'extend'")
  end.

(** [hash(x)] succeeds on everything but lists and dictionaries. *)
Definition hashable (x : json) : Result json :=
  match x with
  | JList _ | JDict _ => type_error "unhashable type"
  | _ => Ok x
  end.

(** [x == y] on hashable values: [True] and [False] equal 1 and 0. *)
Definition py_eqb (x y : json) : bool :=
  match x, y with
  | JNull, JNull => true
  | JBool a, JBool b => Bool.eqb a b
  | JBool a, JNum n | JNum n, JBool a => Z.eqb n (if a then 1 else 0)
  | JNum n, JNum m => Z.eqb n m
  | JStr s, JStr t => String.eqb s t
  | _, _ => false
  end.

(** *** The collector's state *)

Inductive Level := INFO | WARNING | ERROR.

(** The requests the collector sends through the client:
    [sp.track(id)], [sp.search(q=.., type='playlist', limit=..)],
    [sp.playlist_tracks(id)] and [sp.next(page)]. *)
Inductive Request :=
| Track (track_id : string)
| Search (q : string) (limit : nat)
| PlaylistTracks (playlist_id : string)
| Next (page : json).

(** What the collector does that can be seen from outside: it sleeps, it
    sends a request, it writes a log line (the line's text is left out). *)
Inductive Event :=
| Sleep (seconds : nat)
| Called (request : Request)
| Log (level : Level).

Section Client.

(** The service behind the client: it answers a request with a value or an
    exception and may change while doing so. *)
Variable World : Type.
Variable spotify : Request -> World -> Result json * World.

Record State := mkState {
  world : World;
  trace : list Event
}.

Definition emit (ev : Event) : M State unit :=
  modify (fun st => mkState (world st) (trace st ++ [ev])).

(** [time.sleep(seconds)] *)
Definition sleep (seconds : nat) : M State unit := emit (Sleep seconds).

(** [logger.info(..)], [logger.warning(..)], [logger.error(..)] *)
Definition logger (level : Level) : M State unit := emit (Log level).

(** A method of [self.sp] applied to its arguments. *)
Definition call (request : Request) : M State json :=
  fun st =>
    let (r, w) := spotify request (world st) in
    (r, mkState w (trace st ++ [Called request])).

(** The lines every handler writes about [e.response]:
    [if hasattr(e, 'response'):] status, headers and,
    [if hasattr(e.response, 'text'):], the body.  Reading [status_code] off
    a response that is [None] raises. *)
Definition log_response (e : Exn) : M State unit :=
  match exn_response e with
  | NoResponseAttr => ret tt
  | ResponseNone =>
      raise (raised AttributeError
                    "'NoneType' object has no attribute 'status_code'")
  | ResponseObj _ _ text =>
      (logger ERROR ;;
       logger ERROR ;;
       match text with
       | Some _ => logger ERROR
       | None => ret tt
       end)%monad
  end.

(** *** [_handle_rate_limit] *)

(** ['429' in str(e) or '403' in str(e)] *)
Definition is_rate_limit (e : Exn) : bool :=
  (contains "429" (exn_str e) || contains "403" (exn_str e))%bool.

Definition max_retries : nat := 3.
Definition base_delay : nat := 2.

(** The loop [for attempt in range(max_retries)], over the attempts that are
    left.  Falling out of the loop returns [None]. *)
Fixpoint attempts (remaining : list nat) (func : M State json)
  : M State json :=
  match remaining with
  | [] => ret JNull
  | attempt :: rest =>
      try_catch
        (sleep 1 ;; func)%monad
        (fun e =>
           if is_rate_limit e then
             if (attempt <? max_retries - 1)%nat then
               (let delay := (base_delay * 2 ^ attempt)%nat in
                logger WARNING ;;
                log_response e ;;
                sleep delay ;;
                attempts rest func)%monad
             else raise e
           else raise e)
  end.

Definition _handle_rate_limit (request : Request) : M State json :=
  attempts (seq 0 max_retries) (call request).

(** *** [get_track_info] *)

(** [track['album'][key]] *)
Definition album_field (track : json) (key : string) : Result json :=
  (album <- getitem track "album" ;; getitem album key)%result.

(** [track['artists'][0]] *)
Definition first_artist (track : json) : Result json :=
  (artists <- getitem track "artists" ;; getitem0 artists)%result.

(** The keys of the returned dictionary, in the order they are written. *)
Definition track_info_keys : list string :=
  [ "id"; "name"; "artist"; "popularity"; "duration_ms"; "album";
    "release_date"; "explicit"; "track_number"; "disc_number";
    "available_markets"; "is_local"; "album_type"; "album_release_date";
    "album_total_tracks"; "artist_popularity"; "artist_genres";
    "artist_followers" ].

(** The dictionary display after [return]; its values are evaluated in
    the order they are written. *)
Definition track_info (track : json) : Result json :=
  (id <- getitem track "id" ;;
   name <- getitem track "name" ;;
   artist <- (a <- first_artist track ;; getitem a "name") ;;
   popularity <- getitem track "popularity" ;;
   duration_ms <- getitem track "duration_ms" ;;
   album <- album_field track "name" ;;
   release_date <- album_field track "release_date" ;;
   explicit <- getitem track "explicit" ;;
   track_number <- getitem track "track_number" ;;
   disc_number <- getitem track "disc_number" ;;
   available_markets <-
     (markets <- getitem track "available_markets" ;;
      n <- py_len markets ;;
      Ok (JNum (Z.of_nat n))) ;;
   is_local <- getitem track "is_local" ;;
   album_type <- album_field track "album_type" ;;
   album_release_date <- album_field track "release_date" ;;
   album_total_tracks <- album_field track "total_tracks" ;;
   artist_popularity <-
     (a <- first_artist track ;; py_get a "popularity" (JNum 0)) ;;
   artist_genres <-
     (a <- first_artist track ;; py_get a "genres" (JList [])) ;;
   artist_followers <-
     (a <- first_artist track ;;
      followers <- py_get a "followers" (JDict []) ;;
      py_get followers "total" (JNum 0)) ;;
   Ok (JDict (combine track_info_keys
                [ id; name; artist; popularity; duration_ms; album;
                  release_date; explicit; track_number; disc_number;
                  available_markets; is_local; album_type;
                  album_release_date; album_total_tracks;
                  artist_popularity; artist_genres; artist_followers ])))%result.

Definition get_track_info (track_id : string) : M State json :=
  try_catch
    (logger INFO ;;
     track <- _handle_rate_limit (Track track_id) ;;
     if negb (truthy track) then (logger WARNING ;; ret JNull)
     else lift (track_info track))%monad
    (fun e => logger ERROR ;; log_response e ;; ret JNull)%monad.

(** *** [search_playlists_by_mood] *)

(** The two collections the loop body fills.  They are changed in place, so
    what a query added before it failed stays. *)
Record SearchLocals := mkLocals {
  all_playlists : list json;
  seen_ids : list json
}.

(** A method of the collector, run where local variables are in scope. *)
Definition on_state {L A} (c : M State A) : M (State * L) A :=
  fun sl => let (r, st) := c (fst sl) in (r, (st, snd sl)).

Definition locals {L} : M (State * L) L := fun sl => (Ok (snd sl), sl).

Definition set_locals {L} (l : L) : M (State * L) unit :=
  fun sl => (Ok tt, (fst sl, l)).

(** The body of [for playlist in playlists]. *)
Definition add_playlist (playlist : json) : M (State * SearchLocals) unit :=
  (playlist_id <- lift (id <- getitem playlist "id" ;; hashable id)%result ;;
   l <- locals ;;
   if existsb (py_eqb playlist_id) (seen_ids l) then ret tt
   else set_locals (mkLocals (all_playlists l ++ [playlist])
                             (seen_ids l ++ [playlist_id])))%monad.

(** [not results or 'playlists' not in results
     or 'items' not in results['playlists']] *)
Definition no_playlists (results : json) : Result bool :=
  if negb (truthy results) then Ok true
  else
    (has_playlists <- py_in "playlists" results ;;
     if negb has_playlists then Ok true
     else
       playlists <- getitem results "playlists" ;;
       has_items <- py_in "items" playlists ;;
       Ok (negb has_items))%result.

(** The body of [for query in queries]. *)
Definition search_query (limit : nat) (query : string)
  : M (State * SearchLocals) unit :=
  try_catch
    (on_state (logger INFO) ;;
     results <- on_state (_handle_rate_limit (Search query limit)) ;;
     missing <- lift (no_playlists results) ;;
     if missing then on_state (logger WARNING)
     else
       playlists <- lift (p <- getitem results "playlists" ;;
                          getitem p "items")%result ;;
       _ <- lift (py_len playlists) ;;
       on_state (logger INFO) ;;
       items <- lift (py_iter playlists) ;;
       for_each items add_playlist)%monad
    (fun e => on_state (logger ERROR ;; log_response e)%monad).

Definition queries (mood : string) : list string :=
  [ ("mood " ++ mood)%string; (mood ++ " music")%string;
    (mood ++ " songs")%string; (mood ++ " playlist")%string ].

(** [limit] counts playlists; the one caller leaves it at its default, 5. *)
Definition search_playlists_by_mood (mood : string) (limit : nat)
  : M State (list json) :=
  fun st =>
    let body :=
      (for_each (queries mood) (search_query limit) ;;
       on_state (logger INFO) ;;
       l <- locals ;;
       ret (firstn limit (all_playlists l)))%monad in
    let (r, sl) := body (st, mkLocals [] []) in
    (r, fst sl).

(** *** [get_playlist_tracks] *)

(** [results['next'] and len(tracks) < 50] *)
Definition wants_more (results tracks : json) : Result bool :=
  (next <- getitem results "next" ;;
   if truthy next then (n <- py_len tracks ;; Ok (n <? 50)%nat)
   else Ok false)%result.

(** The [while] loop; [fuel] bounds the number of rounds, and [None] stands
    for a loop that has not ended within them. *)
Fixpoint more_pages (fuel : nat) (results tracks : json)
  : M State (option json) :=
  (go_on <- lift (wants_more results tracks) ;;
   if go_on then
     match fuel with
     | O => ret None
     | S fuel' =>
         sleep 1 ;;
         results <- _handle_rate_limit (Next results) ;;
         has_items <- lift (py_in "items" results) ;;
         if has_items then
           items <- lift (getitem results "items") ;;
           tracks <- lift (extend tracks items) ;;
           more_pages fuel' results tracks
         else more_pages fuel' results tracks
     end
   else ret (Some tracks))%monad.

(** [not results or 'items' not in results] *)
Definition no_items (results : json) : Result bool :=
  if negb (truthy results) then Ok true
  else (has_items <- py_in "items" results ;; Ok (negb has_items))%result.

Definition get_playlist_tracks (fuel : nat) (playlist_id : string)
  : M State (option json) :=
  try_catch
    (logger INFO ;;
     results <- _handle_rate_limit (PlaylistTracks playlist_id) ;;
     missing <- lift (no_items results) ;;
     if missing then (logger WARNING ;; ret (Some (JList [])))
     else
       tracks <- lift (getitem results "items") ;;
       gathered <- more_pages fuel results tracks ;;
       match gathered with
       | None => ret None
       | Some tracks =>
           page <- lift (slice_to tracks 50) ;;
           ret (Some page)
       end)%monad
    (fun e => logger ERROR ;; log_response e ;; ret (Some (JList [])))%monad.

End Client.

Arguments mkState {World} world trace.
Arguments world {World} s.
Arguments trace {World} s.
Arguments emit {World} ev.
Arguments sleep {World} seconds.
Arguments logger {World} level.
Arguments call {World} spotify request.
Arguments log_response {World} e.
Arguments attempts {World} remaining func.
Arguments _handle_rate_limit {World} spotify request.
Arguments get_track_info {World} spotify track_id.
Arguments on_state {World L A} c.
Arguments locals {World L}.
Arguments set_locals {World L} l.
Arguments add_playlist {World} playlist.
Arguments search_query {World} spotify limit query.
Arguments search_playlists_by_mood {World} spotify mood limit.
Arguments more_pages {World} spotify fuel results tracks.
Arguments get_playlist_tracks {World} spotify fuel playlist_id.

End SpotifyDataCollector.

(** ** Collecting a dataset and publishing a playlist
       ([collect_mood_data], [collect_all_mood_data] and [create_playlist]
       of [src/data/spotify_collector.py]) *)

Module DataCollection.

Import SpotifyDataCollector.

(** The methods of the client that only [create_playlist] calls:
    [sp.current_user()], [sp.user_playlist_create(user=.., name=..,
    description=.., public=True)] and [sp.playlist_add_items(id, items)]. *)
Inductive AccountRequest :=
| CurrentUser
| UserPlaylistCreate (user : json) (name description : string)
| PlaylistAddItems (playlist_id : json) (items : list string).

(** What these methods do besides the events of the trace: a pause that is
    no whole number of seconds, a call of one of the client's other
    methods. *)
Inductive Aside :=
| Paused (seconds : Q)
| Asked (request : AccountRequest).

(** [{'mood': mood, **track_info}] *)
Fixpoint dict_set (kv : list (string * json)) (key : string) (v : json)
  : list (string * json) :=
  match kv with
  | [] => [(key, v)]
  | (k, v0) :: rest =>
      if String.eqb k key then (k, v) :: rest else (k, v0) :: dict_set rest key v
  end.

Definition dict_update (base more : list (string * json))
  : list (string * json) :=
  fold_left (fun kv item => dict_set kv (fst item) (snd item)) more base.

Definition with_mood (mood : string) (track_info : json) : Result json :=
  match track_info with
  | JDict fields => Ok (JDict (dict_update [("mood", JStr mood)] fields))
  | _ => type_error "argument after ** must be a mapping"
  end.

(** [range(0, stop, step)] for a positive [step] *)
Definition py_range (stop step : nat) : list nat :=
  map (fun k => (k * step)%nat) (seq 0 ((stop + step - 1) / step)%nat).

(** ['happy', 'sad', 'energetic', 'calm', 'angry', 'romantic',
     'melancholic'] *)
Definition default_moods : list string :=
  [ "happy"; "sad"; "energetic"; "calm"; "angry"; "romantic"; "melancholic" ].

Section Session.

Variable World : Type.
Variable spotify : Request -> World -> Result json * World.
Variable account : AccountRequest -> World -> Result json * World.

(** The state of a run: the collector's state, and the asides, each with
    the number of events the trace held when it happened, which fixes its
    place among them. *)
Definition Session : Type := State World * list (nat * Aside).

Definition aside (a : Aside) : M Session unit :=
  modify (fun s => (fst s, snd s ++ [(List.length (trace (fst s)), a)])).

(** [time.sleep(seconds)] for a number of seconds that is not whole *)
Definition pause (seconds : Q) : M Session unit := aside (Paused seconds).

(** A method of [self.sp] that is none of the four above. *)
Definition ask (request : AccountRequest) : M Session json :=
  fun s =>
    let (r, w) := account request (world (fst s)) in
    (r, (mkState w (trace (fst s)),
         snd s ++ [(List.length (trace (fst s)), Asked request)])).

(** *** [collect_mood_data] *)

(** The identifiers of the web API are strings, and so are those the
    requests [PlaylistTracks] and [Track] carry.  What the client does with
    an identifier that is no string is the client library's affair:
    [odd_playlist_tracks] and [odd_track_info] stand for what
    [get_playlist_tracks] and [get_track_info] come to on such a value. *)
Variable odd_playlist_tracks : json -> M (State World) (option json).
Variable odd_track_info : json -> M (State World) json.

(** [self.get_playlist_tracks(playlist['id'])] *)
Definition playlist_tracks_of (fuel : nat) (id : json)
  : M (State World) (option json) :=
  match id with
  | JStr playlist_id => get_playlist_tracks spotify fuel playlist_id
  | _ => odd_playlist_tracks id
  end.

(** [self.get_track_info(track['id'])] *)
Definition track_info_of (id : json) : M (State World) json :=
  match id with
  | JStr track_id => get_track_info spotify track_id
  | _ => odd_track_info id
  end.

(** [not track or not track['id']] *)
Definition no_track (track : json) : Result bool :=
  if negb (truthy track) then Ok true
  else (id <- getitem track "id" ;; Ok (negb (truthy id)))%result.

(** The loop [for track_item in playlist_tracks], over the items that are
    left; [num_tracks] counts records, and its one caller leaves it at its
    default, 20. *)
Fixpoint gather (mood : string) (num_tracks : nat) (items : list json)
         (tracks_data : list json) : M Session (list json) :=
  match items with
  | [] => ret tracks_data
  | track_item :: rest =>
      if (num_tracks <=? List.length tracks_data)%nat then ret tracks_data
      else
        (track <- lift (getitem track_item "track") ;;
         skip <- lift (no_track track) ;;
         if skip then gather mood num_tracks rest tracks_data
         else
           id <- lift (getitem track "id") ;;
           track_info <- on_state (track_info_of id) ;;
           if negb (truthy track_info)
           then gather mood num_tracks rest tracks_data
           else
             track_data <- lift (with_mood mood track_info) ;;
             let tracks_data := tracks_data ++ [track_data] in
             pause (3 # 2) ;;
             gather mood num_tracks rest tracks_data)%monad
  end.

(** The loop [for playlist in tqdm(playlists, ..)]: [tqdm] hands the
    playlists out in their order.  [None] stands for a run in which the
    pagination of a playlist has not come to an end. *)
Fixpoint collect_playlists (fuel : nat) (mood : string) (num_tracks : nat)
         (playlists : list json) (tracks_data : list json)
  : M Session (option (list json)) :=
  match playlists with
  | [] => ret (Some tracks_data)
  | playlist :: rest =>
      (id <- lift (getitem playlist "id") ;;
       playlist_tracks <- on_state (playlist_tracks_of fuel id) ;;
       match playlist_tracks with
       | None => ret None
       | Some playlist_tracks =>
           items <- lift (py_iter playlist_tracks) ;;
           tracks_data <- gather mood num_tracks items tracks_data ;;
           collect_playlists fuel mood num_tracks rest tracks_data
       end)%monad
  end.

Definition collect_mood_data (fuel : nat) (mood : string) (num_tracks : nat)
  : M Session (option (list json)) :=
  (playlists <- on_state (search_playlists_by_mood spotify mood 5) ;;
   collect_playlists fuel mood num_tracks playlists [])%monad.

(** *** [collect_all_mood_data] *)

(** The loop [for mood in tqdm(moods, ..)]. *)
Fixpoint collect_moods (fuel : nat) (moods : list string) (all_data : list json)
  : M Session (option (list json)) :=
  match moods with
  | [] => ret (Some all_data)
  | mood :: rest =>
      (mood_data <- collect_mood_data fuel mood 20 ;;
       match mood_data with
       | None => ret None
       | Some mood_data => collect_moods fuel rest (all_data ++ mood_data)
       end)%monad
  end.

(** The data frame that is returned is the list of its rows. *)
Definition collect_all_mood_data (fuel : nat) (moods : option (list string))
  : M Session (option (list json)) :=
  let moods := match moods with
               | None => default_moods
               | Some moods => moods
               end in
  collect_moods fuel moods [].

(** *** [create_playlist] *)

Section Frame.

(** A data frame is its columns, each a name and the cells under it.  How
    an f-string renders a cell is Python's affair. *)
Variable Cell : Type.
Variable py_str : Cell -> string.

Definition DataFrame : Type := list (string * list Cell).

(** [tracks_df[name]] *)
Fixpoint column (tracks_df : DataFrame) (name : string) : Result (list Cell) :=
  match tracks_df with
  | [] => Raise (raised KeyError name)
  | (k, cells) :: rest =>
      if String.eqb k name then Ok cells else column rest name
  end.

(** [f"spotify:track:{track_id}"] *)
Definition track_uri (track_id : Cell) : string :=
  "spotify:track:" ++ py_str track_id.

(** The body of [for i in range(0, len(track_uris), 100)]. *)
Definition add_chunk (playlist : json) (track_uris : list string) (i : nat)
  : M Session unit :=
  (let chunk := firstn 100 (skipn i track_uris) in
   id <- lift (getitem playlist "id") ;;
   _ <- ask (PlaylistAddItems id chunk) ;;
   on_state (sleep 1))%monad.

(** The two lines logged about the new playlist. *)
Definition log_playlist (playlist : json) : M Session unit :=
  (_ <- lift (getitem playlist "name") ;;
   on_state (logger INFO) ;;
   _ <- lift (urls <- getitem playlist "external_urls" ;;
              getitem urls "spotify")%result ;;
   on_state (logger INFO))%monad.

Definition create_playlist (name description : string) (tracks_df : DataFrame)
  : M Session json :=
  try_catch
    (user <- ask CurrentUser ;;
     user_id <- lift (getitem user "id") ;;
     playlist <- ask (UserPlaylistCreate user_id name description) ;;
     ids <- lift (column tracks_df "id") ;;
     let track_uris := map track_uri ids in
     for_each (py_range (List.length track_uris) 100)
              (add_chunk playlist track_uris) ;;
     log_playlist playlist ;;
     ret playlist)%monad
    (fun e => on_state (logger ERROR ;; log_response e) ;; raise e)%monad.

End Frame.

End Session.

Arguments aside {World} a.
Arguments pause {World} seconds.
Arguments ask {World} account request.
Arguments playlist_tracks_of {World} spotify odd_playlist_tracks fuel id.
Arguments track_info_of {World} spotify odd_track_info id.
Arguments gather {World} spotify odd_track_info mood num_tracks items tracks_data.
Arguments collect_playlists {World} spotify odd_playlist_tracks odd_track_info
  fuel mood num_tracks playlists tracks_data.
Arguments collect_mood_data {World} spotify odd_playlist_tracks odd_track_info
  fuel mood num_tracks.
Arguments collect_moods {World} spotify odd_playlist_tracks odd_track_info
  fuel moods all_data.
Arguments collect_all_mood_data {World} spotify odd_playlist_tracks
  odd_track_info fuel moods.
Arguments add_chunk {World} account playlist track_uris i.
Arguments log_playlist {World} playlist.
Arguments create_playlist {World} account {Cell} py_str name description
  tracks_df.

End DataCollection.

(** * Properties *)

(** ** Reasoning about stateful computations *)

Module MonadFacts.

(** Invariants of stateful computations. *)
Definition preserves {S A} (P : S -> Prop) (c : M S A) : Prop :=
  forall s, P s -> P (snd (c s)).

Lemma preserves_ret {S A} (P : S -> Prop) (a : A) : preserves P (ret a).
Proof. intros s H. exact H. Qed.

Lemma preserves_raise {S A} (P : S -> Prop) e : preserves P (@raise S A e).
Proof. intros s H. exact H. Qed.

Lemma preserves_lift {S A} (P : S -> Prop) (r : Result A) : preserves P (lift r).
Proof. intros s H. exact H. Qed.

Lemma preserves_get {S} (P : S -> Prop) : preserves P get.
Proof. intros s H. exact H. Qed.

Lemma preserves_bind {S A B} (P : S -> Prop) (c : M S A) (k : A -> M S B) :
  preserves P c -> (forall a, preserves P (k a)) -> preserves P (bind c k).
Proof.
  intros Hc Hk s H. unfold bind. specialize (Hc s H).
  destruct (c s) as [[a|e] s']; simpl in *; [now apply Hk|exact Hc].
Qed.

Lemma preserves_bind_lift {S A B} (P : S -> Prop) (r : Result A) (k : A -> M S B) :
  (forall a, r = Ok a -> preserves P (k a)) -> preserves P (bind (lift r) k).
Proof.
  intros Hk s H. unfold bind, lift. destruct r as [a|e]; [now apply Hk|exact H].
Qed.

Lemma preserves_for_each {S X} (P : S -> Prop) (xs : list X) body :
  (forall x, preserves P (body x)) -> preserves P (for_each xs body).
Proof.
  intro Hb. induction xs as [|x xs IH]; simpl.
  - apply preserves_ret.
  - apply preserves_bind; [apply Hb|intros _; exact IH].
Qed.

Lemma preserves_try_catch {S A} (P : S -> Prop) (body : M S A) handler :
  preserves P body -> (forall e, preserves P (handler e)) ->
  preserves P (try_catch body handler).
Proof.
  intros Hb Hh s H. unfold try_catch. specialize (Hb s H).
  destruct (body s) as [[a|e] s1]; simpl in *; [exact Hb|now apply Hh].
Qed.

(** What holds of the value of a computation whenever it returns one. *)
Definition post {S A} (c : M S A) (Q : A -> Prop) : Prop :=
  forall s a s', c s = (Ok a, s') -> Q a.

Lemma post_ret {S A} (a : A) (Q : A -> Prop) : Q a -> post (@ret S A a) Q.
Proof. intros H s a' s' E. injection E as <- _. exact H. Qed.

Lemma post_raise {S A} e (Q : A -> Prop) : post (@raise S A e) Q.
Proof. intros s a s' E. discriminate. Qed.

Lemma post_bind {S A B} (c : M S A) (k : A -> M S B) (Q : B -> Prop) :
  (forall a, post (k a) Q) -> post (bind c k) Q.
Proof.
  intros Hk s b s' E. unfold bind in E.
  destruct (c s) as [[a|e] s1]; [|discriminate]. exact (Hk a s1 b s' E).
Qed.

Lemma post_bind_lift {S A B} (r : Result A) (k : A -> M S B) (Q : B -> Prop) :
  (forall a, r = Ok a -> post (k a) Q) -> post (bind (lift r) k) Q.
Proof.
  intros Hk s b s' E. unfold bind, lift in E.
  destruct r as [a|e]; [|discriminate]. exact (Hk a eq_refl s b s' E).
Qed.

Lemma post_lift {S A} (r : Result A) (Q : A -> Prop) :
  (forall a, r = Ok a -> Q a) -> post (@lift S A r) Q.
Proof. intros H s a s' E. unfold lift in E. injection E as -> _. now apply H. Qed.

Lemma post_try_catch {S A} (body : M S A) handler (Q : A -> Prop) :
  post body Q -> (forall e, post (handler e) Q) -> post (try_catch body handler) Q.
Proof.
  intros Hb Hh s a s' E. unfold try_catch in E.
  destruct (body s) as [[a0|e] s1] eqn:Eb.
  - injection E as <- <-. exact (Hb s a0 s1 Eb).
  - exact (Hh e s1 a s' E).
Qed.

(** Which exceptions a computation can end in. *)
Definition raises_only {S A} (c : M S A) (P : Exn -> Prop) : Prop :=
  forall s e s', c s = (Raise e, s') -> P e.

Lemma raises_only_ret {S A} (a : A) P : raises_only (@ret S A a) P.
Proof. intros s e s' [=]. Qed.

Lemma raises_only_raise {S A} e (P : Exn -> Prop) :
  P e -> raises_only (@raise S A e) P.
Proof. intros H s e' s' [= <- _]. exact H. Qed.

Lemma raises_only_lift {S A} (r : Result A) (P : Exn -> Prop) :
  (forall e, r = Raise e -> P e) -> raises_only (@lift S A r) P.
Proof. intros H s e s' [= -> _]. now apply H. Qed.

Lemma raises_only_modify {S} (f : S -> S) P : raises_only (modify f) P.
Proof. intros s e s' [=]. Qed.

Lemma raises_only_bind {S A B} (c : M S A) (k : A -> M S B) P :
  raises_only c P -> (forall a, raises_only (k a) P) ->
  raises_only (bind c k) P.
Proof.
  intros Hc Hk s e s' E. unfold bind in E.
  destruct (c s) as [[a|e0] s1] eqn:Ec.
  - exact (Hk a s1 e s' E).
  - injection E as <- _. exact (Hc s e0 s1 Ec).
Qed.

Lemma raises_only_try_catch {S A} (body : M S A) handler (Q P : Exn -> Prop) :
  raises_only body Q -> (forall e, Q e -> raises_only (handler e) P) ->
  raises_only (try_catch body handler) P.
Proof.
  intros Hb Hh s e s' E. unfold try_catch in E.
  destruct (body s) as [[a|e0] s1] eqn:Eb; [discriminate|].
  exact (Hh e0 (Hb s e0 s1 Eb) s1 e s' E).
Qed.

Lemma raises_only_for_each {S X} (xs : list X) (body : X -> M S unit) P :
  (forall x, raises_only (body x) P) -> raises_only (for_each xs body) P.
Proof.
  intro Hb. induction xs as [|x xs IH]; simpl.
  - apply raises_only_ret.
  - apply raises_only_bind; [apply Hb|intros _; exact IH].
Qed.

Lemma raises_only_weaken {S A} (c : M S A) (P Q : Exn -> Prop) :
  raises_only c P -> (forall e, P e -> Q e) -> raises_only c Q.
Proof. intros H HPQ s e s' E. apply HPQ. exact (H s e s' E). Qed.

End MonadFacts.
Import MonadFacts.

(** ** The transition model *)

Module TransitionModelFacts.

Import TransitionModel.
Local Open Scope Q_scope.

(** *** Rationals *)

Lemma Qltb_lt a b : Qltb a b = true <-> a < b.
Proof.
  unfold Qltb. rewrite negb_true_iff.
  destruct (Qle_bool b a) eqn:E.
  - apply Qle_bool_iff in E. split; [discriminate|]. intro H.
    exfalso. apply (Qlt_not_le _ _ H E).
  - split; [intros _|reflexivity].
    apply Qnot_le_lt. intro H. apply Qle_bool_iff in H. congruence.
Qed.

Lemma Qltb_nlt a b : Qltb a b = false <-> b <= a.
Proof.
  unfold Qltb. rewrite negb_false_iff. apply Qle_bool_iff.
Qed.

Lemma py_max_ge_l a b : a <= py_max a b.
Proof.
  unfold py_max. destruct (Qltb a b) eqn:E.
  - apply Qltb_lt in E. lra.
  - lra.
Qed.

Lemma py_max_ge_r a b : b <= py_max a b.
Proof.
  unfold py_max. destruct (Qltb a b) eqn:E.
  - lra.
  - apply Qltb_nlt in E. lra.
Qed.

Lemma py_max_cases a b : py_max a b == a \/ py_max a b == b.
Proof. unfold py_max. destruct (Qltb a b); [right|left]; reflexivity. Qed.

Lemma py_max_comm a b : py_max a b == py_max b a.
Proof.
  unfold py_max. destruct (Qltb a b) eqn:E1, (Qltb b a) eqn:E2;
    try apply Qltb_lt in E1; try apply Qltb_lt in E2;
    try apply Qltb_nlt in E1; try apply Qltb_nlt in E2; lra.
Qed.

Lemma Qltb_compat a a' b b' : a == a' -> b == b' -> Qltb a b = Qltb a' b'.
Proof.
  intros Ha Hb. destruct (Qltb a' b') eqn:E.
  - apply Qltb_lt in E. apply Qltb_lt. lra.
  - apply Qltb_nlt in E. apply Qltb_nlt. lra.
Qed.

Lemma py_div_pos a b : 0 < b -> py_div a b = Ok (a / b).
Proof.
  intro H. unfold py_div. destruct (Qeq_bool b 0) eqn:E; [|reflexivity].
  apply Qeq_bool_eq in E. lra.
Qed.

(** One similarity term. *)
Definition similarity_term (v1 v2 : Q) : Q :=
  1 - Qabs (v1 - v2) / py_max v1 v2.

Definition numeric_terms (fs : list (Song -> Q)) (s1 s2 : Song) : list Q :=
  flat_map (fun f => if Qltb 0 (py_max (f s1) (f s2))
                     then [similarity_term (f s1) (f s2)] else []) fs.

Lemma numeric_similarities_terms fs s1 s2 : forall acc,
  numeric_similarities fs s1 s2 acc = Ok (acc ++ numeric_terms fs s1 s2).
Proof.
  induction fs as [|f fs IH]; intro acc; simpl.
  - now rewrite app_nil_r.
  - destruct (Qltb 0 (py_max (f s1) (f s2))) eqn:E.
    + rewrite py_div_pos by now apply Qltb_lt.
      simpl. rewrite IH. now rewrite <- app_assoc.
    + apply IH.
Qed.

Lemma similarity_term_le_1 v1 v2 :
  0 < py_max v1 v2 -> similarity_term v1 v2 <= 1.
Proof.
  intro H. unfold similarity_term.
  assert (0 <= Qabs (v1 - v2) / py_max v1 v2).
  { apply Qle_shift_div_l; [exact H|]. pose proof (Qabs_nonneg (v1 - v2)). lra. }
  lra.
Qed.

Lemma similarity_term_ge_0 v1 v2 :
  0 <= v1 -> 0 <= v2 -> 0 < py_max v1 v2 -> 0 <= similarity_term v1 v2.
Proof.
  intros H1 H2 H. unfold similarity_term.
  assert (Qabs (v1 - v2) / py_max v1 v2 <= 1).
  { apply Qle_shift_div_r; [exact H|].
    pose proof (py_max_ge_l v1 v2). pose proof (py_max_ge_r v1 v2).
    apply Qabs_case; intro; lra. }
  lra.
Qed.

Lemma similarity_term_sym v1 v2 :
  similarity_term v1 v2 == similarity_term v2 v1.
Proof.
  unfold similarity_term.
  assert (E : Qabs (v1 - v2) == Qabs (v2 - v1)).
  { setoid_replace (v2 - v1) with (- (v1 - v2)) by ring. now rewrite Qabs_opp. }
  rewrite E, (py_max_comm v1 v2). reflexivity.
Qed.

Definition mean (l : list Q) : Q := Qsum l / inject_Z (Z.of_nat (List.length l)).

Lemma np_mean_nonempty l : l <> [] -> np_mean l = Ok (mean l).
Proof. destruct l; [congruence|reflexivity]. Qed.

Lemma Qsum_le_length l :
  Forall (fun t => t <= 1) l -> Qsum l <= inject_Z (Z.of_nat (List.length l)).
Proof.
  induction 1 as [|t l Ht _ IH]; simpl List.length.
  - apply Qle_refl.
  - rewrite Nat2Z.inj_succ, <- Z.add_1_r, inject_Z_plus.
    change (Qsum (t :: l)) with (t + Qsum l). change (inject_Z 1) with 1. lra.
Qed.

Lemma Qsum_nonneg l : Forall (fun t => 0 <= t) l -> 0 <= Qsum l.
Proof.
  induction 1 as [|t l Ht _ IH].
  - simpl. lra.
  - change (Qsum (t :: l)) with (t + Qsum l). lra.
Qed.

Lemma Qsum_compat l l' : Forall2 Qeq l l' -> Qsum l == Qsum l'.
Proof.
  induction 1 as [|t t' l l' Ht _ IH].
  - reflexivity.
  - change (t + Qsum l == t' + Qsum l'). lra.
Qed.

Lemma length_pos_Q {A} (l : list A) :
  l <> [] -> 0 < inject_Z (Z.of_nat (List.length l)).
Proof.
  intro H. destruct l as [|x l]; [congruence|].
  change 0 with (inject_Z 0). rewrite <- Zlt_Qlt. simpl List.length. lia.
Qed.

Lemma mean_le_1 l : l <> [] -> Forall (fun t => t <= 1) l -> mean l <= 1.
Proof.
  intros Hne H. unfold mean. apply Qle_shift_div_r.
  - now apply length_pos_Q.
  - apply Qsum_le_length in H. lra.
Qed.

Lemma mean_ge_0 l : l <> [] -> Forall (fun t => 0 <= t) l -> 0 <= mean l.
Proof.
  intros Hne H. unfold mean. apply Qle_shift_div_l.
  - now apply length_pos_Q.
  - apply Qsum_nonneg in H. lra.
Qed.

Lemma mean_compat l l' : Forall2 Qeq l l' -> mean l == mean l'.
Proof.
  intro H. unfold mean.
  rewrite (Qsum_compat _ _ H), (Forall2_length H). reflexivity.
Qed.

Lemma numeric_terms_le_1 fs s1 s2 :
  Forall (fun t => t <= 1) (numeric_terms fs s1 s2).
Proof.
  induction fs as [|f fs IH]; simpl; [constructor|].
  destruct (Qltb 0 (py_max (f s1) (f s2))) eqn:E; [|exact IH].
  constructor; [|exact IH]. apply similarity_term_le_1. now apply Qltb_lt.
Qed.

Lemma numeric_terms_ge_0 fs s1 s2 :
  Forall (fun f => 0 <= f s1) fs -> Forall (fun f => 0 <= f s2) fs ->
  Forall (fun t => 0 <= t) (numeric_terms fs s1 s2).
Proof.
  induction fs as [|f fs IH]; simpl; intros H1 H2; [constructor|].
  inversion H1; inversion H2; subst.
  destruct (Qltb 0 (py_max (f s1) (f s2))) eqn:E; [|now apply IH].
  constructor; [|now apply IH].
  apply similarity_term_ge_0; try assumption. now apply Qltb_lt.
Qed.

Lemma numeric_terms_length fs s1 s2 :
  (List.length (numeric_terms fs s1 s2) <= List.length fs)%nat.
Proof.
  induction fs as [|f fs IH]; simpl; [lia|].
  destruct (Qltb 0 (py_max (f s1) (f s2))); simpl; lia.
Qed.

Lemma numeric_terms_sym fs s1 s2 :
  Forall2 Qeq (numeric_terms fs s1 s2) (numeric_terms fs s2 s1).
Proof.
  induction fs as [|f fs IH]; simpl; [constructor|].
  rewrite (Qltb_compat 0 0 (py_max (f s2) (f s1)) (py_max (f s1) (f s2)))
    by (reflexivity || apply py_max_comm).
  destruct (Qltb 0 (py_max (f s1) (f s2))); [|exact IH].
  constructor; [apply similarity_term_sym|exact IH].
Qed.

Definition explicit_term (s1 s2 : Song) : Q :=
  if Bool.eqb (explicit s1) (explicit s2) then 1 else 0.

Definition album_type_term (s1 s2 : Song) : Q :=
  if String.eqb (album_type s1) (album_type s2) then 1 else 0.

Lemma similarity_terms_eq s1 s2 :
  similarity_terms s1 s2 =
  Ok (numeric_terms features s1 s2 ++ [explicit_term s1 s2; album_type_term s1 s2]).
Proof.
  unfold similarity_terms. rewrite numeric_similarities_terms. simpl.
  now rewrite <- app_assoc.
Qed.

Definition all_terms s1 s2 :=
  numeric_terms features s1 s2 ++ [explicit_term s1 s2; album_type_term s1 s2].

Lemma all_terms_nonempty s1 s2 : all_terms s1 s2 <> [].
Proof. unfold all_terms. destruct (numeric_terms features s1 s2); discriminate. Qed.

Lemma feature_similarity_eq s1 s2 :
  _calculate_feature_similarity s1 s2 = Ok (mean (all_terms s1 s2)).
Proof.
  unfold _calculate_feature_similarity. rewrite similarity_terms_eq. simpl.
  apply np_mean_nonempty, all_terms_nonempty.
Qed.

Lemma binary_terms_range s1 s2 :
  Forall (fun t => 0 <= t /\ t <= 1) [explicit_term s1 s2; album_type_term s1 s2].
Proof.
  unfold explicit_term, album_type_term.
  repeat constructor;
    try destruct (Bool.eqb _ _); try destruct (String.eqb _ _); lra.
Qed.

Lemma all_terms_le_1 s1 s2 : Forall (fun t => t <= 1) (all_terms s1 s2).
Proof.
  apply Forall_app. split; [apply numeric_terms_le_1|].
  eapply Forall_impl; [|apply binary_terms_range]. simpl. tauto.
Qed.

Definition nonneg_features (s : Song) : Prop :=
  Forall (fun f => 0 <= f s) features.

Lemma all_terms_ge_0 s1 s2 :
  nonneg_features s1 -> nonneg_features s2 ->
  Forall (fun t => 0 <= t) (all_terms s1 s2).
Proof.
  intros H1 H2. apply Forall_app. split; [now apply numeric_terms_ge_0|].
  eapply Forall_impl; [|apply binary_terms_range]. simpl. tauto.
Qed.

Lemma all_terms_sym s1 s2 : Forall2 Qeq (all_terms s1 s2) (all_terms s2 s1).
Proof.
  apply Forall2_app; [apply numeric_terms_sym|].
  unfold explicit_term, album_type_term.
  rewrite (String.eqb_sym (album_type s2)).
  replace (Bool.eqb (explicit s2) (explicit s1))
    with (Bool.eqb (explicit s1) (explicit s2))
    by (destruct (explicit s1), (explicit s2); reflexivity).
  repeat constructor; reflexivity.
Qed.

(** C9.  The feature similarity is symmetric: both orders of a pair of
    songs give a number, and the two numbers are equal.  A transition weight
    is the mood affinity of the ordered pair times that number, so the
    weights of a pair and of its reverse differ only as far as the two
    affinities do. *)
Theorem feature_similarity_symmetric (song1 song2 : Song) :
  exists q12 q21,
    _calculate_feature_similarity song1 song2 = Ok q12 /\
    _calculate_feature_similarity song2 song1 = Ok q21 /\
    q12 == q21 /\
    _calculate_transition_weight song1 song2
      = Ok (base_weight (mood song1) (mood song2) * q12) /\
    _calculate_transition_weight song2 song1
      = Ok (base_weight (mood song2) (mood song1) * q21) /\
    (base_weight (mood song1) (mood song2)
       == base_weight (mood song2) (mood song1) ->
     base_weight (mood song1) (mood song2) * q12
       == base_weight (mood song2) (mood song1) * q21).
Proof.
  exists (mean (all_terms song1 song2)), (mean (all_terms song2 song1)).
  pose proof (mean_compat _ _ (all_terms_sym song1 song2)) as E.
  repeat split.
  - apply feature_similarity_eq.
  - apply feature_similarity_eq.
  - exact E.
  - unfold _calculate_transition_weight. now rewrite feature_similarity_eq.
  - unfold _calculate_transition_weight. now rewrite feature_similarity_eq.
  - intro Hb. rewrite Hb, E. reflexivity.
Qed.

(** C10.  [_calculate_feature_similarity] is total: on every pair of
    songs it returns a number.  No division is by zero, because a term
    [1 - |v1 - v2| / max(v1, v2)] is computed only for a feature whose
    maximum is strictly positive ([numeric_terms]); the list handed to
    [np.mean] always ends with the two terms for the explicit flag and the
    album type, so it has between two and six elements; the result is at
    most 1, and at least 0 when the four numeric features of both songs are
    non-negative. *)
Theorem feature_similarity_total (song1 song2 : Song) :
  similarity_terms song1 song2
  = Ok (numeric_terms features song1 song2
          ++ [explicit_term song1 song2; album_type_term song1 song2]) /\
  (2 <= List.length (all_terms song1 song2) <= 6)%nat /\
  _calculate_feature_similarity song1 song2
  = Ok (mean (all_terms song1 song2)) /\
  mean (all_terms song1 song2) <= 1 /\
  (nonneg_features song1 -> nonneg_features song2 ->
   0 <= mean (all_terms song1 song2)).
Proof.
  split; [apply similarity_terms_eq|].
  split.
  { unfold all_terms. rewrite length_app. simpl.
    pose proof (numeric_terms_length features song1 song2) as L. simpl in L. lia. }
  split; [apply feature_similarity_eq|].
  split.
  - apply mean_le_1; [apply all_terms_nonempty|apply all_terms_le_1].
  - intros H1 H2. apply mean_ge_0; [apply all_terms_nonempty|now apply all_terms_ge_0].
Qed.

(** *** Training *)

Lemma preserves_node_songs (P : Model -> Prop) n : preserves P (node_songs n).
Proof.
  unfold node_songs. apply preserves_bind; [apply preserves_get|].
  intro self. destruct (lookup_node _ _); [apply preserves_ret|apply preserves_raise].
Qed.

(** What [add_transition] leaves alone, and what it may add. *)
Lemma add_transition_preserves (P : Model -> Prop) node1 node2 :
  (forall self w s1 s2,
      _calculate_transition_weight s1 s2 = Ok w -> Qltb 0 w = true ->
      P self -> P (mkModel (add_edge node1 node2 w (graph self)) (rng_draws self))) ->
  preserves P (add_transition node1 node2).
Proof.
  intro Hadd. unfold add_transition.
  apply preserves_bind; [apply preserves_lift|intros _].
  apply preserves_bind; [apply preserves_node_songs|intros songs1].
  apply preserves_bind; [apply preserves_lift|intros s1].
  apply preserves_bind; [apply preserves_node_songs|intros songs2].
  apply preserves_bind; [apply preserves_lift|intros s2].
  apply preserves_bind_lift. intros w Hw.
  destruct (Qltb 0 w) eqn:E; [|apply preserves_ret].
  intros self H. simpl. now apply (Hadd self w s1 s2).
Qed.

Definition group_node (group : (string * nat) * list Song) : string * NodeData :=
  (node_id (fst (fst group)) (snd (fst group)),
   mkNode (fst (fst group)) (snd (fst group)) (snd group)).

Definition add_group_nodes (groups : list ((string * nat) * list Song))
           (l : list (string * NodeData)) : list (string * NodeData) :=
  fold_left (fun l group => set_node l (fst (group_node group)) (snd (group_node group)))
            groups l.

Lemma for_each_add_group_node groups : forall self,
  for_each groups add_group_node self =
  (Ok tt, mkModel (mkGraph (add_group_nodes groups (nodes (graph self)))
                           (edges (graph self)))
                  (rng_draws self)).
Proof.
  induction groups as [|[[m c] ss] groups IH]; intros [[ns es] r].
  - reflexivity.
  - simpl. unfold bind. simpl. rewrite IH. reflexivity.
Qed.

(** The second half of [_build_transition_graph]. *)
Definition add_transitions : M Model unit :=
  (self <- get ;;
   let graph_nodes := node_ids (graph self) in
   for_each graph_nodes (fun node1 =>
     _ <- lift (split_pair node1) ;;
     for_each graph_nodes (fun node2 => add_transition node1 node2)))%monad.

Definition with_group_nodes (dataset : list Song) (self : Model) : Model :=
  mkModel (mkGraph (add_group_nodes (groupby dataset) (nodes (graph self)))
                   (edges (graph self)))
          (rng_draws self).

Lemma build_transition_graph_eq dataset self :
  _build_transition_graph dataset self =
  add_transitions (with_group_nodes dataset self).
Proof.
  unfold _build_transition_graph, bind at 1.
  now rewrite for_each_add_group_node.
Qed.

Lemma add_transitions_preserves (P : Model -> Prop) :
  (forall node1 node2 self w s1 s2,
      _calculate_transition_weight s1 s2 = Ok w -> Qltb 0 w = true ->
      P self -> P (mkModel (add_edge node1 node2 w (graph self)) (rng_draws self))) ->
  preserves P add_transitions.
Proof.
  intro Hadd. unfold add_transitions.
  apply preserves_bind; [apply preserves_get|intros self].
  apply preserves_for_each. intro node1.
  apply preserves_bind; [apply preserves_lift|intros _].
  apply preserves_for_each. intro node2.
  apply add_transition_preserves. apply Hadd.
Qed.

Lemma build_nodes dataset self :
  nodes (graph (snd (_build_transition_graph dataset self))) =
  add_group_nodes (groupby dataset) (nodes (graph self)).
Proof.
  rewrite build_transition_graph_eq.
  apply (add_transitions_preserves
           (fun s => nodes (graph s) =
                     add_group_nodes (groupby dataset) (nodes (graph self)))).
  - intros. assumption.
  - reflexivity.
Qed.

Lemma train_cases {Scaled} (sc : list (list Q) -> Result Scaled) km dataset self :
  (exists e, train sc km dataset self = (Raise e, self)) \/
  (exists x labels dataset',
      sc (feature_matrix dataset) = Ok x /\ km x = Ok labels /\
      set_cluster_column dataset labels = Ok dataset' /\
      train sc km dataset self = _build_transition_graph dataset' self).
Proof.
  unfold train, bind, lift.
  destruct (sc (feature_matrix dataset)) as [x|e] eqn:Ex; [|left; eauto].
  destruct (km x) as [labels|e] eqn:El; [|left; eauto].
  destruct (set_cluster_column dataset labels) as [dataset'|e] eqn:E; [|left; eauto].
  right. exists x, labels, dataset'. repeat split; auto.
Qed.

Definition weight_ok (w : Q) : Prop := 0 < w /\ w <= 8 # 10.

Definition edges_ok (g : Graph) : Prop :=
  Forall (fun e => weight_ok (snd e)) (edges g).

Lemma set_edge_ok l e w :
  weight_ok w -> Forall (fun e => weight_ok (snd e)) l ->
  Forall (fun e => weight_ok (snd e)) (set_edge l e w).
Proof.
  intros Hw. induction 1 as [|[k w0] l H0 Hl IH]; simpl.
  - constructor; [exact Hw|constructor].
  - destruct (edge_eqb k e); constructor; auto.
Qed.

Lemma dict_get_range d key default :
  Forall (fun kv => weight_ok (snd kv)) d -> weight_ok default ->
  weight_ok (dict_get d key default).
Proof.
  intros Hd Hdef. induction Hd as [|[[k1 k2] v] d Hv _ IH]; simpl.
  - exact Hdef.
  - destruct (_ && _)%bool; [exact Hv|exact IH].
Qed.

Lemma base_weight_range mood1 mood2 : weight_ok (base_weight mood1 mood2).
Proof.
  apply dict_get_range.
  - unfold mood_weights. repeat (constructor; [unfold weight_ok; simpl; lra|]). constructor.
  - unfold weight_ok. lra.
Qed.

Lemma transition_weight_range s1 s2 w :
  _calculate_transition_weight s1 s2 = Ok w -> 0 < w -> weight_ok w.
Proof.
  unfold _calculate_transition_weight. rewrite feature_similarity_eq.
  cbn [bindR]. fold (base_weight (mood s1) (mood s2)).
  intros E Hpos. injection E as <-.
  destruct (base_weight_range (mood s1) (mood s2)) as [Hb0 Hb1].
  pose proof (mean_le_1 _ (all_terms_nonempty s1 s2) (all_terms_le_1 s1 s2)) as Hq.
  split; [exact Hpos|].
  set (b := base_weight (mood s1) (mood s2)) in *.
  set (q := mean (all_terms s1 s2)) in *.
  assert (0 <= b * (1 - q)) by (apply Qmult_le_0_compat; lra).
  lra.
Qed.

(** C1.  Training keeps every edge weight strictly positive and at most
    0.8: if the edges of the graph are so before [train] (as they are in a
    new model, which has none), they are so afterwards, whether [train]
    returns or raises.  No edge of weight 0 or less is added. *)
Theorem edge_weights_in_range {Scaled}
        (sc : list (list Q) -> Result Scaled) km dataset self :
  edges_ok (graph self) ->
  edges_ok (graph (snd (train sc km dataset self))).
Proof.
  intro H.
  destruct (train_cases sc km dataset self) as [[e ->]|(x & labels & ds & _ & _ & _ & ->)].
  - exact H.
  - rewrite build_transition_graph_eq.
    apply (add_transitions_preserves (fun s => edges_ok (graph s))).
    + intros node1 node2 s w s1 s2 Hw Hpos Hs. unfold edges_ok. simpl.
      apply set_edge_ok; [|exact Hs].
      apply (transition_weight_range s1 s2); [exact Hw|now apply Qltb_lt].
    + exact H.
Qed.

Section Grouping.

Local Open Scope nat_scope.

(** Strings *)
Lemma string_length_append (s t : string) :
  String.length (s ++ t) = String.length s + String.length t.
Proof. induction s as [|c s IH]; simpl; [reflexivity|now rewrite IH]. Qed.

Lemma string_append_inj (s1 s2 t1 t2 : string) :
  String.length t1 = String.length t2 ->
  (s1 ++ t1 = s2 ++ t2)%string -> s1 = s2 /\ t1 = t2.
Proof.
  revert s2. induction s1 as [|c s1 IH]; intros [|c2 s2] L E; simpl in E.
  - auto.
  - exfalso. apply (f_equal String.length) in E. simpl in E.
    rewrite string_length_append in E. lia.
  - exfalso. apply (f_equal String.length) in E. simpl in E.
    rewrite string_length_append in E. lia.
  - injection E as -> E. destruct (IH s2 L E) as [-> ->]. auto.
Qed.

Lemma str_of_nat_digit c :
  c < 5 -> exists d, str_of_nat c = String d EmptyString.
Proof.
  intro H. do 5 (destruct c as [|c]; [eexists; reflexivity|]). lia.
Qed.

Lemma str_of_nat_inj c1 c2 :
  c1 < 5 -> c2 < 5 -> str_of_nat c1 = str_of_nat c2 -> c1 = c2.
Proof.
  intros H1 H2 E.
  do 5 (destruct c1 as [|c1];
        [do 5 (destruct c2 as [|c2]; [reflexivity || discriminate E|]); lia|]).
  lia.
Qed.

Lemma node_id_inj m1 c1 m2 c2 :
  c1 < 5 -> c2 < 5 -> node_id m1 c1 = node_id m2 c2 -> m1 = m2 /\ c1 = c2.
Proof.
  intros H1 H2 E. unfold node_id in E.
  destruct (str_of_nat_digit c1 H1) as (d1 & E1).
  destruct (str_of_nat_digit c2 H2) as (d2 & E2).
  apply string_append_inj in E; [|now rewrite E1, E2].
  destruct E as [-> E]. split; [reflexivity|].
  apply str_of_nat_inj; try assumption. now injection E.
Qed.

(** Group keys *)
Lemma insert_key_perm k l : Permutation (insert_key k l) (k :: l).
Proof.
  induction l as [|h t IH]; simpl; [reflexivity|].
  destruct (key_leb k h); [reflexivity|].
  rewrite IH. apply perm_swap.
Qed.

Lemma sort_keys_perm l : Permutation (sort_keys l) l.
Proof.
  induction l as [|k l IH]; simpl; [reflexivity|].
  rewrite insert_key_perm. now constructor.
Qed.

Lemma group_keys_NoDup rows : NoDup (group_keys rows).
Proof.
  unfold group_keys.
  eapply Permutation_NoDup; [symmetry; apply sort_keys_perm|apply NoDup_nodup].
Qed.

Lemma group_keys_In rows k :
  In k (group_keys rows) <-> exists r, In r rows /\ key_of r = k.
Proof.
  unfold group_keys. split.
  - intro H. apply (Permutation_in _ (sort_keys_perm _)) in H.
    apply nodup_In, in_map_iff in H. destruct H as (r & E & Hr). eauto.
  - intros (r & Hr & E).
    apply (Permutation_in _ (Permutation_sym (sort_keys_perm _))).
    apply nodup_In, in_map_iff. eauto.
Qed.

Lemma key_eqb_eq k1 k2 : key_eqb k1 k2 = true <-> k1 = k2.
Proof.
  destruct k1 as [m1 c1], k2 as [m2 c2]. unfold key_eqb. simpl.
  rewrite andb_true_iff, String.eqb_eq, Nat.eqb_eq.
  split; [intros [-> ->]; reflexivity|intros [= -> ->]; auto].
Qed.

(** The cluster column *)
Lemma set_cluster_column_spec dataset : forall labels dataset',
  set_cluster_column dataset labels = Ok dataset' ->
  List.length labels = List.length dataset /\
  dataset' = map (fun p => with_cluster (fst p) (snd p)) (combine dataset labels).
Proof.
  induction dataset as [|s dataset IH]; intros [|c labels] ds' E; simpl in E;
    try discriminate.
  - injection E as <-. auto.
  - destruct (set_cluster_column dataset labels) as [rest|e] eqn:Er;
      simpl in E; [|discriminate].
    injection E as <-. destruct (IH _ _ Er) as [L ->]. simpl. auto.
Qed.

Lemma combine_clusters dataset : forall labels,
  Forall (fun c => c < 5) labels ->
  Forall (fun s => cluster s < 5)
         (map (fun p => with_cluster (fst p) (snd p)) (combine dataset labels)).
Proof.
  induction dataset as [|s dataset IH]; intros [|c labels] H; simpl;
    try constructor.
  - now inversion H.
  - apply IH. now inversion H.
Qed.

Lemma combine_moods dataset : forall labels,
  List.length labels = List.length dataset ->
  map mood (map (fun p => with_cluster (fst p) (snd p)) (combine dataset labels))
  = map mood dataset.
Proof.
  induction dataset as [|s dataset IH]; intros [|c labels] L; simpl in *;
    try discriminate; [reflexivity|].
  f_equal. apply IH. lia.
Qed.

Lemma set_node_fresh l n d :
  ~ In n (map fst l) -> set_node l n d = l ++ [(n, d)].
Proof.
  induction l as [|[k d0] l IH]; simpl; intro H; [reflexivity|].
  destruct (String.eqb_spec k n) as [->|_]; [tauto|].
  f_equal. apply IH. tauto.
Qed.

Lemma add_group_nodes_fresh groups : forall l,
  NoDup (map fst l ++ map (fun g => fst (group_node g)) groups) ->
  add_group_nodes groups l = l ++ map group_node groups.
Proof.
  induction groups as [|g groups IH]; intros l H; simpl.
  - now rewrite app_nil_r.
  - unfold add_group_nodes in *. simpl.
    rewrite set_node_fresh.
    + rewrite IH.
      * now rewrite <- app_assoc.
      * rewrite map_app, <- app_assoc. exact H.
    + apply NoDup_remove_2 in H. intro Hin. apply H, in_or_app. auto.
Qed.

Definition group_of (rows : list Song) (k : string * nat) : list Song :=
  filter (fun r => key_eqb (key_of r) k) rows.

Lemma groupby_eq rows :
  groupby rows = map (fun k => (k, group_of rows k)) (group_keys rows).
Proof. reflexivity. Qed.

Section Trained.

Variable rows : list Song.
Hypothesis rows_clusters : Forall (fun s => cluster s < 5) rows.

Lemma group_keys_cluster k : In k (group_keys rows) -> snd k < 5.
Proof.
  intro H. apply group_keys_In in H. destruct H as (r & Hr & <-).
  rewrite Forall_forall in rows_clusters. now apply rows_clusters.
Qed.

Lemma group_ids_NoDup :
  NoDup (map (fun g => fst (group_node g)) (groupby rows)).
Proof.
  rewrite groupby_eq, map_map. simpl.
  apply Finite.Injective_map_NoDup_in; [|apply group_keys_NoDup].
  intros [m1 c1] [m2 c2] H1 H2 E. simpl in E.
  apply group_keys_cluster in H1, H2. simpl in *.
  destruct (node_id_inj _ _ _ _ H1 H2 E) as [-> ->]. reflexivity.
Qed.

Lemma fresh_nodes :
  add_group_nodes (groupby rows) [] = map group_node (groupby rows).
Proof. apply add_group_nodes_fresh. simpl. apply group_ids_NoDup. Qed.

Lemma group_count :
  List.length (groupby rows)
  <= 5 * List.length (nodup string_dec (map mood rows)).
Proof.
  rewrite groupby_eq, length_map, Nat.mul_comm.
  change 5 with (List.length (seq 0 5)).
  rewrite <- length_prod.
  apply NoDup_incl_length; [apply group_keys_NoDup|].
  intros [m c] H. apply in_prod_iff. split.
  - apply group_keys_In in H. destruct H as (r & Hr & E).
    apply nodup_In, in_map_iff. exists r. split; [|exact Hr].
    now inversion E.
  - apply group_keys_cluster in H. simpl in H. apply in_seq. lia.
Qed.

Lemma group_of_spec k s :
  In s (group_of rows k) <-> In s rows /\ key_of s = k.
Proof. unfold group_of. now rewrite filter_In, key_eqb_eq. Qed.

Lemma group_of_nonempty k : In k (group_keys rows) -> group_of rows k <> [].
Proof.
  intro H. apply group_keys_In in H. destruct H as (r & Hr & E).
  assert (Hin : In r (group_of rows k)) by now apply group_of_spec.
  intro Hnil. now rewrite Hnil in Hin.
Qed.

End Trained.

(** Each row lies in the group of its key and in no other. *)
Lemma group_of_cons_other r rows k :
  key_of r <> k -> group_of (r :: rows) k = group_of rows k.
Proof.
  intro H. unfold group_of. simpl.
  destruct (key_eqb (key_of r) k) eqn:E; [|reflexivity].
  apply key_eqb_eq in E. contradiction.
Qed.

Lemma group_of_cons_same r rows :
  group_of (r :: rows) (key_of r) = r :: group_of rows (key_of r).
Proof.
  unfold group_of. simpl.
  destruct (key_eqb (key_of r) (key_of r)) eqn:E; [reflexivity|].
  assert (key_eqb (key_of r) (key_of r) = true) by now apply key_eqb_eq.
  congruence.
Qed.

Lemma groups_cons_absent r rows keys :
  ~ In (key_of r) keys ->
  map (group_of (r :: rows)) keys = map (group_of rows) keys.
Proof.
  intro H. apply map_ext_in. intros k Hk. apply group_of_cons_other.
  intro E. apply H. now rewrite E.
Qed.

Lemma groups_cons_present r rows keys :
  NoDup keys -> In (key_of r) keys ->
  Permutation (List.concat (map (group_of (r :: rows)) keys))
              (r :: List.concat (map (group_of rows) keys)).
Proof.
  induction 1 as [|k keys Hk Hnd IH]; intros Hin; [contradiction|].
  cbn [map List.concat]. destruct (key_eq_dec (key_of r) k) as [E|E].
  - subst k. rewrite group_of_cons_same, groups_cons_absent by exact Hk.
    reflexivity.
  - rewrite group_of_cons_other by exact E.
    destruct Hin as [Hin|Hin]; [congruence|].
    rewrite (IH Hin). apply Permutation_sym, Permutation_middle.
Qed.

Lemma groups_partition rows : forall keys,
  NoDup keys -> (forall r, In r rows -> In (key_of r) keys) ->
  Permutation (List.concat (map (group_of rows) keys)) rows.
Proof.
  induction rows as [|r rows IH]; intros keys Hnd Hall.
  - induction keys as [|k keys IHk]; simpl; [reflexivity|].
    apply IHk; [now inversion Hnd|intros r []].
  - rewrite groups_cons_present; [|exact Hnd|apply Hall; now left].
    constructor. apply IH; [exact Hnd|]. intros r' Hr'. apply Hall. now right.
Qed.

Lemma groupby_partition rows :
  Permutation (List.concat (map snd (groupby rows))) rows.
Proof.
  rewrite groupby_eq, map_map. simpl.
  apply groups_partition; [apply group_keys_NoDup|].
  intros r Hr. apply group_keys_In. eauto.
Qed.

(** Every song the graph holds, node after node. *)
Definition all_songs (g : Graph) : list Song :=
  List.concat (map (fun nd => songs (snd nd)) (nodes g)).

(** A node stands for one non-empty (mood, cluster) group. *)
Definition node_ok (nd : string * NodeData) : Prop :=
  fst nd = node_id (node_mood (snd nd)) (node_cluster (snd nd)) /\
  node_cluster (snd nd) < 5 /\
  songs (snd nd) <> [] /\
  Forall (fun s => mood s = node_mood (snd nd) /\
                   cluster s = node_cluster (snd nd)) (songs (snd nd)).

Definition tag_clusters (dataset : list Song) (labels : list nat) : list Song :=
  map (fun p => with_cluster (fst p) (snd p)) (combine dataset labels).

Lemma trained_nodes_ok rows :
  Forall (fun s => cluster s < 5) rows ->
  Forall node_ok (map group_node (groupby rows)).
Proof.
  intro Hc. rewrite groupby_eq, map_map. apply Forall_forall.
  intros nd Hnd. apply in_map_iff in Hnd. destruct Hnd as ([m c] & <- & Hk).
  unfold node_ok, group_node. simpl. repeat split.
  - apply (group_keys_cluster rows Hc _ Hk).
  - now apply group_of_nonempty.
  - apply Forall_forall. intros s Hs. apply group_of_spec in Hs.
    destruct Hs as [_ E]. now inversion E.
Qed.

(** The nodes of a newly trained model: one per group of the labelled
    rows. *)
Lemma trained_graph {Scaled} (sc : list (list Q) -> Result Scaled)
      km dataset self' :
  five_clusters km ->
  train sc km dataset __init__ = (Ok tt, self') ->
  exists labels,
    List.length labels = List.length dataset /\
    Forall (fun c => c < 5) labels /\
    nodes (graph self')
    = map group_node (groupby (tag_clusters dataset labels)).
Proof.
  intros Hkm Htrain.
  destruct (train_cases sc km dataset __init__)
    as [[e E]|(x & labels & rows & _ & Hl & Hrows & E)]; [congruence|].
  apply set_cluster_column_spec in Hrows. destruct Hrows as [Hlen ->].
  exists labels. split; [exact Hlen|]. split; [eapply Hkm, Hl|].
  replace self' with
    (snd (_build_transition_graph (tag_clusters dataset labels) __init__))
    by (unfold tag_clusters; rewrite <- E, Htrain; reflexivity).
  rewrite build_nodes. apply fresh_nodes.
  apply combine_clusters. eapply Hkm, Hl.
Qed.

(** C2, amended.  When [train] succeeds on a new model, with a clustering
    that labels rows 0..4, the graph has at most five nodes per distinct mood;
    the nodes have distinct identifiers, and each stands for one non-empty
    (mood, cluster) group whose cluster is below 5; and the songs of all
    nodes together are the rows of the dataset with their labels, each row
    once. *)
Theorem training_nodes {Scaled} (sc : list (list Q) -> Result Scaled)
        km dataset self' :
  five_clusters km ->
  train sc km dataset __init__ = (Ok tt, self') ->
  List.length (nodes (graph self'))
    <= 5 * List.length (nodup string_dec (map mood dataset)) /\
  NoDup (node_ids (graph self')) /\
  Forall node_ok (nodes (graph self')) /\
  exists labels,
    List.length labels = List.length dataset /\
    Forall (fun c => c < 5) labels /\
    Permutation (all_songs (graph self')) (tag_clusters dataset labels).
Proof.
  intros Hkm Htrain.
  destruct (trained_graph sc km dataset self' Hkm Htrain)
    as (labels & Hlen & Hlabels & Hn).
  set (rows := tag_clusters dataset labels) in *.
  assert (Hc : Forall (fun s => cluster s < 5) rows)
    by now apply combine_clusters.
  unfold node_ids, all_songs. rewrite Hn. repeat split.
  - rewrite length_map.
    replace (map mood dataset) with (map mood rows)
      by now apply combine_moods.
    now apply group_count.
  - rewrite map_map. now apply group_ids_NoDup.
  - now apply trained_nodes_ok.
  - exists labels. repeat split; [exact Hlen|exact Hlabels|].
    rewrite map_map. apply groupby_partition.
Qed.

End Grouping.

(** *** Playlists *)

Lemma lookup_node_In l u :
  In u (map fst l) -> exists d, lookup_node l u = Some d /\ In (u, d) l.
Proof.
  induction l as [|[k d] l IH]; simpl; [tauto|]. intro H.
  destruct (String.eqb_spec k u) as [->|Hne].
  - exists d. auto.
  - destruct H as [H|H]; [contradiction|].
    destruct (IH H) as (d' & E & Hin). exists d'. auto.
Qed.

Lemma is_path_head g u v p : is_path g u v p -> exists rest, p = u :: rest.
Proof. destruct 1; eauto. Qed.

Lemma is_path_nodes g u v p :
  is_path g u v p -> Forall (fun n => In n (node_ids g)) p.
Proof. induction 1; constructor; auto. Qed.

Lemma is_path_ends g u v p :
  is_path g u v p -> In u (node_ids g) /\ In v (node_ids g).
Proof. induction 1; tauto. Qed.

Definition songs_nonempty (g : Graph) : Prop :=
  Forall (fun nd => songs (snd nd) <> []) (nodes g).

Lemma node_songs_In self u :
  In u (node_ids (graph self)) ->
  exists d, node_songs u self = (Ok (songs d), self) /\
            In (u, d) (nodes (graph self)).
Proof.
  intro H. destruct (lookup_node_In _ _ H) as (d & E & Hin).
  exists d. split; [|exact Hin].
  unfold node_songs, bind, get. now rewrite E.
Qed.

Lemma path_duration_loop_ok self p : forall total,
  songs_nonempty (graph self) ->
  Forall (fun n => In n (node_ids (graph self))) p ->
  exists q, path_duration_loop p total self = (Ok q, self).
Proof.
  induction p as [|n p IH]; intros total Hne Hp; simpl.
  - eexists. reflexivity.
  - inversion Hp as [|? ? Hn Hp']; subst.
    destruct (node_songs_In self n Hn) as (d & E & Hin).
    unfold bind at 1. rewrite E.
    pose proof (proj1 (Forall_forall _ _) Hne _ Hin) as Hd. simpl in Hd.
    destruct (songs d) as [|s ss] eqn:Es; [congruence|]. simpl is_empty. cbv iota.
    unfold bind at 1, lift at 1. cbn [np_mean map].
    apply IH; [exact Hne|exact Hp'].
Qed.

Section PathSearch.

Variable sp : Graph -> string -> string -> Result (list string).
Variable rnd : nat -> nat.
Variable self : Model.
Variable target : Q.

Let g := graph self.

Definition found (best : option (list string) * ExtQ) : Prop :=
  exists p u v, fst best = Some p /\ is_path g u v p.

Definition search_inv (best : option (list string) * ExtQ) : Prop :=
  best = (None, PosInf) \/ found best.

Lemma try_path_no_path s e ex best :
  sp g s e = Raise ex -> exn_class ex = NetworkXNoPath ->
  try_path sp target s e best self = (Ok best, self).
Proof.
  intros E C. unfold try_path, try_catch, bind, get, lift. fold g. rewrite E.
  unfold is_no_path. now rewrite C.
Qed.

Lemma try_path_found s e p best :
  songs_nonempty g -> sp g s e = Ok p -> is_path g s e p ->
  exists pd,
    try_path sp target s e best self =
    (Ok (if closer pd (snd best) target then (Some p, Finite pd) else best), self).
Proof.
  intros Hne E Hp.
  destruct (path_duration_loop_ok self p 0 Hne (is_path_nodes _ _ _ _ Hp))
    as (pd & Epd).
  exists pd. unfold try_path, try_catch, bind, get, lift. fold g. rewrite E.
  unfold _calculate_path_duration. rewrite Epd.
  now destruct (closer pd (snd best) target).
Qed.

Hypothesis contract : shortest_path_contract sp g.

Lemma try_path_step s e best :
  songs_nonempty g -> In s (node_ids g) -> In e (node_ids g) ->
  exists best',
    try_path sp target s e best self = (Ok best', self) /\
    (search_inv best -> search_inv best') /\
    (found best -> found best') /\
    (search_inv best -> has_path g s e -> found best').
Proof.
  intros Hne Hs He.
  destruct (contract s e Hs He) as [(p & E & Hp)|(ex & E & C & Hno)].
  - destruct (try_path_found s e p best Hne E Hp) as (pd & ->).
    eexists. split; [reflexivity|].
    assert (Hf : found (Some p, Finite pd)) by (exists p, s, e; auto).
    repeat split.
    + intro Hi. destruct (closer _ _ _); [now right|exact Hi].
    + intro Hb. now destruct (closer _ _ _).
    + intros [->|Hb] _; [exact Hf|]. now destruct (closer _ _ _).
  - rewrite (try_path_no_path s e ex best E C).
    exists best. repeat split; auto. intros _ Hp. contradiction.
Qed.

Lemma inner_loop s ends : forall best,
  songs_nonempty g -> In s (node_ids g) -> incl ends (node_ids g) ->
  exists best',
    fold_m ends (fun end_ best => try_path sp target s end_ best) best self
      = (Ok best', self) /\
    (search_inv best -> search_inv best') /\
    (found best -> found best') /\
    (search_inv best -> (exists e, In e ends /\ has_path g s e) -> found best').
Proof.
  induction ends as [|e ends IH]; intros best Hne Hs Hends.
  - exists best. simpl. repeat split; auto. intros _ (e & [] & _).
  - destruct (try_path_step s e best Hne Hs (Hends e (or_introl eq_refl)))
      as (b1 & E1 & I1 & F1 & P1).
    destruct (IH b1 Hne Hs (fun x Hx => Hends x (or_intror Hx)))
      as (b2 & E2 & I2 & F2 & P2).
    exists b2. simpl. unfold bind. rewrite E1. split; [exact E2|].
    repeat split; auto.
    intros Hi (e' & [<-|He'] & Hp); [auto|]. apply P2; eauto.
Qed.

Lemma outer_loop starts ends : forall best,
  songs_nonempty g -> incl starts (node_ids g) -> incl ends (node_ids g) ->
  exists best',
    fold_m starts
           (fun start best =>
              fold_m ends (fun end_ best => try_path sp target start end_ best) best)
           best self
      = (Ok best', self) /\
    (search_inv best -> search_inv best') /\
    (found best -> found best') /\
    (search_inv best ->
     (exists s e, In s starts /\ In e ends /\ has_path g s e) -> found best').
Proof.
  induction starts as [|s starts IH]; intros best Hne Hstarts Hends.
  - exists best. simpl. repeat split; auto. intros _ (s & e & [] & _).
  - destruct (inner_loop s ends best Hne (Hstarts s (or_introl eq_refl)) Hends)
      as (b1 & E1 & I1 & F1 & P1).
    destruct (IH b1 Hne (fun x Hx => Hstarts x (or_intror Hx)) Hends)
      as (b2 & E2 & I2 & F2 & P2).
    exists b2. simpl. unfold bind. rewrite E1. split; [exact E2|].
    repeat split; auto.
    intros Hi (s' & e' & [<-|Hs'] & He' & Hp).
    + apply F2, P1; eauto.
    + apply P2; eauto.
Qed.

(** Without a path between any pair nothing is found, whatever the nodes
    hold. *)
Lemma inner_loop_no_path s ends best :
  In s (node_ids g) -> incl ends (node_ids g) ->
  (forall e, In e ends -> ~ has_path g s e) ->
  fold_m ends (fun end_ best => try_path sp target s end_ best) best self
    = (Ok best, self).
Proof.
  intros Hs. induction ends as [|e ends IH]; intros Hends Hno; [reflexivity|].
  simpl. unfold bind.
  destruct (contract s e Hs (Hends e (or_introl eq_refl)))
    as [(p & E & Hp)|(ex & E & C & _)].
  - exfalso. apply (Hno e (or_introl eq_refl)). now exists p.
  - rewrite (try_path_no_path s e ex best E C).
    apply IH; [intros x Hx; apply Hends; now right|].
    intros x Hx. apply Hno. now right.
Qed.

Lemma outer_loop_no_path starts ends best :
  incl starts (node_ids g) -> incl ends (node_ids g) ->
  (forall s e, In s starts -> In e ends -> ~ has_path g s e) ->
  fold_m starts
         (fun start best =>
            fold_m ends (fun end_ best => try_path sp target start end_ best) best)
         best self
    = (Ok best, self).
Proof.
  induction starts as [|s starts IH]; intros Hstarts Hends Hno; [reflexivity|].
  simpl. unfold bind.
  rewrite inner_loop_no_path;
    [|apply Hstarts; now left|exact Hends|intros e He; apply Hno; [now left|exact He]].
  apply IH; [intros x Hx; apply Hstarts; now right|exact Hends|].
  intros x e Hx He. apply Hno; [now right|exact He].
Qed.

End PathSearch.

Lemma nodes_with_prefix_incl emotion g : incl (nodes_with_prefix emotion g) (node_ids g).
Proof. intros n H. unfold nodes_with_prefix in H. now apply filter_In in H. Qed.

Lemma is_empty_nil {A} (l : list A) : is_empty l = true <-> l = [].
Proof. destruct l; simpl; split; congruence. Qed.

(** C3.  [generate_playlist] raises the value error "Could not find nodes
    for emotions" when the start or the end emotion is the prefix of no node
    identifier, whatever the path search would do; and it raises the value
    error "No valid path found" when both emotions match nodes and no
    start node reaches any end node.  In both cases the model, graph and
    random generator, is left as it was. *)
Theorem generate_playlist_errors
        (sp : Graph -> string -> string -> Result (list string))
        (rnd : nat -> nat) (self : Model)
        (start_emotion end_emotion : string) (duration_minutes : Q) :
  let g := graph self in
  let start_nodes := nodes_with_prefix start_emotion g in
  let end_nodes := nodes_with_prefix end_emotion g in
  (start_nodes = [] \/ end_nodes = [] ->
   generate_playlist sp rnd start_emotion end_emotion duration_minutes self
   = (Raise (no_such_mood start_emotion end_emotion), self)) /\
  (shortest_path_contract sp g ->
   start_nodes <> [] -> end_nodes <> [] ->
   (forall s e, In s start_nodes -> In e end_nodes -> ~ has_path g s e) ->
   generate_playlist sp rnd start_emotion end_emotion duration_minutes self
   = (Raise (no_reachable_path start_emotion end_emotion), self)).
Proof.
  intros g start_nodes end_nodes. split.
  - intro H. unfold generate_playlist, bind at 1, get.
    fold g. fold start_nodes. fold end_nodes.
    replace (is_empty start_nodes || is_empty end_nodes)%bool with true;
      [reflexivity|].
    symmetry. apply orb_true_iff.
    destruct H as [H|H]; [left|right]; now apply is_empty_nil.
  - intros Hc Hs He Hno. unfold generate_playlist, bind at 1, get.
    fold g. fold start_nodes. fold end_nodes.
    replace (is_empty start_nodes || is_empty end_nodes)%bool with false.
    + unfold bind, find_best_path.
      rewrite (outer_loop_no_path sp self _ Hc);
        [reflexivity|apply nodes_with_prefix_incl|apply nodes_with_prefix_incl|exact Hno].
    + symmetry. apply orb_false_iff.
      split; apply not_true_is_false; rewrite is_empty_nil; assumption.
Qed.

(** After a successful training every node holds a song. *)
Lemma trained_songs_nonempty {Scaled} (sc : list (list Q) -> Result Scaled)
      km dataset self' :
  five_clusters km ->
  train sc km dataset __init__ = (Ok tt, self') ->
  songs_nonempty (graph self').
Proof.
  intros Hkm Htrain.
  destruct (trained_graph sc km dataset self' Hkm Htrain)
    as (labels & _ & Hlabels & Hn).
  unfold songs_nonempty. rewrite Hn.
  eapply Forall_impl; [|apply trained_nodes_ok, combine_clusters, Hlabels].
  intros nd H. apply H.
Qed.

Definition durations_nonneg (g : Graph) : Prop :=
  Forall (fun nd => Forall (fun s => 0 <= duration_ms s) (songs (snd nd)))
         (nodes g).

Lemma walk_first rnd self u rest :
  songs_nonempty (graph self) -> durations_nonneg (graph self) ->
  In u (node_ids (graph self)) ->
  exists song self',
    walk rnd 0 (u :: rest) [] 0 self = (Ok [song], self') /\
    graph self' = graph self.
Proof.
  intros Hne Hd Hu.
  destruct (node_songs_In self u Hu) as (d & E & Hin).
  pose proof (proj1 (Forall_forall _ _) Hne _ Hin) as Hs.
  pose proof (proj1 (Forall_forall _ _) Hd _ Hin) as Hdur. simpl in Hs, Hdur.
  destruct (songs d) as [|s0 ss] eqn:Es; [congruence|].
  set (i := (rnd (rng_draws self) mod List.length (s0 :: ss))%nat).
  exists (nth i (s0 :: ss) s0), (mkModel (graph self) (S (rng_draws self))).
  assert (Hpick : In (nth i (s0 :: ss) s0) (s0 :: ss)).
  { apply nth_In. subst i. apply Nat.mod_upper_bound. discriminate. }
  pose proof (proj1 (Forall_forall _ _) Hdur _ Hpick) as Hge. cbv beta in Hge.
  assert (Hle : Qle_bool 0 (0 + duration_ms (nth i (s0 :: ss) s0)) = true)
    by (apply Qle_bool_iff; lra).
  split; [|reflexivity].
  cbn [walk]. unfold bind at 1. rewrite E. cbn [is_empty].
  unfold bind, np_random_choice, bind, get, modify, ret. fold i.
  cbn [app]. now rewrite Hle.
Qed.

(** C4, amended.  In a graph whose nodes all hold at least one track and
    only tracks of non-negative duration, if some start node reaches some
    end node then [generate_playlist] with a target of 0 minutes returns
    exactly one track and leaves the graph unchanged. *)
Theorem zero_target_single_track
        (sp : Graph -> string -> string -> Result (list string))
        (rnd : nat -> nat) (self : Model) (start_emotion end_emotion : string) :
  shortest_path_contract sp (graph self) ->
  songs_nonempty (graph self) ->
  durations_nonneg (graph self) ->
  (exists s e, In s (nodes_with_prefix start_emotion (graph self)) /\
               In e (nodes_with_prefix end_emotion (graph self)) /\
               has_path (graph self) s e) ->
  exists song self',
    generate_playlist sp rnd start_emotion end_emotion 0 self
    = (Ok [song], self') /\
    graph self' = graph self.
Proof.
  intros Hc Hne Hd (s & e & Hs & He & Hp).
  unfold generate_playlist, bind at 1, get.
  change (0 * 60 * 1000) with 0.
  destruct (nodes_with_prefix start_emotion (graph self)) as [|s0 starts] eqn:Es;
    [contradiction|].
  destruct (nodes_with_prefix end_emotion (graph self)) as [|e0 ends] eqn:Ee;
    [contradiction|].
  cbn [is_empty orb].
  destruct (outer_loop sp self 0 Hc (s0 :: starts) (e0 :: ends) (None, PosInf) Hne)
    as (best & E & _ & _ & Hfound).
  { rewrite <- Es. apply nodes_with_prefix_incl. }
  { rewrite <- Ee. apply nodes_with_prefix_incl. }
  unfold bind, find_best_path. rewrite E.
  destruct Hfound as (p & u & v & Ep & Hpath); [now left|eauto|].
  rewrite Ep. destruct (is_path_head _ _ _ _ Hpath) as (rest & ->).
  apply walk_first; [exact Hne|exact Hd|].
  apply (is_path_ends _ _ _ _ Hpath).
Qed.

(** A search that knows loops and single edges only.  It meets the contract
    on the graphs below, where every path can be cut down to one edge. *)
Definition direct_path (g : Graph) (u v : string) : Result (list string) :=
  if String.eqb u v then Ok [u]
  else if existsb (fun e => edge_eqb (fst e) (u, v)) (edges g) then Ok [u; v]
  else Raise (raised NetworkXNoPath "No path").

Definition example_song (title mood : string) (duration : Q)
           (explicit : bool) (album_type : string) : Song :=
  mkSong title title mood 50 duration explicit 1 1 80 album_type 12 60 1000 0.

Definition one_cluster (rows : list (list Q)) : Result (list nat) :=
  Ok (map (fun _ => 0%nat) rows).

Definition no_scaling (rows : list (list Q)) : Result (list (list Q)) := Ok rows.

Lemma one_cluster_five : five_clusters one_cluster.
Proof.
  intros x labels E. injection E as <-.
  apply Forall_forall. intros c H. apply in_map_iff in H.
  destruct H as (_ & <- & _). lia.
Qed.

(** Two moods whose songs resemble each other: every transition has a
    positive weight. *)
Definition friendly_dataset : list Song :=
  [ example_song "Blue" "sad" 200000 false "album";
    example_song "Sun" "happy" 180000 false "album" ].

Definition friendly_model : Model :=
  snd (train no_scaling one_cluster friendly_dataset __init__).

(** Two moods whose songs share nothing: only the loops get an edge. *)
Definition silent_song (title mood : string) (explicit : bool)
           (album_type : string) : Song :=
  mkSong title title mood 0 0 explicit 1 1 80 album_type 12 0 0 0.

Definition estranged_dataset : list Song :=
  [ silent_song "Hush" "sad" false "album";
    silent_song "Still" "happy" true "single" ].

Definition estranged_model : Model :=
  snd (train no_scaling one_cluster estranged_dataset __init__).

Lemma friendly_contract : shortest_path_contract direct_path (graph friendly_model).
Proof.
  intros u v Hu Hv. left.
  vm_compute in Hu, Hv.
  destruct Hu as [<-|[<-|[]]]; destruct Hv as [<-|[<-|[]]];
    eexists; (split; [vm_compute; reflexivity|]).
  - apply path_here. vm_compute. auto.
  - eapply path_step; [vm_compute; auto| |apply path_here; vm_compute; auto].
    eexists. vm_compute. eauto.
  - eapply path_step; [vm_compute; auto| |apply path_here; vm_compute; auto].
    eexists. vm_compute. eauto.
  - apply path_here. vm_compute. auto.
Qed.

Lemma friendly_trained :
  train no_scaling one_cluster friendly_dataset __init__ = (Ok tt, friendly_model).
Proof. vm_compute. reflexivity. Qed.

Lemma estranged_trained :
  train no_scaling one_cluster estranged_dataset __init__ = (Ok tt, estranged_model).
Proof. vm_compute. reflexivity. Qed.

Lemma estranged_edges u v :
  has_edge (graph estranged_model) u v -> u = v.
Proof.
  intros (w & H). vm_compute in H.
  destruct H as [H|[H|[]]]; injection H as <- <- _; reflexivity.
Qed.

Lemma estranged_paths u v p : is_path (graph estranged_model) u v p -> u = v.
Proof.
  induction 1 as [|u v w p _ He _ IH]; [reflexivity|].
  apply estranged_edges in He. congruence.
Qed.

Lemma estranged_contract :
  shortest_path_contract direct_path (graph estranged_model).
Proof.
  intros u v Hu Hv. vm_compute in Hu, Hv.
  destruct Hu as [<-|[<-|[]]]; destruct Hv as [<-|[<-|[]]].
  - left. eexists. split; [vm_compute; reflexivity|].
    apply path_here. vm_compute. auto.
  - right. eexists. split; [vm_compute; reflexivity|].
    split; [reflexivity|]. intros (p & Hp). apply estranged_paths in Hp.
    discriminate.
  - right. eexists. split; [vm_compute; reflexivity|].
    split; [reflexivity|]. intros (p & Hp). apply estranged_paths in Hp.
    discriminate.
  - left. eexists. split; [vm_compute; reflexivity|].
    apply path_here. vm_compute. auto.
Qed.

(** C1 on a newly trained model: its four edges are within range. *)
Lemma edge_weights_in_range_witness :
  edges_ok (graph (snd (train no_scaling one_cluster friendly_dataset __init__))) /\
  List.length (edges (graph (snd (train no_scaling one_cluster friendly_dataset
                                        __init__)))) = 4%nat.
Proof.
  split.
  - apply edge_weights_in_range. constructor.
  - vm_compute. reflexivity.
Defined.

(** C2 on the same training run. *)
Lemma training_nodes_witness :
  (List.length (nodes (graph friendly_model))
   <= 5 * List.length (nodup string_dec (map mood friendly_dataset)))%nat /\
  NoDup (node_ids (graph friendly_model)) /\
  Forall node_ok (nodes (graph friendly_model)) /\
  exists labels,
    List.length labels = List.length friendly_dataset /\
    Forall (fun c => (c < 5)%nat) labels /\
    Permutation (all_songs (graph friendly_model))
                (tag_clusters friendly_dataset labels).
Proof.
  exact (training_nodes no_scaling one_cluster friendly_dataset friendly_model
                        one_cluster_five friendly_trained).
Defined.

(** The claim read word for word: whatever the model holds when [train]
    is called. *)
Definition training_nodes_as_claimed : Prop :=
  forall (Scaled : Type) (sc : list (list Q) -> Result Scaled)
         (km : Scaled -> Result (list nat)) (dataset : list Song)
         (self self' : Model),
    five_clusters km ->
    train sc km dataset self = (Ok tt, self') ->
    (List.length (nodes (graph self'))
     <= 5 * List.length (nodup string_dec (map mood dataset)))%nat /\
    exists labels,
      List.length labels = List.length dataset /\
      Forall (fun c => (c < 5)%nat) labels /\
      Permutation (all_songs (graph self')) (tag_clusters dataset labels).

(** A model that has been trained before, on one song for each of seven
    moods, and a dataset of one row to train it on again. *)
Definition seven_moods : list Song :=
  map (fun m => example_song m m 200000 false "album")
      [ "happy"; "sad"; "energetic"; "calm"; "angry"; "romantic";
        "melancholic" ].

Definition seasoned_model : Model :=
  snd (train no_scaling one_cluster seven_moods __init__).

Definition one_row : list Song :=
  [ example_song "Sun" "happy" 180000 false "album" ].

Definition retrained_model : Model :=
  snd (train no_scaling one_cluster one_row seasoned_model).

Lemma retrained :
  train no_scaling one_cluster one_row seasoned_model = (Ok tt, retrained_model) /\
  List.length (nodes (graph retrained_model)) = 7%nat /\
  List.length (all_songs (graph retrained_model)) = 7%nat /\
  List.length (nodup string_dec (map mood one_row)) = 1%nat.
Proof.
  split; [vm_compute; reflexivity|].
  split; [vm_compute; reflexivity|].
  split; vm_compute; reflexivity.
Qed.

(** C2 as claimed fails: [train] never clears the graph, so a model that
    is trained again keeps the nodes of its first training.  Trained on one
    row of one mood, the graph still has seven nodes, more than five, and
    holds seven songs for that one row. *)
Lemma training_nodes_counterexample : ~ training_nodes_as_claimed.
Proof.
  intro H. destruct retrained as (Htrain & Hnodes & _ & Hmoods).
  destruct (H _ no_scaling one_cluster one_row seasoned_model retrained_model
              one_cluster_five Htrain) as [Hle _].
  rewrite Hnodes, Hmoods in Hle. apply Nat.leb_le in Hle. discriminate Hle.
Qed.

(** C3 on two trained models: a mood that is not there, and two moods
    between which there is no path. *)
Lemma generate_playlist_errors_witness :
  generate_playlist direct_path (fun _ => 0%nat) "angry" "happy" 30 friendly_model
  = (Raise (no_such_mood "angry" "happy"), friendly_model) /\
  generate_playlist direct_path (fun _ => 0%nat) "sad" "happy" 30 estranged_model
  = (Raise (no_reachable_path "sad" "happy"), estranged_model).
Proof.
  split.
  - apply (proj1 (generate_playlist_errors direct_path (fun _ => 0%nat)
                    friendly_model "angry" "happy" 30)).
    left. vm_compute. reflexivity.
  - apply (proj2 (generate_playlist_errors direct_path (fun _ => 0%nat)
                    estranged_model "sad" "happy" 30)).
    + exact estranged_contract.
    + vm_compute. discriminate.
    + vm_compute. discriminate.
    + intros s e Hs He (p & Hp). vm_compute in Hs, He.
      destruct Hs as [<-|[]]. destruct He as [<-|[]].
      apply estranged_paths in Hp. discriminate.
Defined.

Lemma friendly_songs_nonempty : songs_nonempty (graph friendly_model).
Proof. vm_compute. repeat constructor; discriminate. Qed.

Lemma friendly_durations : durations_nonneg (graph friendly_model).
Proof. vm_compute. repeat constructor; discriminate. Qed.

(** C4 on a trained model. *)
Lemma zero_target_single_track_witness :
  exists song self',
    generate_playlist direct_path (fun _ => 0%nat) "sad" "happy" 0 friendly_model
    = (Ok [song], self') /\
    graph self' = graph friendly_model.
Proof.
  apply zero_target_single_track.
  - exact friendly_contract.
  - exact friendly_songs_nonempty.
  - exact friendly_durations.
  - exists "sad_0"%string, "happy_0"%string.
    split; [vm_compute; auto|]. split; [vm_compute; auto|].
    destruct (friendly_contract "sad_0"%string "happy_0"%string)
      as [(p & _ & Hp)|(e & E & _)].
    + vm_compute. auto.
    + vm_compute. auto.
    + now exists p.
    + vm_compute in E. discriminate.
Defined.

(** The claim read word for word: each node need only hold some track of
    positive duration. *)
Definition some_positive_duration (g : Graph) : Prop :=
  Forall (fun nd => exists s, In s (songs (snd nd)) /\ 0 < duration_ms s)
         (nodes g).

Definition single_track_as_claimed : Prop :=
  forall (Scaled : Type) (sc : list (list Q) -> Result Scaled)
         (km : Scaled -> Result (list nat)) (dataset : list Song)
         (sp : Graph -> string -> string -> Result (list string))
         (rnd : nat -> nat) (self : Model) (start_emotion end_emotion : string),
    five_clusters km ->
    train sc km dataset __init__ = (Ok tt, self) ->
    shortest_path_contract sp (graph self) ->
    some_positive_duration (graph self) ->
    (exists s e, In s (nodes_with_prefix start_emotion (graph self)) /\
                 In e (nodes_with_prefix end_emotion (graph self)) /\
                 has_path (graph self) s e) ->
    exists song self',
      generate_playlist sp rnd start_emotion end_emotion 0 self
      = (Ok [song], self').

(** A "sad" cluster that also holds a row with a negative duration. *)
Definition flawed_dataset : list Song :=
  [ example_song "Blue" "sad" 200000 false "album";
    example_song "Void" "sad" (-5) false "album";
    example_song "Sun" "happy" 180000 false "album" ].

Definition flawed_model : Model :=
  snd (train no_scaling one_cluster flawed_dataset __init__).

Lemma flawed_trained :
  train no_scaling one_cluster flawed_dataset __init__ = (Ok tt, flawed_model).
Proof. vm_compute. reflexivity. Qed.

Lemma flawed_contract : shortest_path_contract direct_path (graph flawed_model).
Proof.
  intros u v Hu Hv. left.
  vm_compute in Hu, Hv.
  destruct Hu as [<-|[<-|[]]]; destruct Hv as [<-|[<-|[]]];
    eexists; (split; [vm_compute; reflexivity|]).
  - apply path_here. vm_compute. auto.
  - eapply path_step; [vm_compute; auto| |apply path_here; vm_compute; auto].
    eexists. vm_compute. eauto.
  - eapply path_step; [vm_compute; auto| |apply path_here; vm_compute; auto].
    eexists. vm_compute. eauto.
  - apply path_here. vm_compute. auto.
Qed.

Lemma flawed_two_tracks :
  exists s1 s2 self',
    generate_playlist direct_path (fun _ => 1%nat) "sad" "happy" 0 flawed_model
    = (Ok [s1; s2], self').
Proof. do 3 eexists. vm_compute. reflexivity. Qed.

(** C4 as claimed fails: the "sad" node holds a track of positive
    duration, yet the draw picks its other track, of negative duration, and
    the walk goes on to a second node. *)
Lemma single_track_counterexample : ~ single_track_as_claimed.
Proof.
  intro H.
  destruct (H _ no_scaling one_cluster flawed_dataset direct_path
              (fun _ => 1%nat) flawed_model "sad"%string "happy"%string
              one_cluster_five flawed_trained flawed_contract)
    as (song & self' & E).
  - vm_compute. repeat constructor.
    + eexists. split; [left; reflexivity|]. reflexivity.
    + eexists. split; [left; reflexivity|]. reflexivity.
  - exists "sad_0"%string, "happy_0"%string.
    split; [vm_compute; auto|]. split; [vm_compute; auto|].
    destruct (flawed_contract "sad_0"%string "happy_0"%string)
      as [(p & _ & Hp)|(e & E & _)].
    + vm_compute. auto.
    + vm_compute. auto.
    + now exists p.
    + vm_compute in E. discriminate.
  - destruct flawed_two_tracks as (s1 & s2 & self'' & E2).
    rewrite E2 in E. discriminate.
Qed.

End TransitionModelFacts.

(** ** The data collector *)

Module SpotifyDataCollectorFacts.

Import SpotifyDataCollector.
Local Open Scope nat_scope.


Definition sleeps (t : list Event) : list nat :=
  flat_map (fun ev => match ev with Sleep n => [n] | _ => [] end) t.

Definition calls (t : list Event) : list Request :=
  flat_map (fun ev => match ev with Called r => [r] | _ => [] end) t.

Lemma sleeps_app t1 t2 : sleeps (t1 ++ t2) = sleeps t1 ++ sleeps t2.
Proof. apply flat_map_app. Qed.

Lemma calls_app t1 t2 : calls (t1 ++ t2) = calls t1 ++ calls t2.
Proof. apply flat_map_app. Qed.

Section Retry.

Context {World : Type}.
Variable spotify : Request -> World -> Result json * World.
Variable request : Request.



(** The lines [log_response] writes for an exception it can describe. *)
Definition response_lines (e : Exn) : list Event :=
  match exn_response e with
  | ResponseObj _ _ (Some _) => [Log ERROR; Log ERROR; Log ERROR]
  | ResponseObj _ _ None => [Log ERROR; Log ERROR]
  | _ => []
  end.

Lemma log_response_ok e (st : State World) :
  exn_response e <> ResponseNone ->
  log_response e st
  = (Ok tt, mkState (world st) (trace st ++ response_lines e)).
Proof.
  intro H. unfold log_response, response_lines.
  destruct (exn_response e) as [| |c h [t|]]; try congruence;
    destruct st as [w t0]; unfold bind, logger, emit, modify, ret; simpl;
    rewrite <- ?app_assoc; simpl; try reflexivity.
  now rewrite app_nil_r.
Qed.

Lemma attempt_ok a rest (st : State World) v w :
  spotify request (world st) = (Ok v, w) ->
  attempts (a :: rest) (call spotify request) st
  = (Ok v, mkState w (trace st ++ [Sleep 1; Called request])).
Proof.
  intro E. simpl. unfold try_catch, bind, sleep, emit, modify, call. simpl.
  rewrite E. now rewrite <- app_assoc.
Qed.

Lemma attempt_raise a rest (st : State World) e w :
  spotify request (world st) = (Raise e, w) ->
  (is_rate_limit e && (a <? max_retries - 1))%bool = false ->
  attempts (a :: rest) (call spotify request) st
  = (Raise e, mkState w (trace st ++ [Sleep 1; Called request])).
Proof.
  intros E H. simpl. unfold try_catch, bind, sleep, emit, modify, call. simpl.
  rewrite E. rewrite <- app_assoc. simpl.
  apply andb_false_iff in H. destruct H as [->|H]; [reflexivity|].
  destruct (is_rate_limit e); [|reflexivity].
  change (a <? 2) with (a <? max_retries - 1). now rewrite H.
Qed.


End Retry.


Section RetryPolicy.

Context {World : Type}.
Variable spotify : Request -> World -> Result json * World.
Variable request : Request.


Lemma calls_response_lines e : calls (response_lines e) = [].
Proof. unfold response_lines. now destruct (exn_response e) as [| |? ? [?|]]. Qed.










End RetryPolicy.

(** A page of at most fifty items. *)
Definition capped (page : json) : Prop :=
  exists n, py_len page = Ok n /\ n <= 50.

Lemma substring_length n s : String.length (String.substring 0 n s) <= n.
Proof.
  revert s. induction n as [|n IH]; intros [|c s]; simpl; try lia.
  specialize (IH s). lia.
Qed.

Lemma slice_to_capped x page : slice_to x 50 = Ok page -> capped page.
Proof.
  destruct x; simpl; try discriminate; intros [= <-].
  - exists (String.length (String.substring 0 50 s)). split; [reflexivity|].
    apply substring_length.
  - exists (List.length (firstn 50 items)). split; [reflexivity|].
    apply firstn_le_length.
Qed.

Lemma empty_capped : capped (JList []).
Proof. exists 0. split; [reflexivity|lia]. Qed.

Section Pagination.

Context {World : Type}.
Variable spotify : Request -> World -> Result json * World.

Definition capped_or_unfinished (r : option json) : Prop :=
  forall page, r = Some page -> capped page.

Lemma get_playlist_tracks_post fuel playlist_id :
  post (get_playlist_tracks spotify fuel playlist_id) capped_or_unfinished.
Proof.
  unfold get_playlist_tracks. apply post_try_catch.
  - apply post_bind. intros _. apply post_bind. intros results.
    apply post_bind. intros missing. destruct missing.
    + apply post_bind. intros _. apply post_ret.
      intros page [= <-]. apply empty_capped.
    + apply post_bind. intros tracks. apply post_bind. intros [gathered|].
      * apply post_bind_lift. intros page Hp. apply post_ret.
        intros page' [= <-]. now apply (slice_to_capped gathered).
      * apply post_ret. intros page [=].
  - intro e. apply post_bind. intros _. apply post_bind. intros _.
    apply post_ret. intros page [= <-]. apply empty_capped.
Qed.

Lemma more_pages_stops fuel results tracks next n (st : State World) :
  getitem results "next" = Ok next -> py_len tracks = Ok n -> 50 <= n ->
  more_pages spotify fuel results tracks st = (Ok (Some tracks), st).
Proof.
  intros Hn Hl Hge.
  assert (W : wants_more results tracks = Ok false).
  { unfold wants_more. rewrite Hn. simpl. destruct (truthy next); [|reflexivity].
    rewrite Hl. simpl. f_equal. apply Nat.ltb_ge. exact Hge. }
  destruct fuel; simpl; unfold bind, lift; rewrite W; reflexivity.
Qed.

(** C6.  Whatever the service answers, a page that [get_playlist_tracks]
    returns has at most 50 items; and once 50 items are gathered the
    pagination loop ends without a further request. *)
Theorem get_playlist_tracks_cap :
  (forall fuel playlist_id st page st',
      get_playlist_tracks spotify fuel playlist_id st = (Ok (Some page), st') ->
      exists n, py_len page = Ok n /\ n <= 50) /\
  (forall fuel results tracks next n (st : State World),
      getitem results "next" = Ok next -> py_len tracks = Ok n -> 50 <= n ->
      more_pages spotify fuel results tracks st = (Ok (Some tracks), st)).
Proof.
  split.
  - intros fuel pid st page st' E.
    exact (get_playlist_tracks_post fuel pid st (Some page) st' E page eq_refl).
  - apply more_pages_stops.
Qed.

End Pagination.

(** A record as [get_track_info] builds it. *)
Definition is_track_record (v : json) : Prop :=
  exists fields, v = JDict fields /\ map fst fields = track_info_keys.

Ltac bindR_inv H :=
  repeat match type of H with
         | bindR ?r _ = Ok _ =>
             let E := fresh "E" in
             destruct r eqn:E; cbn [bindR] in H; [|discriminate H]
         end.

Lemma track_info_record track v : track_info track = Ok v -> is_track_record v.
Proof.
  unfold track_info. intro H. bindR_inv H.
  injection H as <-. eexists. split; reflexivity.
Qed.

(** Exceptions raised by the interpreter carry no [response]. *)
Definition plain {A} (r : Result A) : Prop :=
  forall e, r = Raise e -> exn_response e = NoResponseAttr.

Lemma plain_bindR {A B} (r : Result A) (k : A -> Result B) :
  plain r -> (forall a, plain (k a)) -> plain (bindR r k).
Proof.
  intros Hr Hk e. destruct r as [a|e0]; simpl; [exact (Hk a e)|].
  intros [= <-]. now apply Hr.
Qed.

Lemma plain_Ok {A} (a : A) : plain (Ok a).
Proof. intros e [=]. Qed.

Lemma plain_raised {A} c msg : plain (@Raise A (raised c msg)).
Proof. intros e [= <-]. reflexivity. Qed.

Lemma plain_getitem x key : plain (getitem x key).
Proof.
  destruct x; simpl; try apply plain_raised.
  destruct (dict_lookup fields key); [apply plain_Ok|apply plain_raised].
Qed.

Lemma plain_getitem0 x : plain (getitem0 x).
Proof.
  destruct x as [| | |[|c s]|[|v l]|]; simpl;
    try apply plain_raised; apply plain_Ok.
Qed.

Lemma plain_py_len x : plain (py_len x).
Proof. destruct x; simpl; try apply plain_raised; apply plain_Ok. Qed.

Lemma plain_py_get x key d : plain (py_get x key d).
Proof.
  destruct x; simpl; try apply plain_raised.
  destruct (dict_lookup fields key); apply plain_Ok.
Qed.

Lemma plain_py_in key x : plain (py_in key x).
Proof. destruct x; simpl; try apply plain_raised; apply plain_Ok. Qed.

Lemma plain_py_iter x : plain (py_iter x).
Proof. destruct x; simpl; try apply plain_raised; apply plain_Ok. Qed.

Lemma plain_hashable x : plain (hashable x).
Proof. destruct x; simpl; try apply plain_raised; apply plain_Ok. Qed.

Create HintDb plain.
#[local] Hint Resolve plain_bindR plain_Ok plain_raised plain_getitem plain_getitem0
  plain_py_len plain_py_get plain_py_in plain_py_iter plain_hashable : plain.

Lemma plain_track_info track : plain (track_info track).
Proof.
  unfold track_info, album_field, first_artist.
  repeat (apply plain_bindR; [auto 6 with plain|intro]). apply plain_Ok.
Qed.

Section TrackInfo.

Context {World : Type}.
Variable spotify : Request -> World -> Result json * World.

Definition logged (level : Level) (st : State World) : State World :=
  mkState (world st) (trace st ++ [Log level]).

Lemma handler_returns_null e (st : State World) r st' :
  (logger ERROR ;; log_response e ;; ret JNull)%monad st = (r, st') ->
  r = Ok JNull \/
  (exn_response e = ResponseNone /\ exists e', r = Raise e').
Proof.
  unfold bind at 1, logger at 1, emit, modify. cbn [fst snd].
  unfold bind, log_response.
  destruct (exn_response e) as [| |c h [t|]]; cbn; intros [= <- <-]; eauto.
Qed.

(** C8.  What [get_track_info] returns is null or a record with the
    eighteen keys.  When the client hands back a track, the record built
    from it is returned; when it hands back nothing, null is returned and
    nothing is raised.  It raises only when the retry wrapper itself gave
    up with an exception of the client (one whose [response] is [None]). *)
Theorem get_track_info_outcomes track_id (st : State World) :
  let attempt := _handle_rate_limit spotify (Track track_id) (logged INFO st) in
  (forall v st', get_track_info spotify track_id st = (Ok v, st') ->
                 v = JNull \/ is_track_record v) /\
  (forall track st2 record,
      attempt = (Ok track, st2) -> truthy track = true ->
      track_info track = Ok record ->
      get_track_info spotify track_id st = (Ok record, st2)) /\
  (forall track st2,
      attempt = (Ok track, st2) -> truthy track = false ->
      get_track_info spotify track_id st = (Ok JNull, logged WARNING st2)) /\
  (forall e' st',
      get_track_info spotify track_id st = (Raise e', st') ->
      exists e st2, attempt = (Raise e, st2) /\ exn_response e = ResponseNone).
Proof.
  intro attempt.
  assert (Hrun : forall r st',
             get_track_info spotify track_id st = (r, st') ->
             match attempt with
             | (Ok track, st2) =>
                 if truthy track then
                   match track_info track with
                   | Ok record => r = Ok record /\ st' = st2
                   | Raise _ => r = Ok JNull
                   end
                 else r = Ok JNull /\ st' = logged WARNING st2
             | (Raise e, st2) =>
                 r = Ok JNull \/
                 (exn_response e = ResponseNone /\ exists e', r = Raise e')
             end).
  { intros r st'. unfold get_track_info, try_catch.
    unfold bind at 1, logger at 1, emit, modify. cbn [fst snd].
    fold (logged INFO st). unfold bind at 1. fold attempt.
    destruct attempt as [[track|e] st2].
    - destruct (truthy track) eqn:T; cbn [negb].
      + unfold lift. destruct (track_info track) as [record|e] eqn:Et.
        * intros [= <- <-]. auto.
        * intro H. apply handler_returns_null in H.
          destruct H as [H|[H _]]; [exact H|].
          rewrite (plain_track_info track e Et) in H. discriminate H.
      + unfold bind, logger, emit, modify, ret. cbn. intros [= <- <-]. auto.
    - apply handler_returns_null. }
  repeat split.
  - intros v st' E. specialize (Hrun _ _ E).
    destruct attempt as [[track|e] st2].
    + destruct (truthy track).
      * destruct (track_info track) as [record|e] eqn:Et.
        -- destruct Hrun as [[= <-] _]. right. now apply (track_info_record track).
        -- injection Hrun as <-. now left.
      * destruct Hrun as [[= <-] _]. now left.
    + destruct Hrun as [[= <-]|[_ [e' [=]]]]. now left.
  - intros track st2 record Ea T Et.
    destruct (get_track_info spotify track_id st) as [r st'] eqn:E.
    specialize (Hrun _ _ eq_refl). rewrite Ea, T, Et in Hrun.
    destruct Hrun as [-> ->]. reflexivity.
  - intros track st2 Ea T.
    destruct (get_track_info spotify track_id st) as [r st'] eqn:E.
    specialize (Hrun _ _ eq_refl). rewrite Ea, T in Hrun.
    destruct Hrun as [-> ->]. reflexivity.
  - intros e' st' E. specialize (Hrun _ _ E).
    destruct attempt as [[track|e] st2].
    + destruct (truthy track).
      * destruct (track_info track); [destruct Hrun as [[=] _]|discriminate Hrun].
      * destruct Hrun as [[=] _].
    + destruct Hrun as [[=]|[H _]]. eauto.
Qed.

End TrackInfo.

(** [playlist['id']], as the set [seen_ids] takes it. *)
Definition playlist_id (playlist : json) : Result json :=
  (id <- getitem playlist "id" ;; hashable id)%result.

(** No two of the identifiers are equal. *)
Fixpoint distinct (ids : list json) : Prop :=
  match ids with
  | [] => True
  | i :: rest => Forall (fun j => py_eqb i j = false) rest /\ distinct rest
  end.

Definition distinct_ids (playlists : list json) : Prop :=
  exists ids, Forall2 (fun p i => playlist_id p = Ok i) playlists ids /\
              distinct ids.

Lemma py_eqb_sym x y : py_eqb x y = py_eqb y x.
Proof.
  destruct x, y; simpl; try reflexivity.
  - now destruct b, b0.
  - apply Z.eqb_sym.
  - apply String.eqb_sym.
Qed.

Lemma distinct_snoc ids j :
  distinct ids -> existsb (py_eqb j) ids = false -> distinct (ids ++ [j]).
Proof.
  induction ids as [|i ids IH]; simpl; intros Hd He; [auto|].
  apply orb_false_iff in He. destruct He as [Hij He]. destruct Hd as [Hi Hd].
  split; [|now apply IH].
  apply Forall_app. split; [exact Hi|].
  constructor; [|constructor]. now rewrite py_eqb_sym.
Qed.

Lemma firstn_incl {A} n : forall (l : list A) x, In x (firstn n l) -> In x l.
Proof.
  induction n as [|n IH]; intros [|a l] x; simpl; try tauto.
  intros [->|H]; auto.
Qed.

Lemma distinct_firstn n : forall ids, distinct ids -> distinct (firstn n ids).
Proof.
  induction n as [|n IH]; intros [|i ids]; simpl; auto.
  intros [Hi Hd]. split; [|now apply IH].
  apply Forall_forall. intros j Hj. rewrite Forall_forall in Hi.
  apply Hi. now apply (firstn_incl n).
Qed.

Lemma Forall2_firstn {A B} (R : A -> B -> Prop) n : forall l l',
  Forall2 R l l' -> Forall2 R (firstn n l) (firstn n l').
Proof.
  induction n as [|n IH]; intros l l' H; simpl; [constructor|].
  destruct H; constructor; auto.
Qed.

Lemma distinct_ids_firstn n playlists ids :
  Forall2 (fun p i => playlist_id p = Ok i) playlists ids -> distinct ids ->
  distinct_ids (firstn n playlists).
Proof.
  intros Hf Hd. exists (firstn n ids).
  split; [now apply Forall2_firstn|now apply distinct_firstn].
Qed.

Section PlaylistSearch.

Context {World : Type}.
Variable spotify : Request -> World -> Result json * World.

Definition locals_inv (l : SearchLocals) : Prop :=
  Forall2 (fun p i => playlist_id p = Ok i) (all_playlists l) (seen_ids l) /\
  distinct (seen_ids l).

Definition locals_ok (sl : State World * SearchLocals) : Prop :=
  locals_inv (snd sl).

Lemma on_state_locals {A} (c : M (State World) A) :
  preserves locals_ok (on_state c).
Proof.
  intros [st l] H. unfold on_state, locals_ok. simpl. now destruct (c st).
Qed.

Lemma add_playlist_ok playlist : preserves locals_ok (add_playlist playlist).
Proof.
  intros [st l] [Hf Hd]. unfold add_playlist, bind, lift, locals, set_locals.
  fold (playlist_id playlist).
  destruct (playlist_id playlist) as [i|e] eqn:Ei; [|now split].
  cbn [snd fst]. destruct (existsb (py_eqb i) (seen_ids l)) eqn:Es; [now split|].
  split; cbn.
  - apply Forall2_app; [exact Hf|]. constructor; [exact Ei|constructor].
  - now apply distinct_snoc.
Qed.

Lemma search_query_ok limit query :
  preserves locals_ok (search_query spotify limit query).
Proof.
  unfold search_query. apply preserves_try_catch.
  - apply preserves_bind; [apply on_state_locals|intros _].
    apply preserves_bind; [apply on_state_locals|intros results].
    apply preserves_bind; [apply preserves_lift|intros missing].
    destruct missing; [apply on_state_locals|].
    apply preserves_bind; [apply preserves_lift|intros playlists].
    apply preserves_bind; [apply preserves_lift|intros _].
    apply preserves_bind; [apply on_state_locals|intros _].
    apply preserves_bind; [apply preserves_lift|intros items].
    apply preserves_for_each. apply add_playlist_ok.
  - intro e. apply on_state_locals.
Qed.

(** Whatever happens to the queries, what is returned holds each
    identifier once and no more than [limit] playlists. *)
Lemma search_result_distinct mood limit :
  post (search_playlists_by_mood spotify mood limit)
       (fun playlists => List.length playlists <= limit /\
                         distinct_ids playlists).
Proof.
  intros st playlists st'. unfold search_playlists_by_mood.
  set (init := (st, mkLocals [] [])).
  assert (H0 : locals_ok init) by (split; constructor).
  pose proof (preserves_for_each locals_ok (queries mood)
                (search_query spotify limit)
                (search_query_ok limit) init H0) as H1.
  unfold bind at 1.
  destruct (for_each (queries mood) (search_query spotify limit) init)
    as [[[]|e] [st1 l1]]; [|discriminate].
  unfold bind, on_state, logger, emit, modify, locals, ret. cbn.
  intros [= <- _]. destruct H1 as [Hf Hd]. split.
  - apply firstn_le_length.
  - now apply (distinct_ids_firstn limit _ (seen_ids l1)).
Qed.

End PlaylistSearch.

(** An exception whose [response], if it has one, is a response. *)
Definition loggable (e : Exn) : Prop := exn_response e <> ResponseNone.

Definition never {A} (_ : A) : Prop := False.

Lemma plain_loggable {A} (r : Result A) :
  plain r -> forall e, r = Raise e -> loggable e.
Proof. intros H e E. unfold loggable. rewrite (H e E). discriminate. Qed.

Section Loggable.

Context {World : Type}.
Variable spotify : Request -> World -> Result json * World.

(** The service fails only with exceptions a handler can describe. *)
Hypothesis service_loggable :
  forall request w e, fst (spotify request w) = Raise e -> loggable e.

Lemma emit_never ev : raises_only (@emit World ev) never.
Proof. apply raises_only_modify. Qed.

Lemma call_loggable request : raises_only (call spotify request) loggable.
Proof.
  intros s e s' E. unfold call in E.
  destruct (spotify request (world s)) as [r w] eqn:Es.
  injection E as -> _. apply (service_loggable request (world s)).
  now rewrite Es.
Qed.

Lemma log_response_never e :
  loggable e -> raises_only (@log_response World e) never.
Proof.
  intro H. unfold log_response, loggable in *.
  destruct (exn_response e) as [| |c h [t|]]; try congruence;
    try apply raises_only_ret;
    repeat (apply raises_only_bind; [apply emit_never|intros _]);
    try apply emit_never; apply raises_only_ret.
Qed.

Lemma attempts_loggable remaining request :
  raises_only (attempts remaining (call spotify request)) loggable.
Proof.
  induction remaining as [|a rest IH]; cbn [attempts].
  - apply raises_only_ret.
  - apply (raises_only_try_catch _ _ loggable).
    + apply raises_only_bind; [|intros _; apply call_loggable].
      eapply raises_only_weaken; [apply emit_never|intros e []].
    + intros e He. destruct (is_rate_limit e); [|now apply raises_only_raise].
      destruct (a <? max_retries - 1); [|now apply raises_only_raise].
      apply raises_only_bind;
        [eapply raises_only_weaken; [apply emit_never|intros ? []]|intros _].
      apply raises_only_bind;
        [eapply raises_only_weaken; [now apply log_response_never|intros ? []]|intros _].
      apply raises_only_bind;
        [eapply raises_only_weaken; [apply emit_never|intros ? []]|intros _].
      exact IH.
Qed.

Lemma handle_rate_limit_loggable request :
  raises_only (_handle_rate_limit spotify request) loggable.
Proof. apply attempts_loggable. Qed.

Lemma on_state_raises {L A} (c : M (State World) A) P :
  raises_only c P -> raises_only (@on_state World L A c) P.
Proof.
  intros H [st l] e s' E. unfold on_state in E. simpl in E.
  destruct (c st) as [r st1] eqn:Ec. injection E as -> _. exact (H st e st1 Ec).
Qed.

Lemma add_playlist_loggable playlist :
  raises_only (@add_playlist World playlist) loggable.
Proof.
  unfold add_playlist. apply raises_only_bind.
  - apply raises_only_lift. apply plain_loggable. auto with plain.
  - intro i. apply raises_only_bind; [intros s e s' [=]|intro l].
    destruct (existsb _ _); [apply raises_only_ret|intros s e s' [=]].
Qed.

Lemma plain_no_playlists results : plain (no_playlists results).
Proof.
  unfold no_playlists. destruct (negb (truthy results)); [apply plain_Ok|].
  apply plain_bindR; [auto with plain|intros has].
  destruct (negb has); auto 6 with plain.
Qed.

Lemma search_query_never limit query :
  raises_only (search_query spotify limit query) never.
Proof.
  unfold search_query. apply (raises_only_try_catch _ _ loggable).
  - apply raises_only_bind;
      [apply on_state_raises; eapply raises_only_weaken;
       [apply emit_never|intros ? []]|intros _].
    apply raises_only_bind;
      [apply on_state_raises, handle_rate_limit_loggable|intros results].
    apply raises_only_bind;
      [apply raises_only_lift, plain_loggable, plain_no_playlists|intros missing].
    destruct missing.
    { apply on_state_raises. eapply raises_only_weaken;
        [apply emit_never|intros ? []]. }
    apply raises_only_bind;
      [apply raises_only_lift, plain_loggable; auto with plain|intros playlists].
    apply raises_only_bind;
      [apply raises_only_lift, plain_loggable; auto with plain|intros _].
    apply raises_only_bind;
      [apply on_state_raises; eapply raises_only_weaken;
       [apply emit_never|intros ? []]|intros _].
    apply raises_only_bind;
      [apply raises_only_lift, plain_loggable; auto with plain|intros items].
    apply raises_only_for_each, add_playlist_loggable.
  - intros e He. apply on_state_raises.
    apply raises_only_bind; [apply emit_never|intros _].
    now apply log_response_never.
Qed.

(** With such a service no query can make the search fail. *)
Lemma search_never_raises mood limit (st : State World) :
  exists playlists st',
    search_playlists_by_mood spotify mood limit st = (Ok playlists, st').
Proof.
  destruct (search_playlists_by_mood spotify mood limit st) as [[l|e] st'] eqn:E;
    [eauto|exfalso].
  unfold search_playlists_by_mood in E.
  match type of E with
  | (let (_, _) := ?body ?init in _) = _ =>
      destruct (body init) as [r sl] eqn:Eb;
      assert (Hb : raises_only body never)
  end.
  { apply raises_only_bind.
    - apply raises_only_for_each, search_query_never.
    - intros _. apply raises_only_bind.
      + apply on_state_raises, emit_never.
      + intros _. apply raises_only_bind; [intros s e0 s' [=]|intro l].
        apply raises_only_ret. }
  injection E as -> _. exact (Hb _ _ _ Eb).
Qed.

End Loggable.

Lemma try_catch_bind {S A B} (c : M S A) (k : A -> M S B) handler s :
  try_catch (bind c k) handler s =
  match c s with
  | (Ok a, s1) => try_catch (k a) handler s1
  | (Raise e, s1) => handler e s1
  end.
Proof. unfold try_catch, bind. now destruct (c s) as [[a|e] s1]. Qed.

Section Requests.

Context {World : Type}.
Variable spotify : Request -> World -> Result json * World.

Hypothesis service_loggable :
  forall request w e, fst (spotify request w) = Raise e -> loggable e.

(** The requests sent so far. *)
Definition sent (st : State World) : list Request := calls (trace st).

Lemma sent_snoc w t ev :
  sent (mkState (World:=World) w (t ++ [ev])) = calls t ++ calls [ev].
Proof. unfold sent. cbn [trace]. apply calls_app. Qed.

Lemma sent_snoc_quiet w (st : State World) ev :
  (forall r, ev <> Called r) ->
  sent (mkState w (trace st ++ [ev])) = sent st.
Proof.
  intro H. rewrite sent_snoc. fold (sent st).
  destruct ev; simpl; try apply app_nil_r. now destruct (H request).
Qed.

Lemma emit_keeps_sent ev C :
  (forall r, ev <> Called r) ->
  preserves (fun st : State World => sent st = C) (emit ev).
Proof.
  intros H st E. unfold emit, modify. cbn [snd]. now rewrite sent_snoc_quiet.
Qed.

Lemma log_response_keeps_sent e C :
  preserves (fun st : State World => sent st = C) (log_response e).
Proof.
  unfold log_response. destruct (exn_response e) as [| |c h [t|]];
    try apply preserves_ret; try apply preserves_raise;
    repeat (apply preserves_bind; [apply emit_keeps_sent; discriminate|intros _]);
    try apply preserves_ret; apply emit_keeps_sent; discriminate.
Qed.

(** A round of attempts sends its request at least once and at most once
    per attempt. *)
Lemma attempts_sent remaining request : forall st : State World,
  remaining <> [] ->
  exists k, 1 <= k <= List.length remaining /\
            sent (snd (attempts remaining (call spotify request) st))
            = sent st ++ repeat request k.
Proof.
  induction remaining as [|a rest IH]; intros st Hne; [congruence|].
  cbn [attempts]. rewrite try_catch_bind.
  unfold sleep at 1, emit at 1, modify at 1.
  set (st1 := mkState (world st) (trace st ++ [Sleep 1])).
  assert (E1 : sent st1 = sent st) by (apply sent_snoc_quiet; discriminate).
  unfold try_catch, call at 1.
  destruct (spotify request (world st1)) as [r w] eqn:Es.
  set (st2 := mkState w (trace st1 ++ [Called request])).
  assert (E2 : sent st2 = sent st ++ [request]).
  { unfold st2. rewrite sent_snoc. fold (sent st1). now rewrite E1. }
  destruct r as [v|e].
  - exists 1. simpl. split; [lia|exact E2].
  - destruct (is_rate_limit e); [|exists 1; simpl; split; [lia|exact E2]].
    destruct (a <? max_retries - 1); [|exists 1; simpl; split; [lia|exact E2]].
    unfold bind at 1, logger at 1, emit at 1, modify at 1.
    set (st3 := mkState (world st2) (trace st2 ++ [Log WARNING])).
    assert (E3 : sent st3 = sent st ++ [request]).
    { unfold st3. rewrite sent_snoc_quiet by discriminate. exact E2. }
    unfold bind at 1.
    pose proof (log_response_keeps_sent e _ st3 E3) as E4.
    destruct (log_response e st3) as [[[]|e'] st4]; cbn [snd] in E4;
      [|exists 1; split; [simpl; lia|exact E4]].
    unfold bind at 1, sleep at 1, emit at 1, modify at 1.
    set (st5 := mkState (world st4) (trace st4 ++ [Sleep (base_delay * 2 ^ a)])).
    assert (E5 : sent st5 = sent st ++ [request]).
    { unfold st5. rewrite sent_snoc_quiet by discriminate. exact E4. }
    destruct rest as [|a' rest'].
    + exists 1. split; [simpl; lia|exact E5].
    + destruct (IH st5) as (k & Hk & Ek); [discriminate|].
      exists (S k). split; [simpl in *; lia|].
      rewrite Ek, E5, <- app_assoc. reflexivity.
Qed.

Lemma handle_rate_limit_sent request (st : State World) :
  exists k, 1 <= k <= max_retries /\
            sent (snd (_handle_rate_limit spotify request st))
            = sent st ++ repeat request k.
Proof.
  unfold _handle_rate_limit.
  destruct (attempts_sent (seq 0 max_retries) request st) as (k & Hk & E);
    [discriminate|].
  exists k. split; [|exact E]. now rewrite length_seq in Hk.
Qed.

Lemma on_state_keeps_sent {L A} (c : M (State World) A) C :
  preserves (fun st => sent st = C) c ->
  preserves (fun sl : State World * L => sent (fst sl) = C) (on_state c).
Proof.
  intros H [st l] E. unfold on_state. cbn [fst snd] in *.
  specialize (H st E). now destruct (c st).
Qed.

Lemma add_playlist_keeps_sent playlist C :
  preserves (fun sl : State World * SearchLocals => sent (fst sl) = C)
            (add_playlist playlist).
Proof.
  intros [st l] E. unfold add_playlist, bind, lift, locals, set_locals.
  destruct (bindR _ _) as [i|e]; [|exact E].
  cbn [snd fst]. now destruct (existsb _ _).
Qed.

Lemma search_handler_keeps_sent e C :
  preserves (fun sl : State World * SearchLocals => sent (fst sl) = C)
            (on_state (logger ERROR ;; log_response e)%monad).
Proof.
  apply on_state_keeps_sent.
  apply preserves_bind; [apply emit_keeps_sent; discriminate|intros _].
  apply log_response_keeps_sent.
Qed.

(** One query sends its search, and nothing else, one to three times. *)
Lemma search_query_sent limit query (sl : State World * SearchLocals) :
  exists k, 1 <= k <= max_retries /\
            sent (fst (snd (search_query spotify limit query sl)))
            = sent (fst sl) ++ repeat (Search query limit) k.
Proof.
  destruct sl as [st l]. unfold search_query.
  rewrite try_catch_bind. unfold on_state at 1, logger at 1, emit at 1, modify at 1.
  cbn [fst snd].
  set (st1 := mkState (world st) (trace st ++ [Log INFO])).
  assert (E1 : sent st1 = sent st) by (apply sent_snoc_quiet; discriminate).
  rewrite try_catch_bind. unfold on_state at 1. cbn [fst snd].
  destruct (handle_rate_limit_sent (Search query limit) st1) as (k & Hk & Ek).
  rewrite E1 in Ek.
  destruct (_handle_rate_limit spotify (Search query limit) st1) as [r st2].
  cbn [snd] in Ek. exists k. split; [exact Hk|].
  set (C := sent st ++ repeat (Search query limit) k) in *.
  destruct r as [results|e].
  - apply (preserves_try_catch
             (fun sl : State World * SearchLocals => sent (fst sl) = C));
      [|intro e; apply search_handler_keeps_sent|exact Ek].
    apply preserves_bind; [apply preserves_lift|intros missing].
    destruct missing.
    { apply on_state_keeps_sent, emit_keeps_sent. discriminate. }
    apply preserves_bind; [apply preserves_lift|intros playlists].
    apply preserves_bind; [apply preserves_lift|intros _].
    apply preserves_bind;
      [apply on_state_keeps_sent, emit_keeps_sent; discriminate|intros _].
    apply preserves_bind; [apply preserves_lift|intros items].
    apply preserves_for_each. intro playlist. apply add_playlist_keeps_sent.
  - apply (search_handler_keeps_sent e C). exact Ek.
Qed.

(** The searches a list of queries sends, the i-th of them [k_i] times. *)
Fixpoint searches (limit : nat) (qs : list string) (ks : list nat)
  : list Request :=
  match qs, ks with
  | q :: qs', k :: ks' => repeat (Search q limit) k ++ searches limit qs' ks'
  | _, _ => []
  end.

Lemma queries_sent limit qs : forall sl : State World * SearchLocals,
  exists ks,
    List.length ks = List.length qs /\
    Forall (fun k => 1 <= k <= max_retries) ks /\
    sent (fst (snd (for_each qs (search_query spotify limit) sl)))
    = sent (fst sl) ++ searches limit qs ks.
Proof.
  induction qs as [|q qs IH]; intro sl.
  - exists []. simpl. repeat split; [constructor|now rewrite app_nil_r].
  - destruct (search_query_sent limit q sl) as (k & Hk & Ek).
    cbn [for_each]. unfold bind.
    destruct (search_query spotify limit q sl) as [[[]|e] sl1] eqn:Eq.
    + destruct (IH sl1) as (ks & Hl & Hks & Es).
      exists (k :: ks). cbn [snd] in Ek. simpl List.length.
      split; [lia|]. split; [now constructor|].
      rewrite Es, Ek. cbn [searches]. now rewrite <- app_assoc.
    + exfalso. exact (search_query_never spotify service_loggable limit q _ _ _ Eq).
Qed.

(** With a service whose failures the handler can describe, the four
    queries are sent in order, each one to three times, and nothing else. *)
Lemma search_sends_four_queries mood limit (st : State World) :
  exists k1 k2 k3 k4,
    Forall (fun k => 1 <= k <= max_retries) [k1; k2; k3; k4] /\
    sent (snd (search_playlists_by_mood spotify mood limit st))
    = sent st
      ++ repeat (Search ("mood " ++ mood) limit) k1
      ++ repeat (Search (mood ++ " music") limit) k2
      ++ repeat (Search (mood ++ " songs") limit) k3
      ++ repeat (Search (mood ++ " playlist") limit) k4.
Proof.
  unfold search_playlists_by_mood.
  destruct (queries_sent limit (queries mood) (st, mkLocals [] []))
    as (ks & Hl & Hks & Es).
  destruct ks as [|k1 [|k2 [|k3 [|k4 [|]]]]]; try discriminate Hl.
  exists k1, k2, k3, k4. split; [exact Hks|].
  unfold bind at 1.
  destruct (for_each (queries mood) (search_query spotify limit)
                     (st, mkLocals [] [])) as [[[]|e] [st1 l1]];
    cbn [fst snd] in Es.
  - unfold bind, on_state, logger, emit, modify, locals, ret. cbn [fst snd].
    rewrite sent_snoc_quiet by discriminate. rewrite Es.
    cbn [searches queries]. now rewrite app_nil_r.
  - cbn [fst snd]. rewrite Es. cbn [searches queries]. now rewrite app_nil_r.
Qed.

End Requests.


Definition sample_track : json :=
  JDict [ ("id", JStr "t1"); ("name", JStr "Blue");
          ("artists", JList [JDict [("name", JStr "Ann")]]);
          ("popularity", JNum 50); ("duration_ms", JNum 200000);
          ("album", JDict [ ("name", JStr "Skies");
                            ("release_date", JStr "2020-01-01");
                            ("album_type", JStr "album");
                            ("total_tracks", JNum 12) ]);
          ("explicit", JBool false); ("track_number", JNum 1);
          ("disc_number", JNum 1);
          ("available_markets", JList [JStr "US"; JStr "DE"]);
          ("is_local", JBool false) ].







Definition track_item : json := JDict [("track", JDict [("id", JStr "t1")])].

(** A playlist without end, thirty tracks to the page. *)
Definition endless_page : json :=
  JDict [ ("items", JList (repeat track_item 30));
          ("next", JStr "https://api.spotify.com/v1/playlists/p/tracks") ].

Definition endless (_ : Request) (w : unit) : Result json * unit :=
  (Ok endless_page, w).

(** C6 on a playlist without end: two requests, fifty items. *)
Lemma get_playlist_tracks_cap_witness :
  exists page st',
    get_playlist_tracks endless 5 "p" (mkState tt []) = (Ok (Some page), st') /\
    (exists n, py_len page = Ok n /\ n <= 50) /\
    py_len page = Ok 50 /\
    List.length (calls (trace st')) = 2.
Proof.
  eexists. eexists.
  assert (E : get_playlist_tracks endless 5 "p" (mkState tt [])
              = (fst (get_playlist_tracks endless 5 "p" (mkState tt [])),
                 snd (get_playlist_tracks endless 5 "p" (mkState tt []))))
    by apply surjective_pairing.
  assert (V : fst (get_playlist_tracks endless 5 "p" (mkState tt []))
              = Ok (Some (JList (repeat track_item 50))))
    by (vm_compute; reflexivity).
  rewrite V in E. split; [exact E|]. split.
  - exact (proj1 (get_playlist_tracks_cap endless) 5 "p"%string _ _ _ E).
  - split; vm_compute; reflexivity.
Defined.

(** What [requests] raises when the connection cannot be made: an
    exception whose [response] is [None]. *)
Definition connection_error : Exn :=
  mkExn ClientError "Connection aborted" ResponseNone.

Definition unreachable (_ : Request) (w : unit) : Result json * unit :=
  (Raise connection_error, w).

(** C7 fails on the code.  When the connection cannot be made, the handler
    of the first query reads [e.response.status_code] off [None]: the search
    raises an [AttributeError] after one request instead of logging the
    failure, going on to the other three queries and returning a list. *)
Lemma search_fails_wholesale :
  exists e st',
    search_playlists_by_mood unreachable "happy" 5 (mkState tt [])
    = (Raise e, st') /\
    exn_class e = AttributeError /\
    calls (trace st') = [Search "mood happy" 5].
Proof. do 2 eexists. split; [vm_compute; reflexivity|]. split; reflexivity. Qed.

Definition catalogue (_ : Request) (w : unit) : Result json * unit :=
  (Ok sample_track, w).

(** C8 on a track the service knows. *)
Lemma get_track_info_outcomes_witness :
  exists record st',
    get_track_info catalogue "t1" (mkState tt []) = (Ok record, st') /\
    is_track_record record.
Proof.
  destruct (get_track_info_outcomes catalogue "t1" (mkState tt []))
    as (Hshape & Hok & _ & _).
  eexists. eexists. split.
  - eapply Hok; vm_compute; reflexivity.
  - match goal with |- is_track_record ?record =>
      destruct (Hshape record _ (Hok sample_track _ record
                                     ltac:(vm_compute; reflexivity)
                                     eq_refl eq_refl)) as [C|C]
    end; [discriminate C|exact C].
Defined.

End SpotifyDataCollectorFacts.

(** ** The transition graph, edge by edge *)

Module TransitionGraphFacts.

Import TransitionModel TransitionModelFacts.
Local Open Scope Q_scope.

(** *** A song compared with itself *)

Lemma similarity_term_refl v : similarity_term v v == 1.
Proof.
  unfold similarity_term.
  setoid_replace (v - v) with 0 by ring.
  change (Qabs 0) with 0. unfold Qdiv. ring.
Qed.

Lemma numeric_terms_refl fs s : Forall (fun t => t == 1) (numeric_terms fs s s).
Proof.
  induction fs as [|f fs IH]; simpl; [constructor|].
  destruct (Qltb 0 (py_max (f s) (f s))); [|exact IH].
  constructor; [apply similarity_term_refl|exact IH].
Qed.

Lemma all_terms_refl s : Forall (fun t => t == 1) (all_terms s s).
Proof.
  apply Forall_app. split; [apply numeric_terms_refl|].
  unfold explicit_term, album_type_term.
  rewrite Bool.eqb_reflx, String.eqb_refl. repeat constructor; reflexivity.
Qed.

Lemma Qsum_ones l :
  Forall (fun t => t == 1) l -> Qsum l == inject_Z (Z.of_nat (List.length l)).
Proof.
  induction 1 as [|t l Ht _ IH]; simpl List.length.
  - reflexivity.
  - rewrite Nat2Z.inj_succ, <- Z.add_1_r, inject_Z_plus.
    change (Qsum (t :: l)) with (t + Qsum l). change (inject_Z 1) with 1. lra.
Qed.

Lemma mean_ones l : l <> [] -> Forall (fun t => t == 1) l -> mean l == 1.
Proof.
  intros Hne H. unfold mean. rewrite (Qsum_ones l H).
  pose proof (length_pos_Q l Hne). field. lra.
Qed.

(** No key of [mood_weights] pairs a mood with itself. *)
Lemma dict_get_off_diagonal d mood default :
  Forall (fun kv => fst (fst kv) <> snd (fst kv)) d ->
  dict_get d (mood, mood) default = default.
Proof.
  induction 1 as [|[[k1 k2] v] d Hk _ IH]; simpl; [reflexivity|].
  destruct (String.eqb_spec k1 mood) as [->|_]; [|exact IH].
  destruct (String.eqb_spec k2 mood) as [->|_]; [|exact IH].
  now contradiction Hk.
Qed.

Lemma base_weight_same mood : base_weight mood mood = 3 # 10.
Proof.
  apply dict_get_off_diagonal. unfold mood_weights.
  repeat (constructor; [discriminate|]). constructor.
Qed.

(** X1.  A song compared with itself has similarity 1, whatever its
    feature values: a feature whose value is zero or negative contributes
    no term, every other term is 1, and so are the two terms of the explicit
    flag and of the album type.  The weight of a transition from a song to
    itself is therefore the default mood affinity, 0.3. *)
Theorem self_similarity (song : Song) :
  exists q w,
    _calculate_feature_similarity song song = Ok q /\ q == 1 /\
    _calculate_transition_weight song song = Ok w /\ w == 3 # 10.
Proof.
  exists (mean (all_terms song song)),
         (base_weight (mood song) (mood song) * mean (all_terms song song)).
  pose proof (mean_ones _ (all_terms_nonempty song song) (all_terms_refl song)) as E.
  repeat split.
  - apply feature_similarity_eq.
  - exact E.
  - unfold _calculate_transition_weight. now rewrite feature_similarity_eq.
  - rewrite E, base_weight_same. ring.
Qed.

(** *** Node identifiers *)

Section NodeIds.

Local Open Scope nat_scope.

(** How many times ["_"] occurs in a string. *)
Fixpoint underscores (s : string) : nat :=
  match s with
  | EmptyString => 0
  | String c rest => (if Ascii.eqb c "_" then 1 else 0) + underscores rest
  end.

Lemma underscores_append s t :
  underscores (s ++ t) = underscores s + underscores t.
Proof. induction s as [|c s IH]; simpl; [reflexivity|rewrite IH; lia]. Qed.

Lemma split_length s : List.length (split "_" s) = S (underscores s).
Proof.
  induction s as [|c s IH]; simpl; [reflexivity|].
  destruct (Ascii.eqb c "_"); simpl; [now rewrite IH|].
  destruct (split "_" s); simpl in *; lia.
Qed.

Lemma split_whole s : underscores s = 0 -> split "_" s = [s].
Proof.
  induction s as [|c s IH]; simpl; [reflexivity|].
  destruct (Ascii.eqb c "_"); [discriminate|]. intro H.
  now rewrite (IH H).
Qed.

Lemma split_append s t :
  underscores s = 0 -> split "_" (s ++ String "_" t) = s :: split "_" t.
Proof.
  induction s as [|c s IH]; simpl; [reflexivity|].
  destruct (Ascii.eqb c "_"); [discriminate|]. intro H.
  now rewrite (IH H).
Qed.

Lemma digits_no_underscore d : underscores (NilEmpty.string_of_uint d) = 0.
Proof. induction d; simpl; auto. Qed.

Lemma underscores_node_id mood cluster :
  underscores (node_id mood cluster) = S (underscores mood).
Proof.
  unfold node_id, str_of_nat.
  rewrite !underscores_append, digits_no_underscore. simpl. lia.
Qed.

Lemma split_pair_node_id mood cluster :
  underscores mood = 0 ->
  split_pair (node_id mood cluster) = Ok (mood, str_of_nat cluster).
Proof.
  intro H. unfold split_pair, node_id.
  change ("_" ++ str_of_nat cluster)%string with (String "_" (str_of_nat cluster)).
  rewrite (split_append _ _ H), split_whole; [reflexivity|].
  apply digits_no_underscore.
Qed.

Lemma split_pair_class s e : split_pair s = Raise e -> exn_class e = ValueError.
Proof.
  unfold split_pair.
  destruct (split "_" s) as [|a [|b [|c l]]]; intros [= <-]; reflexivity.
Qed.

Lemma split_pair_underscores s p : split_pair s = Ok p -> underscores s = 1.
Proof.
  unfold split_pair. pose proof (split_length s) as L.
  destruct (split "_" s) as [|a [|b [|c l]]]; try discriminate.
  simpl in L. intros _. lia.
Qed.

Lemma split_pair_too_many mood cluster :
  underscores mood <> 0 ->
  split_pair (node_id mood cluster)
  = Raise (raised ValueError "too many values to unpack (expected 2)").
Proof.
  intro H. unfold split_pair.
  pose proof (split_length (node_id mood cluster)) as L.
  rewrite underscores_node_id in L.
  destruct (split "_" (node_id mood cluster)) as [|a [|b [|c l]]];
    simpl in L; try reflexivity; lia.
Qed.

End NodeIds.

(** X2.  A node identifier is the mood, an underscore and the cluster
    number.  Splitting it at the underscores gives the mood and the cluster
    number back when the mood holds no underscore; when it holds one, the
    unpacking [mood, cluster = node.split('_')] raises a [ValueError]. *)
Theorem node_id_split (mood : string) (cluster : nat) :
  (underscores mood = 0%nat ->
   split_pair (node_id mood cluster) = Ok (mood, str_of_nat cluster)) /\
  (underscores mood <> 0%nat ->
   exists e, split_pair (node_id mood cluster) = Raise e /\
             exn_class e = ValueError /\
             exn_str e = "too many values to unpack (expected 2)").
Proof.
  split.
  - apply split_pair_node_id.
  - intro H. rewrite (split_pair_too_many _ _ H). eexists. repeat split.
Qed.

(** *** The edges [_build_transition_graph] adds *)

(** [self.graph.nodes[n]['songs'][0]], where it is defined. *)
Definition first_song (N : list (string * NodeData)) (n : string)
  : option Song :=
  match lookup_node N n with
  | Some d => hd_error (songs d)
  | None => None
  end.

(** The edge the loop body adds for the pair ([u], [v]), if any. *)
Definition edge_between (N : list (string * NodeData)) (u v : string)
  : list ((string * string) * Q) :=
  match first_song N u, first_song N v with
  | Some s1, Some s2 =>
      match _calculate_transition_weight s1 s2 with
      | Ok w => if Qltb 0 w then [((u, v), w)] else []
      | Raise _ => []
      end
  | _, _ => []
  end.

(** The pairs in the order of the two loops. *)
Definition transition_edges (N : list (string * NodeData))
  : list ((string * string) * Q) :=
  flat_map (fun u => flat_map (edge_between N u) (map fst N)) (map fst N).

Definition put (E : list ((string * string) * Q)) (e : (string * string) * Q)
  : list ((string * string) * Q) :=
  set_edge E (fst e) (snd e).

Definition with_edges (E : list ((string * string) * Q)) (self : Model)
  : Model :=
  mkModel (mkGraph (nodes (graph self)) E) (rng_draws self).

Lemma with_edges_same self : with_edges (edges (graph self)) self = self.
Proof. now destruct self as [[N E] r]. Qed.

Lemma with_edges_twice E E' self :
  with_edges E' (with_edges E self) = with_edges E' self.
Proof. reflexivity. Qed.

Lemma transition_weight_ok s1 s2 :
  exists w, _calculate_transition_weight s1 s2 = Ok w.
Proof.
  unfold _calculate_transition_weight. rewrite feature_similarity_eq.
  eexists. reflexivity.
Qed.

Lemma node_songs_first self n s :
  first_song (nodes (graph self)) n = Some s ->
  exists l, node_songs n self = (Ok (s :: l), self).
Proof.
  unfold first_song, node_songs, bind, get. 
  destruct (lookup_node (nodes (graph self)) n) as [d|]; [|discriminate].
  destruct (songs d) as [|s0 l] eqn:E; [discriminate|].
  intros [= ->]. exists l. reflexivity.
Qed.

(** One round of the inner loop. *)
Lemma add_transition_run self u v s1 s2 :
  first_song (nodes (graph self)) u = Some s1 ->
  first_song (nodes (graph self)) v = Some s2 ->
  add_transition u v self =
  match split_pair v with
  | Ok _ =>
      (Ok tt, with_edges (fold_left put (edge_between (nodes (graph self)) u v)
                                    (edges (graph self))) self)
  | Raise e => (Raise e, self)
  end.
Proof.
  intros H1 H2. unfold add_transition, edge_between. rewrite H1, H2.
  unfold bind at 1, lift at 1.
  destruct (split_pair v) as [p|e]; [|reflexivity].
  destruct (node_songs_first _ _ _ H1) as (l1 & E1).
  destruct (node_songs_first _ _ _ H2) as (l2 & E2).
  unfold bind at 1. rewrite E1. unfold bind at 1, lift at 1. cbn [first].
  unfold bind at 1. rewrite E2. unfold bind at 1, lift at 1. cbn [first].
  unfold bind, lift.
  destruct (transition_weight_ok s1 s2) as (w & ->).
  destruct (Qltb 0 w); cbn [fold_left].
  - reflexivity.
  - unfold ret. now rewrite with_edges_same.
Qed.

Definition splits (v : string) : Prop := exists p, split_pair v = Ok p.

Definition has_songs (N : list (string * NodeData)) (v : string) : Prop :=
  exists s, first_song N v = Some s.

Lemma inner_run N u vs : forall self,
  nodes (graph self) = N -> has_songs N u ->
  Forall (has_songs N) vs -> Forall splits vs ->
  for_each vs (add_transition u) self
  = (Ok tt, with_edges (fold_left put (flat_map (edge_between N u) vs)
                                  (edges (graph self))) self).
Proof.
  induction vs as [|v vs IH]; intros self HN Hu Hvs Hsp.
  - simpl. unfold ret. now rewrite with_edges_same.
  - inversion Hvs as [|? ? [s2 Hv] Hvs']; inversion Hsp as [|? ? [p Hp] Hsp']; subst.
    destruct Hu as [s1 Hu'].
    cbn [for_each]. unfold bind.
    rewrite (add_transition_run self u v s1 s2 Hu' Hv), Hp.
    rewrite IH; try assumption; [|reflexivity|now exists s1].
    cbn [flat_map]. rewrite fold_left_app. reflexivity.
Qed.

Lemma inner_raises N u vs : forall self,
  nodes (graph self) = N -> has_songs N u ->
  Forall (has_songs N) vs -> Exists (fun v => ~ splits v) vs ->
  exists e self',
    for_each vs (add_transition u) self = (Raise e, self') /\
    exn_class e = ValueError /\ nodes (graph self') = N.
Proof.
  induction vs as [|v vs IH]; intros self HN Hu Hvs Hbad.
  - inversion Hbad.
  - inversion Hvs as [|? ? [s2 Hv] Hvs']; subst.
    destruct Hu as [s1 Hu'].
    cbn [for_each]. unfold bind.
    rewrite (add_transition_run self u v s1 s2 Hu' Hv).
    destruct (split_pair v) as [p|e] eqn:Ep.
    + apply IH; try assumption; [reflexivity|now exists s1|].
      inversion Hbad as [? ? Hb|? ? Hb]; subst; [|exact Hb].
      exfalso. apply Hb. now exists p.
    + exists e, self. repeat split. now apply split_pair_class in Ep.
Qed.

(** The body of the outer loop. *)
Definition transitions_from (graph_nodes : list string) (node1 : string)
  : M Model unit :=
  (_ <- lift (split_pair node1) ;;
   for_each graph_nodes (add_transition node1))%monad.

Lemma add_transitions_eq self :
  add_transitions self
  = for_each (node_ids (graph self))
             (transitions_from (node_ids (graph self))) self.
Proof. reflexivity. Qed.

Lemma outer_run N ids us : forall self,
  nodes (graph self) = N ->
  Forall (has_songs N) ids -> Forall splits ids ->
  Forall (has_songs N) us -> Forall splits us ->
  for_each us (transitions_from ids) self
  = (Ok tt,
     with_edges
       (fold_left put (flat_map (fun u => flat_map (edge_between N u) ids) us)
                  (edges (graph self))) self).
Proof.
  induction us as [|u us IH]; intros self HN Hids Hsp Hus Hsu.
  - simpl. unfold ret. now rewrite with_edges_same.
  - inversion Hus as [|? ? Hu Hus']; inversion Hsu as [|? ? [p Hp] Hsu']; subst.
    cbn [for_each]. unfold bind at 1, transitions_from at 1.
    unfold bind at 1, lift at 1. rewrite Hp.
    rewrite (inner_run (nodes (graph self)) u ids self eq_refl Hu Hids Hsp).
    rewrite IH; try assumption; [|reflexivity].
    cbn [flat_map]. rewrite fold_left_app. reflexivity.
Qed.

Lemma outer_raises N ids u us self :
  nodes (graph self) = N ->
  Forall (has_songs N) ids -> has_songs N u ->
  Exists (fun v => ~ splits v) ids ->
  exists e self',
    for_each (u :: us) (transitions_from ids) self = (Raise e, self') /\
    exn_class e = ValueError /\ nodes (graph self') = N.
Proof.
  intros HN Hids Hu Hbad.
  cbn [for_each]. unfold bind at 1, transitions_from at 1.
  unfold bind at 1, lift at 1.
  destruct (split_pair u) as [p|e] eqn:Ep.
  - destruct (inner_raises N u ids self HN Hu Hids Hbad) as (e & self' & -> & He).
    exists e, self'. auto.
  - exists e, self. repeat split; [|exact HN]. now apply split_pair_class in Ep.
Qed.

(** Keys that are not yet there go last. *)
Lemma set_edge_fresh E k w :
  ~ In k (map fst E) -> set_edge E k w = E ++ [(k, w)].
Proof.
  induction E as [|[k0 w0] E IH]; simpl; intro H; [reflexivity|].
  destruct (edge_eqb k0 k) eqn:Ek.
  - exfalso. apply H. left. unfold edge_eqb in Ek.
    apply andb_true_iff in Ek. destruct Ek as [E1 E2].
    apply String.eqb_eq in E1, E2. destruct k0, k. simpl in *. congruence.
  - f_equal. apply IH. tauto.
Qed.

Lemma put_fresh L : forall E,
  NoDup (map fst (E ++ L)) -> fold_left put L E = E ++ L.
Proof.
  induction L as [|[k w] L IH]; intros E H; simpl.
  - now rewrite app_nil_r.
  - unfold put at 2. simpl. rewrite set_edge_fresh.
    + rewrite IH; rewrite <- app_assoc; [reflexivity|exact H].
    + rewrite map_app in H. simpl in H. apply NoDup_remove_2 in H.
      intro Hin. apply H, in_or_app. now left.
Qed.

Lemma NoDup_flat_map_tagged {A K V T} (f : A -> list (K * V)) (tag : K -> T)
      (label : A -> T) xs :
  (forall x e, In e (f x) -> tag (fst e) = label x) ->
  (forall x, NoDup (map fst (f x))) ->
  NoDup (map label xs) ->
  NoDup (map fst (flat_map f xs)).
Proof.
  intros Htag Hf. induction xs as [|x xs IH]; intro Hnd; simpl; [constructor|].
  inversion Hnd as [|? ? Hx Hnd']; subst.
  rewrite map_app. apply NoDup_app; [apply Hf|now apply IH|].
  intros k H1 H2.
  apply in_map_iff in H1. destruct H1 as (e1 & <- & H1).
  apply in_map_iff in H2. destruct H2 as (e2 & E & H2).
  apply in_flat_map in H2. destruct H2 as (x' & Hx' & H2).
  apply Hx. rewrite <- (Htag x e1 H1), <- E, (Htag x' e2 H2).
  now apply in_map.
Qed.

Lemma edge_between_key N u v e : In e (edge_between N u v) -> fst e = (u, v).
Proof.
  unfold edge_between.
  destruct (first_song N u), (first_song N v); try contradiction.
  destruct (_calculate_transition_weight s s0); [|contradiction].
  destruct (Qltb 0 a); [|contradiction].
  intros [<-|[]]. reflexivity.
Qed.

Lemma edge_between_NoDup N u v : NoDup (map fst (edge_between N u v)).
Proof.
  unfold edge_between.
  destruct (first_song N u), (first_song N v); try constructor.
  destruct (_calculate_transition_weight s s0); [|constructor].
  destruct (Qltb 0 a); repeat constructor. intros [].
Qed.

Lemma transition_edges_NoDup N :
  NoDup (map fst N) -> NoDup (map fst (transition_edges N)).
Proof.
  intro H. unfold transition_edges.
  apply (NoDup_flat_map_tagged _ fst (fun u => u)); [| |now rewrite map_id].
  - intros u e He. apply in_flat_map in He. destruct He as (v & _ & He).
    now rewrite (edge_between_key _ _ _ _ He).
  - intro u. apply (NoDup_flat_map_tagged _ snd (fun v => v));
      [| |now rewrite map_id].
    + intros v e He. now rewrite (edge_between_key _ _ _ _ He).
    + intro v. apply edge_between_NoDup.
Qed.

Lemma splits_or_not ids :
  Forall splits ids \/ Exists (fun v => ~ splits v) ids.
Proof.
  induction ids as [|v ids [IH|IH]].
  - left. constructor.
  - destruct (split_pair v) as [p|e] eqn:E.
    + left. constructor; [now exists p|exact IH].
    + right. left. intros [p Hp]. congruence.
  - right. now right.
Qed.

Lemma has_songs_nodes N :
  Forall (fun nd => songs (snd nd) <> []) N -> Forall (has_songs N) (map fst N).
Proof.
  intro H. apply Forall_forall. intros n Hn.
  destruct (lookup_node_In _ _ Hn) as (d & E & Hin).
  pose proof (proj1 (Forall_forall _ _) H _ Hin) as Hd. simpl in Hd.
  unfold has_songs, first_song. rewrite E.
  destruct (songs d) as [|s l]; [congruence|]. now exists s.
Qed.

(** What the second half of [_build_transition_graph] makes of a graph
    whose nodes all hold songs and which has no edge yet. *)
Lemma add_transitions_cases self :
  Forall (fun nd => songs (snd nd) <> []) (nodes (graph self)) ->
  NoDup (node_ids (graph self)) ->
  edges (graph self) = [] ->
  (Forall splits (node_ids (graph self)) /\
   add_transitions self
   = (Ok tt, with_edges (transition_edges (nodes (graph self))) self)) \/
  (Exists (fun v => ~ splits v) (node_ids (graph self)) /\
   exists e self',
     add_transitions self = (Raise e, self') /\
     exn_class e = ValueError /\ nodes (graph self') = nodes (graph self)).
Proof.
  intros Hs Hnd He. rewrite add_transitions_eq.
  pose proof (has_songs_nodes _ Hs) as Hall. fold (node_ids (graph self)) in Hall.
  destruct (splits_or_not (node_ids (graph self))) as [Hsp|Hbad].
  - left. split; [exact Hsp|].
    rewrite (outer_run (nodes (graph self)) _ _ self eq_refl Hall Hsp Hall Hsp).
    rewrite He, put_fresh; [reflexivity|].
    now apply transition_edges_NoDup.
  - right. split; [exact Hbad|].
    destruct (node_ids (graph self)) as [|u us] eqn:Eids; [inversion Hbad|].
    apply (outer_raises (nodes (graph self))); auto.
    now inversion Hall.
Qed.

Section Labelled.

Local Open Scope nat_scope.

Lemma set_cluster_column_ok dataset : forall labels,
  List.length labels = List.length dataset ->
  set_cluster_column dataset labels = Ok (tag_clusters dataset labels).
Proof.
  induction dataset as [|s dataset IH]; intros [|c labels] L; simpl in L;
    try discriminate; [reflexivity|].
  simpl. rewrite IH by lia. reflexivity.
Qed.

Lemma train_run {Scaled} (sc : list (list Q) -> Result Scaled) km
      dataset x labels self :
  sc (feature_matrix dataset) = Ok x -> km x = Ok labels ->
  List.length labels = List.length dataset ->
  train sc km dataset self
  = add_transitions (with_group_nodes (tag_clusters dataset labels) self).
Proof.
  intros Hx Hl L. unfold train, bind, lift.
  rewrite Hx, Hl, (set_cluster_column_ok _ _ L).
  apply build_transition_graph_eq.
Qed.

Variable rows : list Song.
Hypothesis rows_clusters : Forall (fun s => cluster s < 5) rows.

Let N := map group_node (groupby rows).

Lemma grouped_nodes : nodes (graph (with_group_nodes rows __init__)) = N.
Proof. unfold with_group_nodes. simpl. now apply fresh_nodes. Qed.

Lemma grouped_ids n :
  In n (map fst N) <->
  exists r, In r rows /\ n = node_id (mood r) (cluster r).
Proof.
  unfold N. rewrite groupby_eq, !map_map. simpl. rewrite in_map_iff. split.
  - intros ([m c] & <- & Hk). apply group_keys_In in Hk.
    destruct Hk as (r & Hr & E). exists r. split; [exact Hr|].
    now inversion E.
  - intros (r & Hr & ->). exists (key_of r). split; [reflexivity|].
    apply group_keys_In. eauto.
Qed.

Lemma grouped_songs : Forall (fun nd => songs (snd nd) <> []) N.
Proof.
  eapply Forall_impl; [|apply (trained_nodes_ok rows rows_clusters)].
  intros nd H. apply H.
Qed.

Lemma grouped_NoDup : NoDup (map fst N).
Proof. unfold N. rewrite map_map. now apply group_ids_NoDup. Qed.

Lemma grouped_splits :
  Forall (fun s => underscores (mood s) = 0) rows -> Forall splits (map fst N).
Proof.
  intro H. apply Forall_forall. intros n Hn.
  apply grouped_ids in Hn. destruct Hn as (r & Hr & ->).
  exists (mood r, str_of_nat (cluster r)). apply split_pair_node_id.
  exact (proj1 (Forall_forall _ _) H r Hr).
Qed.

Lemma grouped_bad :
  Exists (fun s => underscores (mood s) <> 0) rows ->
  Exists (fun v => ~ splits v) (map fst N).
Proof.
  intro H. apply Exists_exists in H. destruct H as (r & Hr & Hbad).
  apply Exists_exists. exists (node_id (mood r) (cluster r)). split.
  - apply grouped_ids. eauto.
  - intros [p Hp]. apply split_pair_underscores in Hp.
    rewrite underscores_node_id in Hp. lia.
Qed.

(** The outcome of the second half of [_build_transition_graph] on the
    nodes of the groups. *)
Lemma grouped_cases :
  let self := with_group_nodes rows __init__ in
  (Forall splits (map fst N) /\
   add_transitions self = (Ok tt, with_edges (transition_edges N) self)) \/
  (Exists (fun v => ~ splits v) (map fst N) /\
   exists e self',
     add_transitions self = (Raise e, self') /\
     exn_class e = ValueError /\ nodes (graph self') = N).
Proof.
  intro self.
  destruct (add_transitions_cases self) as [H|H].
  - unfold self. rewrite grouped_nodes. apply grouped_songs.
  - unfold node_ids, self. rewrite grouped_nodes. apply grouped_NoDup.
  - reflexivity.
  - left. unfold node_ids, self in H. rewrite grouped_nodes in H. exact H.
  - right. unfold node_ids, self in H. rewrite grouped_nodes in H. exact H.
Qed.

End Labelled.

Lemma tag_clusters_moods (P : string -> Prop) dataset labels :
  List.length labels = List.length dataset ->
  (Forall (fun s => P (mood s)) (tag_clusters dataset labels) <->
   Forall (fun s => P (mood s)) dataset).
Proof.
  intro L. rewrite <- !(Forall_map mood P).
  unfold tag_clusters. now rewrite combine_moods.
Qed.

Lemma tag_clusters_bad (P : string -> Prop) dataset labels :
  List.length labels = List.length dataset ->
  Exists (fun s => P (mood s)) dataset ->
  Exists (fun s => P (mood s)) (tag_clusters dataset labels).
Proof.
  intros L H. apply Exists_exists in H. destruct H as (s & Hs & HP).
  assert (Hin : In (mood s) (map mood (tag_clusters dataset labels))).
  { unfold tag_clusters. rewrite combine_moods by exact L. now apply in_map. }
  apply in_map_iff in Hin. destruct Hin as (r & E & Hr).
  apply Exists_exists. exists r. split; [exact Hr|]. now rewrite E.
Qed.

(** The graph of a newly trained model. *)
Lemma trained_edges {Scaled} (sc : list (list Q) -> Result Scaled)
      km dataset self' :
  five_clusters km ->
  train sc km dataset __init__ = (Ok tt, self') ->
  edges (graph self') = transition_edges (nodes (graph self')) /\
  NoDup (map fst (nodes (graph self'))) /\
  Forall (fun nd => songs (snd nd) <> []) (nodes (graph self')).
Proof.
  intros Hkm Htrain.
  destruct (train_cases sc km dataset __init__)
    as [[e E]|(x & labels & rows & Hx & Hl & Hrows & E)]; [congruence|].
  apply set_cluster_column_spec in Hrows. destruct Hrows as [Hlen ->].
  fold (tag_clusters dataset labels) in E.
  assert (Hc : Forall (fun s => (cluster s < 5)%nat) (tag_clusters dataset labels))
    by (apply combine_clusters; eapply Hkm, Hl).
  rewrite E, build_transition_graph_eq in Htrain.
  destruct (grouped_cases _ Hc) as [[_ H]|[_ (e & s & H & _)]];
    rewrite H in Htrain; [|discriminate].
  injection Htrain as <-. cbn [with_edges graph nodes edges].
  rewrite (grouped_nodes _ Hc).
  split; [reflexivity|]. split; [now apply grouped_NoDup|now apply grouped_songs].
Qed.

Lemma first_song_node N n s : first_song N n = Some s -> In n (map fst N).
Proof.
  unfold first_song. induction N as [|[k d] N IH]; simpl; [discriminate|].
  destruct (String.eqb_spec k n) as [->|_]; [now left|]. intro H. right. auto.
Qed.

Lemma transition_edges_In N u v w :
  In ((u, v), w) (transition_edges N) <->
  exists s1 s2, first_song N u = Some s1 /\ first_song N v = Some s2 /\
                _calculate_transition_weight s1 s2 = Ok w /\ 0 < w.
Proof.
  unfold transition_edges. rewrite in_flat_map. split.
  - intros (u' & _ & H). apply in_flat_map in H. destruct H as (v' & _ & H).
    pose proof (edge_between_key _ _ _ _ H) as K. simpl in K.
    injection K as -> ->. unfold edge_between in H.
    destruct (first_song N u') as [s1|]; [|contradiction].
    destruct (first_song N v') as [s2|]; [|contradiction].
    destruct (_calculate_transition_weight s1 s2) as [w'|] eqn:Ew; [|contradiction].
    destruct (Qltb 0 w') eqn:Epos; [|contradiction].
    destruct H as [[= <-]|[]]. exists s1, s2. repeat split; auto.
    now apply Qltb_lt.
  - intros (s1 & s2 & H1 & H2 & Hw & Hpos).
    exists u. split; [eapply first_song_node, H1|].
    apply in_flat_map. exists v. split; [eapply first_song_node, H2|].
    unfold edge_between. rewrite H1, H2, Hw.
    apply Qltb_lt in Hpos. rewrite Hpos. now left.
Qed.

(** X3.  After a successful training of a new model there is an edge from
    node [u] to node [v] exactly when the transition weight of the first
    song of [u] and the first song of [v] is positive, and that weight is
    the edge's weight; no ordered pair of nodes has two edges.  The other
    songs of the two nodes play no part. *)
Theorem transition_edges_exact {Scaled} (sc : list (list Q) -> Result Scaled)
        km dataset self' :
  five_clusters km ->
  train sc km dataset __init__ = (Ok tt, self') ->
  NoDup (map fst (edges (graph self'))) /\
  forall u v w,
    In ((u, v), w) (edges (graph self')) <->
    exists s1 s2,
      first_song (nodes (graph self')) u = Some s1 /\
      first_song (nodes (graph self')) v = Some s2 /\
      _calculate_transition_weight s1 s2 = Ok w /\ 0 < w.
Proof.
  intros Hkm Htrain.
  destruct (trained_edges sc km dataset self' Hkm Htrain) as (-> & Hnd & _).
  split; [now apply transition_edges_NoDup|].
  intros u v w. apply transition_edges_In.
Qed.

(** X4.  After a successful training of a new model every node has an
    edge to itself, of weight 0.3. *)
Theorem trained_self_loops {Scaled} (sc : list (list Q) -> Result Scaled)
        km dataset self' :
  five_clusters km ->
  train sc km dataset __init__ = (Ok tt, self') ->
  forall n, In n (node_ids (graph self')) ->
            exists w, In ((n, n), w) (edges (graph self')) /\ w == 3 # 10.
Proof.
  intros Hkm Htrain n Hn.
  destruct (trained_edges sc km dataset self' Hkm Htrain) as (-> & _ & Hs).
  pose proof (proj1 (Forall_forall _ _) (has_songs_nodes _ Hs) n Hn) as [s Hsong].
  exists (base_weight (mood s) (mood s) * mean (all_terms s s)).
  assert (E : base_weight (mood s) (mood s) * mean (all_terms s s) == 3 # 10).
  { rewrite (mean_ones _ (all_terms_nonempty s s) (all_terms_refl s)),
      base_weight_same. ring. }
  split; [|exact E].
  apply transition_edges_In. exists s, s. repeat split; auto.
  - unfold _calculate_transition_weight. now rewrite feature_similarity_eq.
  - rewrite E. reflexivity.
Qed.

(** X5.  Training a new model succeeds when the scaler and the clustering
    succeed, the clustering returns one label below 5 for every row, and no
    mood label holds an underscore. *)
Theorem train_succeeds {Scaled} (sc : list (list Q) -> Result Scaled)
        km dataset x labels :
  sc (feature_matrix dataset) = Ok x -> km x = Ok labels ->
  List.length labels = List.length dataset ->
  Forall (fun c => (c < 5)%nat) labels ->
  Forall (fun s => underscores (mood s) = 0%nat) dataset ->
  exists self', train sc km dataset __init__ = (Ok tt, self').
Proof.
  intros Hx Hl L Hc Hm.
  rewrite (train_run sc km dataset x labels __init__ Hx Hl L).
  assert (Hrows : Forall (fun s => (cluster s < 5)%nat) (tag_clusters dataset labels))
    by now apply combine_clusters.
  destruct (grouped_cases _ Hrows) as [[_ H]|[Hbad _]].
  - eexists. exact H.
  - exfalso.
    assert (Hsp : Forall splits
                    (map fst (map group_node (groupby (tag_clusters dataset labels))))).
    { apply grouped_splits.
      now apply (tag_clusters_moods (fun m => underscores m = 0%nat)). }
    apply Exists_exists in Hbad. destruct Hbad as (v & Hv & Hno).
    apply Hno. exact (proj1 (Forall_forall _ _) Hsp v Hv).
Qed.

(** X6.  A mood label that holds an underscore makes training fail: with
    a scaler and a clustering that succeed, [train] raises the [ValueError]
    of the unpacking [mood, cluster = node.split('_')], and it does so only
    after it has added the nodes to the graph. *)
Theorem train_rejects_underscore {Scaled} (sc : list (list Q) -> Result Scaled)
        km dataset x labels :
  sc (feature_matrix dataset) = Ok x -> km x = Ok labels ->
  List.length labels = List.length dataset ->
  Forall (fun c => (c < 5)%nat) labels ->
  Exists (fun s => underscores (mood s) <> 0%nat) dataset ->
  exists e self',
    train sc km dataset __init__ = (Raise e, self') /\
    exn_class e = ValueError /\
    nodes (graph self')
    = map group_node (groupby (tag_clusters dataset labels)) /\
    nodes (graph self') <> [].
Proof.
  intros Hx Hl L Hc Hm.
  rewrite (train_run sc km dataset x labels __init__ Hx Hl L).
  assert (Hrows : Forall (fun s => (cluster s < 5)%nat) (tag_clusters dataset labels))
    by now apply combine_clusters.
  pose proof (grouped_bad _ (tag_clusters_bad (fun m => underscores m <> 0%nat)
                                              _ _ L Hm)) as Hbad.
  destruct (grouped_cases _ Hrows) as [[Hsp _]|[_ (e & self' & H & He & Hn)]].
  - exfalso. apply Exists_exists in Hbad. destruct Hbad as (v & Hv & Hno).
    apply Hno. exact (proj1 (Forall_forall _ _) Hsp v Hv).
  - exists e, self'. repeat split; try assumption.
    rewrite Hn. intro Hnil. rewrite Hnil in Hbad. inversion Hbad.
Qed.

(** *** Training again *)

Lemma set_node_ids l n d : incl (map fst l) (map fst (set_node l n d)).
Proof.
  induction l as [|[k d0] l IH]; simpl; [intros x []|].
  destruct (String.eqb k n); simpl.
  - apply incl_refl.
  - intros x [<-|Hx]; [now left|right; now apply IH].
Qed.

Lemma set_edge_keys E k w : incl (map fst E) (map fst (set_edge E k w)).
Proof.
  induction E as [|[k0 w0] E IH]; simpl; [intros x []|].
  destruct (edge_eqb k0 k); simpl.
  - apply incl_refl.
  - intros x [<-|Hx]; [now left|right; now apply IH].
Qed.

Lemma add_group_nodes_ids groups : forall l,
  incl (map fst l) (map fst (add_group_nodes groups l)).
Proof.
  induction groups as [|g groups IH]; intro l; [apply incl_refl|].
  unfold add_group_nodes in *. simpl.
  eapply incl_tran; [apply set_node_ids|apply IH].
Qed.

(** X7.  Training only adds to the graph: the nodes and the edges that
    are there before [train] are still there afterwards, whether it returns
    or raises.  A model that is trained a second time keeps the nodes of the
    first training. *)
Theorem train_only_adds {Scaled} (sc : list (list Q) -> Result Scaled)
        km dataset self :
  incl (node_ids (graph self))
       (node_ids (graph (snd (train sc km dataset self)))) /\
  incl (map fst (edges (graph self)))
       (map fst (edges (graph (snd (train sc km dataset self))))).
Proof.
  set (P := fun s : Model =>
              incl (node_ids (graph self)) (node_ids (graph s)) /\
              incl (map fst (edges (graph self))) (map fst (edges (graph s)))).
  change (P (snd (train sc km dataset self))).
  destruct (train_cases sc km dataset self)
    as [[e ->]|(x & labels & rows & _ & _ & _ & ->)].
  - split; apply incl_refl.
  - rewrite build_transition_graph_eq. apply add_transitions_preserves.
    + intros node1 node2 s w s1 s2 _ _ [Hn He]. split; [exact Hn|].
      simpl. eapply incl_tran; [exact He|apply set_edge_keys].
    + split; [|apply incl_refl]. unfold with_group_nodes, node_ids. simpl.
      apply add_group_nodes_ids.
Qed.

(** *** On concrete data *)

Lemma transition_edges_exact_witness :
  NoDup (map fst (edges (graph friendly_model))) /\
  forall u v w,
    In ((u, v), w) (edges (graph friendly_model)) <->
    exists s1 s2,
      first_song (nodes (graph friendly_model)) u = Some s1 /\
      first_song (nodes (graph friendly_model)) v = Some s2 /\
      _calculate_transition_weight s1 s2 = Ok w /\ 0 < w.
Proof.
  exact (transition_edges_exact no_scaling one_cluster friendly_dataset
                                friendly_model one_cluster_five friendly_trained).
Defined.

Lemma trained_self_loops_witness :
  exists w, In (("sad_0", "sad_0"), w) (edges (graph friendly_model)) /\
            w == 3 # 10.
Proof.
  apply (trained_self_loops no_scaling one_cluster friendly_dataset
                            friendly_model one_cluster_five friendly_trained).
  vm_compute. auto.
Defined.

Lemma train_succeeds_witness :
  exists self',
    train no_scaling one_cluster friendly_dataset __init__ = (Ok tt, self').
Proof.
  apply (train_succeeds no_scaling one_cluster friendly_dataset
                        (feature_matrix friendly_dataset) [0%nat; 0%nat]);
    try reflexivity; repeat constructor.
Defined.

(** A mood label written with an underscore. *)
Definition underscored_dataset : list Song :=
  [ example_song "Blue" "sad" 200000 false "album";
    example_song "Walk" "feel_good" 180000 false "album" ].

Lemma train_rejects_underscore_witness :
  exists e self',
    train no_scaling one_cluster underscored_dataset __init__ = (Raise e, self') /\
    exn_class e = ValueError /\
    nodes (graph self')
    = map group_node (groupby (tag_clusters underscored_dataset [0%nat; 0%nat])) /\
    nodes (graph self') <> [].
Proof.
  apply (train_rejects_underscore no_scaling one_cluster underscored_dataset
                                  (feature_matrix underscored_dataset));
    try reflexivity; [repeat constructor|].
  right. left. discriminate.
Defined.

End TransitionGraphFacts.

(** ** Playlists, track by track *)

Module PlaylistFacts.

Import TransitionModel TransitionModelFacts.
Local Open Scope Q_scope.

(** *** Computations that only read the model *)

Definition reads_only {S A} (c : M S A) : Prop := forall s, snd (c s) = s.

Lemma reads_only_ret {S A} (a : A) : reads_only (@ret S A a).
Proof. intro s. reflexivity. Qed.

Lemma reads_only_raise {S A} e : reads_only (@raise S A e).
Proof. intro s. reflexivity. Qed.

Lemma reads_only_lift {S A} (r : Result A) : reads_only (@lift S A r).
Proof. intro s. reflexivity. Qed.

Lemma reads_only_get {S} : reads_only (@get S).
Proof. intro s. reflexivity. Qed.

Lemma reads_only_bind {S A B} (c : M S A) (k : A -> M S B) :
  reads_only c -> (forall a, reads_only (k a)) -> reads_only (bind c k).
Proof.
  intros Hc Hk s. unfold bind. specialize (Hc s).
  destruct (c s) as [[a|e] s1]; simpl in Hc; subst s1; [apply Hk|reflexivity].
Qed.

Lemma reads_only_try_catch {S A} (body : M S A) handler :
  reads_only body -> (forall e, reads_only (handler e)) ->
  reads_only (try_catch body handler).
Proof.
  intros Hb Hh s. unfold try_catch. specialize (Hb s).
  destruct (body s) as [[a|e] s1]; simpl in Hb; subst s1; [reflexivity|apply Hh].
Qed.

Lemma reads_only_fold_m {S X B} (xs : list X) (body : X -> B -> M S B) :
  (forall x b, reads_only (body x b)) -> forall b, reads_only (fold_m xs body b).
Proof.
  intro Hb. induction xs as [|x xs IH]; intro b; simpl.
  - apply reads_only_ret.
  - apply reads_only_bind; [apply Hb|exact IH].
Qed.

Lemma reads_only_node_songs n : reads_only (node_songs n).
Proof.
  unfold node_songs. apply reads_only_bind; [apply reads_only_get|].
  intro self. destruct (lookup_node _ _); [apply reads_only_ret|apply reads_only_raise].
Qed.

Lemma reads_only_path_duration_loop path :
  forall total, reads_only (path_duration_loop path total).
Proof.
  induction path as [|n path IH]; intro total; simpl.
  - apply reads_only_ret.
  - apply reads_only_bind; [apply reads_only_node_songs|]. intro l.
    destruct (is_empty l); [apply IH|].
    apply reads_only_bind; [apply reads_only_lift|]. intro avg. apply IH.
Qed.

Lemma reads_only_try_path sp target s e best :
  reads_only (try_path sp target s e best).
Proof.
  unfold try_path. apply reads_only_try_catch.
  - apply reads_only_bind; [apply reads_only_get|]. intro self.
    apply reads_only_bind; [apply reads_only_lift|]. intro path.
    apply reads_only_bind; [apply reads_only_path_duration_loop|]. intro d.
    destruct (closer _ _ _); apply reads_only_ret.
  - intro ex. destruct (is_no_path ex); [apply reads_only_ret|apply reads_only_raise].
Qed.

Lemma reads_only_find_best_path sp target starts ends :
  reads_only (find_best_path sp target starts ends).
Proof.
  unfold find_best_path. apply reads_only_fold_m. intros s best.
  apply reads_only_fold_m. intros e best'. apply reads_only_try_path.
Qed.

(** *** The walk along the best path *)

(** [song] is one of the songs of node [n]. *)
Definition song_at (g : Graph) (song : Song) (n : string) : Prop :=
  exists d, lookup_node (nodes g) n = Some d /\ In song (songs d).

Definition durations (playlist : list Song) : list Q := map duration_ms playlist.

Lemma lookup_node_data l n d : lookup_node l n = Some d -> In (n, d) l.
Proof.
  induction l as [|[k d0] l IH]; simpl; [discriminate|].
  destruct (String.eqb_spec k n) as [->|_].
  - intros [= ->]. now left.
  - intro H. right. auto.
Qed.

Lemma np_random_choice_spec rnd l self song self' :
  np_random_choice rnd l self = (Ok song, self') ->
  In song l /\ graph self' = graph self /\
  rng_draws self' = S (rng_draws self).
Proof.
  unfold np_random_choice. destruct l as [|d l]; [discriminate|].
  remember (d :: l) as l0 eqn:El.
  unfold bind, get, modify, ret. intros [= <- <-].
  split; [|split; reflexivity].
  apply nth_In, Nat.mod_upper_bound. subst l0. discriminate.
Qed.

Lemma np_random_choice_frame rnd l self :
  graph (snd (np_random_choice rnd l self)) = graph self.
Proof.
  unfold np_random_choice. destruct l as [|d l]; reflexivity.
Qed.

Lemma Qsum_snoc l x : Qsum (l ++ [x]) == Qsum l + x.
Proof.
  induction l as [|y l IH]; simpl.
  - ring.
  - rewrite IH. ring.
Qed.

Lemma walk_spec rnd target path : forall playlist0 d0 self playlist self',
  walk rnd target path playlist0 d0 self = (Ok playlist, self') ->
  exists picked,
    playlist = playlist0 ++ picked /\
    graph self' = graph self /\
    rng_draws self' = (rng_draws self + List.length picked)%nat /\
    (forall k, (0 < k < List.length picked)%nat ->
               d0 + Qsum (durations (firstn k picked)) < target) /\
    (songs_nonempty (graph self) ->
     (List.length picked <= List.length path)%nat /\
     Forall2 (song_at (graph self)) picked (firstn (List.length picked) path) /\
     (path <> [] -> picked <> []) /\
     ((List.length picked < List.length path)%nat ->
      target <= d0 + Qsum (durations picked))).
Proof.
  induction path as [|n path IH]; intros pl0 d0 self pl self' H.
  - simpl in H. injection H as <- <-. exists []. rewrite app_nil_r.
    repeat split; simpl; try lia; try constructor; try congruence.
  - cbn [walk] in H. unfold bind at 1 in H.
    pose proof (reads_only_node_songs n self) as Hr.
    destruct (node_songs n self) as [[l|e] s1] eqn:En; simpl in Hr; subst s1;
      [|discriminate].
    assert (Hl : exists d, lookup_node (nodes (graph self)) n = Some d /\ songs d = l).
    { unfold node_songs, bind, get in En.
      destruct (lookup_node (nodes (graph self)) n) as [d|]; [|discriminate].
      injection En as <-. eauto. }
    destruct Hl as (d & Hd & Hsongs).
    destruct (is_empty l) eqn:Eempty.
    + destruct (IH _ _ _ _ _ H) as (picked & -> & Hg & Hdraws & Hshort & Hrest).
      exists picked. split; [reflexivity|]. split; [exact Hg|].
      split; [exact Hdraws|]. split; [exact Hshort|].
      intro Hne. exfalso. destruct l; [|discriminate].
      apply lookup_node_data in Hd.
      apply (proj1 (Forall_forall _ _) Hne) in Hd. simpl in Hd. congruence.
    + unfold bind at 1 in H.
      destruct (np_random_choice rnd l self) as [[song|e] s1] eqn:Ec; [|discriminate].
      apply np_random_choice_spec in Ec. destruct Ec as (Hin & Hg1 & Hdraw1).
      assert (Hat : song_at (graph self) song n).
      { exists d. split; [exact Hd|]. now rewrite Hsongs. }
      destruct (Qle_bool target (d0 + duration_ms song)) eqn:Estop.
      * injection H as <- <-. exists [song]. apply Qle_bool_iff in Estop.
        repeat split; try assumption; simpl; try lia; try congruence.
        -- repeat constructor. exact Hat.
        -- intros _. unfold durations. simpl. lra.
      * destruct (IH _ _ _ _ _ H) as (picked & -> & Hg & Hdraws & Hshort & Hrest).
        assert (Hlt : d0 + duration_ms song < target).
        { apply Qnot_le_lt. intro Hle. apply Qle_bool_iff in Hle. congruence. }
        exists (song :: picked). rewrite <- app_assoc. simpl.
        split; [reflexivity|]. split; [congruence|]. split; [lia|]. split.
        -- intros k Hk. destruct k as [|k]; [lia|]. simpl.
           destruct k as [|k].
           ++ simpl. unfold durations. simpl. lra.
           ++ assert (Hk' : (0 < S k < List.length picked)%nat) by lia.
              specialize (Hshort _ Hk'). unfold durations in *. simpl in *. lra.
        -- intro Hne. rewrite Hg1 in Hrest. destruct (Hrest Hne) as (Hlen & Hall & _ & Hend).
           split; [lia|]. split; [constructor; assumption|].
           split; [congruence|]. intro Hlen'.
           assert (Hl' : (List.length picked < List.length path)%nat) by lia.
           specialize (Hend Hl'). unfold durations in *. simpl in *. lra.
Qed.

(** *** The duration of a path *)

(** What a node adds to the duration of a path: the mean duration of its
    songs, nothing when it has none. *)
Definition node_duration (g : Graph) (n : string) : Q :=
  match lookup_node (nodes g) n with
  | Some d => if is_empty (songs d) then 0 else mean (durations (songs d))
  | None => 0
  end.

(** The total the loop has built up when it has gone through [path], from
    [total]: it adds node by node, in the order of the path. *)
Definition path_total (g : Graph) (path : list string) (total : Q) : Q :=
  fold_left (fun total n => total + node_duration g n) path total.

Lemma path_total_compat g path : forall a b,
  a == b -> path_total g path a == path_total g path b.
Proof.
  induction path as [|n path IH]; intros a b H; [exact H|].
  cbn [path_total fold_left]. apply IH. now rewrite H.
Qed.

Lemma path_duration_loop_known self path : forall total,
  Forall (fun n => In n (node_ids (graph self))) path ->
  exists q, path_duration_loop path total self = (Ok q, self) /\
            q == path_total (graph self) path total.
Proof.
  induction path as [|n path IH]; intros total Hp.
  - exists total. split; reflexivity.
  - inversion Hp as [|? ? Hn Hp']; subst.
    destruct (lookup_node_In _ _ Hn) as (d & Hd & _).
    cbn [path_duration_loop]. unfold bind at 1, node_songs at 1, bind at 1, get at 1.
    rewrite Hd. unfold ret at 1.
    assert (Hnode : node_duration (graph self) n
                    = if is_empty (songs d) then 0 else mean (durations (songs d)))
      by (unfold node_duration; now rewrite Hd).
    cbn [path_total fold_left]. fold (path_total (graph self) path).
    destruct (songs d) as [|s l] eqn:Es; cbn [is_empty] in *.
    + destruct (IH total Hp') as (q & -> & Hq). exists q. split; [reflexivity|].
      rewrite Hq. apply path_total_compat. rewrite Hnode. ring.
    + unfold bind at 1, lift at 1. cbn [np_mean map].
      destruct (IH (total + mean (durations (s :: l))) Hp') as (q & Hrun & Hq).
      exists q. split; [exact Hrun|].
      rewrite Hq. apply path_total_compat. rewrite Hnode. reflexivity.
Qed.

Lemma path_duration_loop_unknown self path : forall total n,
  In n path -> ~ In n (node_ids (graph self)) ->
  exists e, path_duration_loop path total self = (Raise e, self) /\
            exn_class e = KeyError.
Proof.
  induction path as [|m path IH]; intros total n Hin Hn; [contradiction|].
  cbn [path_duration_loop]. unfold bind at 1, node_songs at 1, bind at 1, get at 1.
  destruct (lookup_node (nodes (graph self)) m) as [d|] eqn:Hd.
  - assert (Hm : m <> n).
    { intros ->. apply Hn. apply lookup_node_data in Hd.
      unfold node_ids. now apply (in_map fst) in Hd. }
    destruct Hin as [Hin|Hin]; [contradiction|].
    unfold ret at 1. destruct (songs d) as [|s l]; cbn [is_empty].
    + now apply (IH _ n).
    + unfold bind at 1, lift at 1. cbn [np_mean map]. now apply (IH _ n).
  - eexists. split; reflexivity.
Qed.

Lemma path_duration_raises self path : forall total e self',
  path_duration_loop path total self = (Raise e, self') ->
  exn_class e = KeyError.
Proof.
  induction path as [|m path IH]; intros total e self' H; [discriminate|].
  cbn [path_duration_loop] in H.
  unfold bind at 1, node_songs at 1, bind at 1, get at 1 in H.
  destruct (lookup_node (nodes (graph self)) m) as [d|].
  - unfold ret at 1 in H. destruct (songs d) as [|s l] eqn:Es; cbn [is_empty] in H.
    + eapply IH, H.
    + unfold bind at 1, lift at 1 in H. cbn [np_mean map] in H. eapply IH, H.
  - injection H as <- _. reflexivity.
Qed.

(** X8.  [_calculate_path_duration] leaves the model as it is.  For a
    path of nodes of the graph it returns the total it builds up from 0, node
    by node in the order of the path: it adds the mean duration of the
    node's songs, and nothing for a node without songs.  A node name that is
    not in the graph makes it raise a [KeyError], and it raises nothing
    else. *)
Theorem path_duration_sum (self : Model) (path : list string) :
  (Forall (fun n => In n (node_ids (graph self))) path ->
   exists q, _calculate_path_duration path self = (Ok q, self) /\
             q == fold_left (fun total n => total + node_duration (graph self) n)
                            path 0) /\
  (forall n, In n path -> ~ In n (node_ids (graph self)) ->
   exists e, _calculate_path_duration path self = (Raise e, self) /\
             exn_class e = KeyError) /\
  (forall e self', _calculate_path_duration path self = (Raise e, self') ->
                   exn_class e = KeyError).
Proof.
  split; [|split].
  - intro H. destruct (path_duration_loop_known self path 0 H) as (q & E & Hq).
    exists q. split; [exact E|exact Hq].
  - intros n Hin Hn. now apply (path_duration_loop_unknown self path 0 n).
  - intros e self' H. eapply path_duration_raises, H.
Qed.

(** *** The search for the best path *)

Section Search.

Variable sp : Graph -> string -> string -> Result (list string).
Variable self : Model.
Variable target : Q.

(** A pair of nodes whose shortest path has been found and measured. *)
Definition candidate (s e : string) (p : list string) (d : Q) : Prop :=
  sp (graph self) s e = Ok p /\ _calculate_path_duration p self = (Ok d, self).

(** [best] is the right answer for the pairs [C] that have been tried. *)
Definition best_of (C : string -> string -> Prop)
           (best : option (list string) * ExtQ) : Prop :=
  match best with
  | (None, PosInf) => forall s e p d, C s e -> ~ candidate s e p d
  | (Some p, Finite d) =>
      (exists s e, C s e /\ candidate s e p d) /\
      (forall s e p' d', C s e -> candidate s e p' d' ->
                         Qabs (d - target) <= Qabs (d' - target))
  | _ => False
  end.

Lemma best_of_ext (C C' : string -> string -> Prop) best :
  (forall s e, C s e <-> C' s e) -> best_of C best -> best_of C' best.
Proof.
  intros H. destruct best as [[p|] [d|]]; unfold best_of; try tauto.
  - intros [(s & e & Hc & Hcand) Hmin]. split.
    + exists s, e. split; [now apply H|exact Hcand].
    + intros s' e' p' d' Hc'. apply Hmin. now apply H.
  - intros Hnone s e p d Hc. apply Hnone. now apply H.
Qed.

Lemma try_path_cases s e best best' self' :
  try_path sp target s e best self = (Ok best', self') ->
  self' = self /\
  ((best' = best /\ forall p d, ~ candidate s e p d) \/
   (exists p d, candidate s e p d /\
                best' = if closer d (snd best) target
                        then (Some p, Finite d) else best)).
Proof.
  intro H. split.
  { pose proof (reads_only_try_path sp target s e best self) as Hr.
    rewrite H in Hr. exact Hr. }
  unfold try_path, try_catch in H. unfold bind at 1, get at 1 in H.
  unfold bind at 1, lift at 1 in H.
  destruct (sp (graph self) s e) as [p|ex] eqn:Esp.
  - unfold bind at 1 in H.
    pose proof (reads_only_path_duration_loop p 0 self) as Hr.
    fold (_calculate_path_duration p) in Hr.
    destruct (_calculate_path_duration p self) as [[d|ex] s1] eqn:Ed;
      simpl in Hr; subst s1.
    + right. exists p, d. split; [now split|].
      destruct (closer d (snd best) target); unfold ret in H;
        now injection H as <- _.
    + apply path_duration_raises in Ed.
      unfold is_no_path in H. rewrite Ed in H. discriminate.
  - left. destruct (is_no_path ex); [|discriminate].
    unfold ret in H. injection H as <- _. split; [reflexivity|].
    intros p d [Hp _]. congruence.
Qed.

Lemma candidate_unique s e p d p' d' :
  candidate s e p d -> candidate s e p' d' -> p' = p /\ d' = d.
Proof.
  intros [H1 H2] [H1' H2']. rewrite H1 in H1'. injection H1' as <-.
  rewrite H2 in H2'. now injection H2' as <-.
Qed.

Lemma try_path_best (C : string -> string -> Prop) s e best best' self' :
  best_of C best ->
  try_path sp target s e best self = (Ok best', self') ->
  best_of (fun s' e' => C s' e' \/ (s' = s /\ e' = e)) best'.
Proof.
  intros Hbest H. apply try_path_cases in H.
  destruct H as [_ [[-> Hnone]|(p & d & Hcand & ->)]].
  - destruct best as [[p0|] [d0|]]; unfold best_of in *; try tauto.
    + destruct Hbest as [(s0 & e0 & Hc & Hcand) Hmin]. split.
      * exists s0, e0. auto.
      * intros s' e' p' d' [Hc'|[-> ->]] Hcand'; [eauto|].
        now apply Hnone in Hcand'.
    + intros s' e' p' d' [Hc'|[-> ->]]; [now apply Hbest|apply Hnone].
  - destruct best as [[p0|] [d0|]]; unfold best_of in Hbest; try tauto;
      cbn [closer snd].
    + destruct Hbest as [(s0 & e0 & Hc & Hcand0) Hmin].
      destruct (Qltb (Qabs (d - target)) (Qabs (d0 - target))) eqn:Ecl;
        unfold best_of.
      * apply Qltb_lt in Ecl. split.
        -- exists s, e. auto.
        -- intros s' e' p' d' [Hc'|[-> ->]] Hcand'.
           ++ specialize (Hmin _ _ _ _ Hc' Hcand'). lra.
           ++ destruct (candidate_unique _ _ _ _ _ _ Hcand Hcand') as [_ ->].
              apply Qle_refl.
      * apply Qltb_nlt in Ecl. split.
        -- exists s0, e0. auto.
        -- intros s' e' p' d' [Hc'|[-> ->]] Hcand'; [eauto|].
           destruct (candidate_unique _ _ _ _ _ _ Hcand Hcand') as [_ ->].
           exact Ecl.
    + unfold best_of. split.
      * exists s, e. auto.
      * intros s' e' p' d' [Hc'|[-> ->]] Hcand'.
        -- now apply Hbest in Hcand'.
        -- destruct (candidate_unique _ _ _ _ _ _ Hcand Hcand') as [_ ->].
           apply Qle_refl.
Qed.

Lemma inner_best s ends : forall (C : string -> string -> Prop) best best' self',
  best_of C best ->
  fold_m ends (fun end_ best => try_path sp target s end_ best) best self
    = (Ok best', self') ->
  self' = self /\
  best_of (fun s' e' => C s' e' \/ (s' = s /\ In e' ends)) best'.
Proof.
  induction ends as [|e ends IH]; intros C best best' self' Hbest H.
  - simpl in H. injection H as <- <-. split; [reflexivity|].
    eapply best_of_ext; [|exact Hbest]. simpl. tauto.
  - cbn [fold_m] in H. unfold bind at 1 in H.
    destruct (try_path sp target s e best self) as [[b1|ex] s1] eqn:Et;
      [|discriminate].
    pose proof (try_path_best C s e best b1 s1 Hbest Et) as Hb1.
    apply try_path_cases in Et. destruct Et as [-> _].
    destruct (IH _ _ _ _ Hb1 H) as [-> Hb]. split; [reflexivity|].
    eapply best_of_ext; [|exact Hb]. simpl. intros s' e'.
    split; [intros [[?|[-> ->]]|[-> ?]]|intros [?|[-> [->|?]]]]; auto.
Qed.

Lemma outer_best starts ends : forall (C : string -> string -> Prop) best best' self',
  best_of C best ->
  fold_m starts
         (fun start best =>
            fold_m ends (fun end_ best => try_path sp target start end_ best) best)
         best self
    = (Ok best', self') ->
  self' = self /\
  best_of (fun s' e' => C s' e' \/ (In s' starts /\ In e' ends)) best'.
Proof.
  induction starts as [|s starts IH]; intros C best best' self' Hbest H.
  - simpl in H. injection H as <- <-. split; [reflexivity|].
    eapply best_of_ext; [|exact Hbest]. simpl. tauto.
  - cbn [fold_m] in H. unfold bind at 1 in H.
    destruct (fold_m ends _ best self) as [[b1|ex] s1] eqn:Ei; [|discriminate].
    destruct (inner_best s ends C best b1 s1 Hbest Ei) as [-> Hb1].
    destruct (IH _ _ _ _ Hb1 H) as [-> Hb]. split; [reflexivity|].
    eapply best_of_ext; [|exact Hb]. simpl. intros s' e'.
    split; [intros [[?|[-> ?]]|[? ?]]|intros [?|[[->|?] ?]]]; auto.
Qed.

Lemma find_best_path_best starts ends best self' :
  find_best_path sp target starts ends self = (Ok best, self') ->
  self' = self /\ best_of (fun s e => In s starts /\ In e ends) best.
Proof.
  intro H. unfold find_best_path in H.
  destruct (outer_best starts ends (fun _ _ => False) (None, PosInf) best self')
    as [-> Hb]; [simpl; tauto|exact H|].
  split; [reflexivity|]. eapply best_of_ext; [|exact Hb]. simpl. tauto.
Qed.

End Search.

(** X9.  Of the shortest paths between the start nodes and the end nodes,
    [generate_playlist] keeps one whose duration is closest to the target:
    the path the search ends with joins a start node to an end node, and no
    other pair has a shortest path whose duration is strictly closer.  The
    search leaves the model as it is. *)
Theorem best_path_is_closest
        (sp : Graph -> string -> string -> Result (list string))
        (self : Model) (target : Q) (start_nodes end_nodes : list string)
        (path : list string) (duration : Q) (self' : Model) :
  find_best_path sp target start_nodes end_nodes self
  = (Ok (Some path, Finite duration), self') ->
  self' = self /\
  (exists s e, In s start_nodes /\ In e end_nodes /\
               sp (graph self) s e = Ok path /\
               _calculate_path_duration path self = (Ok duration, self)) /\
  (forall s e p d,
      In s start_nodes -> In e end_nodes ->
      sp (graph self) s e = Ok p ->
      _calculate_path_duration p self = (Ok d, self) ->
      Qabs (duration - target) <= Qabs (d - target)).
Proof.
  intro H. apply find_best_path_best in H. destruct H as [-> [Hex Hmin]].
  split; [reflexivity|]. split.
  - destruct Hex as (s & e & [Hs He] & [Hp Hd]). exists s, e. auto.
  - intros s e p d Hs He Hp Hd. apply (Hmin s e p d); [now split|now split].
Qed.

(** *** The playlist *)

Lemma generate_playlist_walk sp rnd start_emotion end_emotion duration_minutes
      self playlist self' :
  generate_playlist sp rnd start_emotion end_emotion duration_minutes self
  = (Ok playlist, self') ->
  exists s e path,
    In s (nodes_with_prefix start_emotion (graph self)) /\
    In e (nodes_with_prefix end_emotion (graph self)) /\
    sp (graph self) s e = Ok path /\ path <> [] /\
    walk rnd (duration_minutes * 60 * 1000) path [] 0 self = (Ok playlist, self').
Proof.
  intro H. unfold generate_playlist in H. unfold bind at 1, get at 1 in H.
  destruct (is_empty _ || is_empty _)%bool; [discriminate|].
  unfold bind at 1 in H.
  destruct (find_best_path sp _ _ _ self) as [[best|ex] s1] eqn:Ef; [|discriminate].
  apply find_best_path_best in Ef. destruct Ef as [-> Hb].
  destruct best as [[[|n path]|] [d|]]; simpl in Hb; simpl in H;
    try discriminate; try contradiction.
  destruct Hb as [(s & e & [Hs He] & [Hp _]) _].
  exists s, e, (n :: path). repeat split; auto. discriminate.
Qed.

Lemma reads_only_preserves {S A} (P : S -> Prop) (c : M S A) :
  reads_only c -> preserves P c.
Proof. intros H s Hs. now rewrite H. Qed.

Lemma walk_keeps_graph rnd target path (g : Graph) : forall playlist d,
  preserves (fun s => graph s = g) (walk rnd target path playlist d).
Proof.
  induction path as [|n path IH]; intros playlist d; cbn [walk].
  - apply preserves_ret.
  - apply preserves_bind; [apply preserves_node_songs|]. intro l.
    destruct (is_empty l); [apply IH|].
    apply preserves_bind.
    + intros s Hs. now rewrite np_random_choice_frame.
    + intro song. destruct (Qle_bool _ _); [apply preserves_ret|apply IH].
Qed.

Lemma generate_playlist_keeps_graph sp rnd start_emotion end_emotion
      duration_minutes (g : Graph) :
  preserves (fun s => graph s = g)
            (generate_playlist sp rnd start_emotion end_emotion duration_minutes).
Proof.
  unfold generate_playlist.
  apply preserves_bind; [apply preserves_get|]. intro self.
  destruct (_ || _)%bool; [apply preserves_raise|].
  apply preserves_bind.
  - apply reads_only_preserves, reads_only_find_best_path.
  - intros [[[|n path]|] d]; cbn [fst];
      try apply preserves_raise. apply walk_keeps_graph.
Qed.

(** X10.  [generate_playlist] never changes the graph, whether it returns
    or raises; when it returns a playlist, the random generator has been
    drawn from once for every track. *)
Theorem generate_playlist_frame
        (sp : Graph -> string -> string -> Result (list string))
        (rnd : nat -> nat) (start_emotion end_emotion : string)
        (duration_minutes : Q) (self : Model) :
  graph (snd (generate_playlist sp rnd start_emotion end_emotion
                                duration_minutes self)) = graph self /\
  (forall playlist self',
      generate_playlist sp rnd start_emotion end_emotion duration_minutes self
      = (Ok playlist, self') ->
      rng_draws self' = (rng_draws self + List.length playlist)%nat).
Proof.
  split.
  - now apply (generate_playlist_keeps_graph sp rnd start_emotion end_emotion
                                              duration_minutes (graph self)).
  - intros playlist self' H. apply generate_playlist_walk in H.
    destruct H as (s & e & path & _ & _ & _ & _ & H).
    apply walk_spec in H. destruct H as (picked & -> & _ & Hd & _). exact Hd.
Qed.

(** X11.  A playlist follows a shortest path from a start node to an end
    node: in a graph whose nodes all hold songs, the tracks are songs of
    the first nodes of that path, one for each node in the order of the
    path, and there is at least one.  When the search keeps its contract
    the path is a path of the graph.  The playlist stops before the end of
    the path only once its duration has reached the target. *)
Theorem playlist_follows_path
        (sp : Graph -> string -> string -> Result (list string))
        (rnd : nat -> nat) (start_emotion end_emotion : string)
        (duration_minutes : Q) (self : Model)
        (playlist : list Song) (self' : Model) :
  songs_nonempty (graph self) ->
  generate_playlist sp rnd start_emotion end_emotion duration_minutes self
  = (Ok playlist, self') ->
  exists s e path,
    In s (nodes_with_prefix start_emotion (graph self)) /\
    In e (nodes_with_prefix end_emotion (graph self)) /\
    sp (graph self) s e = Ok path /\
    (shortest_path_contract sp (graph self) -> is_path (graph self) s e path) /\
    (1 <= List.length playlist <= List.length path)%nat /\
    Forall2 (song_at (graph self)) playlist
            (firstn (List.length playlist) path) /\
    ((List.length playlist < List.length path)%nat ->
     duration_minutes * 60 * 1000 <= Qsum (durations playlist)).
Proof.
  intros Hne H. apply generate_playlist_walk in H.
  destruct H as (s & e & path & Hs & He & Hp & Hpath & H).
  apply walk_spec in H. destruct H as (picked & -> & _ & _ & _ & Hrest).
  destruct (Hrest Hne) as (Hlen & Hall & Hsome & Hend). simpl.
  exists s, e, path. repeat split; try assumption.
  - intro Hc.
    destruct (Hc s e) as [(p & E & Hip)|(ex & E & _)];
      try (eapply nodes_with_prefix_incl; eassumption); congruence.
  - specialize (Hsome Hpath). destruct picked; [congruence|simpl; lia].
  - intro Hl. specialize (Hend Hl). lra.
Qed.

(** X12.  No track of a playlist is one too many: the tracks before the
    last never reach the target duration together. *)
Theorem playlist_stops_at_target
        (sp : Graph -> string -> string -> Result (list string))
        (rnd : nat -> nat) (start_emotion end_emotion : string)
        (duration_minutes : Q) (self : Model)
        (playlist : list Song) (self' : Model) :
  generate_playlist sp rnd start_emotion end_emotion duration_minutes self
  = (Ok playlist, self') ->
  forall k, (0 < k < List.length playlist)%nat ->
            Qsum (durations (firstn k playlist)) < duration_minutes * 60 * 1000.
Proof.
  intros H k Hk. apply generate_playlist_walk in H.
  destruct H as (s & e & path & _ & _ & _ & _ & H).
  apply walk_spec in H. destruct H as (picked & -> & _ & _ & Hshort & _).
  simpl in *. specialize (Hshort k Hk). lra.
Qed.

(** *** When a playlist is returned *)

Lemma walk_ok rnd target path : forall playlist d self,
  songs_nonempty (graph self) ->
  Forall (fun n => In n (node_ids (graph self))) path ->
  exists playlist' self', walk rnd target path playlist d self = (Ok playlist', self').
Proof.
  induction path as [|n path IH]; intros playlist d self Hne Hp.
  - eexists. eexists. reflexivity.
  - inversion Hp as [|? ? Hn Hp']; subst.
    destruct (node_songs_In self n Hn) as (nd & E & Hin).
    cbn [walk]. unfold bind at 1. rewrite E.
    pose proof (proj1 (Forall_forall _ _) Hne _ Hin) as Hd. simpl in Hd.
    destruct (songs nd) as [|s l] eqn:Es; [congruence|]. cbn [is_empty].
    unfold bind at 1.
    destruct (np_random_choice rnd (s :: l) self) as [[song|e] self1] eqn:Ec;
      [|discriminate Ec].
    apply np_random_choice_spec in Ec. destruct Ec as (_ & Hg & _).
    destruct (Qle_bool target (d + duration_ms song)).
    + eexists. eexists. reflexivity.
    + apply IH; rewrite Hg; assumption.
Qed.

(** X13.  [generate_playlist] returns a playlist whenever a start node is
    joined to an end node by a path: in a graph whose nodes all hold songs,
    and with a path search that keeps its contract, it then raises nothing,
    whatever the duration asked for, and the playlist holds at least one
    track. *)
Theorem generate_playlist_succeeds
        (sp : Graph -> string -> string -> Result (list string))
        (rnd : nat -> nat) (start_emotion end_emotion : string)
        (duration_minutes : Q) (self : Model) :
  shortest_path_contract sp (graph self) ->
  songs_nonempty (graph self) ->
  (exists s e, In s (nodes_with_prefix start_emotion (graph self)) /\
               In e (nodes_with_prefix end_emotion (graph self)) /\
               has_path (graph self) s e) ->
  exists playlist self',
    generate_playlist sp rnd start_emotion end_emotion duration_minutes self
    = (Ok playlist, self') /\
    playlist <> [] /\ graph self' = graph self.
Proof.
  intros Hc Hne (s & e & Hs & He & Hpath).
  assert (Hrun : exists playlist self',
             generate_playlist sp rnd start_emotion end_emotion
                               duration_minutes self = (Ok playlist, self')).
  { unfold generate_playlist. unfold bind at 1, get at 1.
    destruct (nodes_with_prefix start_emotion (graph self)) as [|s0 starts] eqn:Es;
      [contradiction|].
    destruct (nodes_with_prefix end_emotion (graph self)) as [|e0 ends] eqn:Ee;
      [contradiction|].
    cbn [is_empty orb]. unfold bind at 1, find_best_path.
    destruct (outer_loop sp self (duration_minutes * 60 * 1000) Hc
                         (s0 :: starts) (e0 :: ends) (None, PosInf) Hne)
      as (best & -> & _ & _ & Hfound).
    { rewrite <- Es. apply nodes_with_prefix_incl. }
    { rewrite <- Ee. apply nodes_with_prefix_incl. }
    destruct Hfound as (p & u & v & Hbest & Hp); [now left|eauto|].
    rewrite Hbest. destruct (is_path_head _ _ _ _ Hp) as (rest & ->).
    apply walk_ok; [exact Hne|]. eapply is_path_nodes, Hp. }
  destruct Hrun as (playlist & self' & E). exists playlist, self'.
  split; [exact E|].
  apply generate_playlist_walk in E.
  destruct E as (s1 & e1 & path & _ & _ & _ & Hne' & E).
  apply walk_spec in E. destruct E as (picked & -> & Hg & _ & _ & Hrest).
  destruct (Hrest Hne) as (_ & _ & Hsome & _). split; [|exact Hg].
  simpl. now apply Hsome.
Qed.

(** *** Which nodes an emotion selects *)

Lemma prefix_empty s : String.prefix "" s = true.
Proof. now destruct s. Qed.

Lemma prefix_append e m t :
  String.prefix e m = true -> String.prefix e (m ++ t) = true.
Proof.
  revert m. induction e as [|c e IH]; intros m H.
  - apply prefix_empty.
  - destruct m as [|c' m]; simpl in *; [discriminate|].
    destruct (Ascii.ascii_dec c c'); [now apply IH|discriminate].
Qed.

Lemma prefix_append_cases e m t :
  String.prefix e (m ++ t) = true ->
  String.prefix e m = true \/ String.prefix m e = true.
Proof.
  revert m. induction e as [|c e IH]; intros m H.
  - left. apply prefix_empty.
  - destruct m as [|c' m]; [now right|]. simpl in *.
    destruct (Ascii.ascii_dec c c') as [->|]; [|discriminate].
    destruct (Ascii.ascii_dec c' c'); [|congruence]. now apply IH.
Qed.

(** X14.  An emotion selects the nodes whose identifier begins with it.
    So every node whose mood begins with the emotion is selected, whether or
    not the emotion is the whole mood (and the empty emotion selects every
    node); and the mood of a selected node begins with the emotion, or the
    emotion begins with the mood. *)
Theorem emotion_selects_by_prefix (g : Graph) (emotion : string)
        (nd : string * NodeData) :
  In nd (nodes g) ->
  fst nd = node_id (node_mood (snd nd)) (node_cluster (snd nd)) ->
  (String.prefix emotion (node_mood (snd nd)) = true ->
   In (fst nd) (nodes_with_prefix emotion g)) /\
  (In (fst nd) (nodes_with_prefix emotion g) ->
   String.prefix emotion (node_mood (snd nd)) = true \/
   String.prefix (node_mood (snd nd)) emotion = true) /\
  (emotion = "" -> nodes_with_prefix emotion g = node_ids g).
Proof.
  intros Hin Hid. unfold nodes_with_prefix. repeat split.
  - intro Hp. apply filter_In. split.
    + unfold node_ids. now apply in_map.
    + rewrite Hid. unfold node_id. now apply prefix_append.
  - intro H. apply filter_In in H. destruct H as [_ H].
    rewrite Hid in H. unfold node_id in H. now apply prefix_append_cases in H.
  - intros ->. induction (node_ids g) as [|n l IH]; simpl; [reflexivity|].
    rewrite prefix_empty. now rewrite IH.
Qed.

(** *** On concrete data *)

Lemma best_path_is_closest_witness :
  exists path duration,
    find_best_path direct_path (30 * 60 * 1000) ["sad_0"] ["happy_0"]
                   friendly_model
    = (Ok (Some path, Finite duration), friendly_model) /\
    friendly_model = friendly_model /\
    (exists s e, In s ["sad_0"] /\ In e ["happy_0"] /\
                 direct_path (graph friendly_model) s e = Ok path /\
                 _calculate_path_duration path friendly_model
                 = (Ok duration, friendly_model)) /\
    (forall s e p d,
        In s ["sad_0"] -> In e ["happy_0"] ->
        direct_path (graph friendly_model) s e = Ok p ->
        _calculate_path_duration p friendly_model = (Ok d, friendly_model) ->
        Qabs (duration - 30 * 60 * 1000) <= Qabs (d - 30 * 60 * 1000)).
Proof.
  eexists. eexists.
  assert (E : find_best_path direct_path (30 * 60 * 1000) ["sad_0"] ["happy_0"]
                             friendly_model
              = (Ok (Some ["sad_0"; "happy_0"], Finite (380000 # 1)),
                 friendly_model)).
  { vm_compute. reflexivity. }
  split; [exact E|].
  exact (best_path_is_closest direct_path friendly_model (30 * 60 * 1000)
                              ["sad_0"] ["happy_0"] _ _ _ E).
Defined.

Lemma generate_playlist_succeeds_witness :
  exists playlist self',
    generate_playlist direct_path (fun _ => 0%nat) "sad" "happy" 30 friendly_model
    = (Ok playlist, self') /\
    playlist <> [] /\ graph self' = graph friendly_model.
Proof.
  apply (generate_playlist_succeeds direct_path (fun _ => 0%nat) "sad" "happy" 30
                                    friendly_model friendly_contract
                                    friendly_songs_nonempty).
  exists "sad_0", "happy_0".
  split; [vm_compute; auto|]. split; [vm_compute; auto|].
  exists ["sad_0"; "happy_0"]. eapply path_step.
  - vm_compute. auto.
  - eexists. vm_compute. right. right. left. reflexivity.
  - apply path_here. vm_compute. auto.
Defined.

Lemma playlist_follows_path_witness :
  exists playlist self',
    generate_playlist direct_path (fun _ => 0%nat) "sad" "happy" 30 friendly_model
    = (Ok playlist, self') /\
    exists s e path,
      In s (nodes_with_prefix "sad" (graph friendly_model)) /\
      In e (nodes_with_prefix "happy" (graph friendly_model)) /\
      direct_path (graph friendly_model) s e = Ok path /\
      (shortest_path_contract direct_path (graph friendly_model) ->
       is_path (graph friendly_model) s e path) /\
      (1 <= List.length playlist <= List.length path)%nat /\
      Forall2 (song_at (graph friendly_model)) playlist
              (firstn (List.length playlist) path) /\
      ((List.length playlist < List.length path)%nat ->
       30 * 60 * 1000 <= Qsum (durations playlist)).
Proof.
  destruct (generate_playlist direct_path (fun _ => 0%nat) "sad" "happy" 30
                              friendly_model) as [[playlist|e] self'] eqn:E;
    [|vm_compute in E; discriminate E].
  exists playlist, self'. split; [reflexivity|].
  exact (playlist_follows_path direct_path (fun _ => 0%nat) "sad" "happy" 30
                               friendly_model playlist self'
                               friendly_songs_nonempty E).
Defined.

Lemma playlist_stops_at_target_witness :
  exists playlist self',
    generate_playlist direct_path (fun _ => 0%nat) "sad" "happy" 30 friendly_model
    = (Ok playlist, self') /\
    List.length playlist = 2%nat /\
    Qsum (durations (firstn 1 playlist)) < 30 * 60 * 1000.
Proof.
  destruct (generate_playlist direct_path (fun _ => 0%nat) "sad" "happy" 30
                              friendly_model) as [[playlist|e] self'] eqn:E;
    [|vm_compute in E; discriminate E].
  exists playlist, self'. split; [reflexivity|].
  assert (L : List.length playlist = 2%nat).
  { vm_compute in E. injection E as <- _. reflexivity. }
  split; [exact L|].
  apply (playlist_stops_at_target direct_path (fun _ => 0%nat) "sad" "happy" 30
                                  friendly_model playlist self' E).
  rewrite L. lia.
Defined.

Definition happy_node : string * NodeData :=
  ("happy_0", mkNode "happy" 0 [example_song "Sun" "happy" 180000 false "album"]).

Lemma happy_node_trained : In happy_node (nodes (graph friendly_model)).
Proof. vm_compute. left. reflexivity. Qed.

Lemma emotion_selects_by_prefix_witness :
  (String.prefix "hap" "happy" = true ->
   In "happy_0" (nodes_with_prefix "hap" (graph friendly_model))) /\
  (In "happy_0" (nodes_with_prefix "hap" (graph friendly_model)) ->
   String.prefix "hap" "happy" = true \/ String.prefix "happy" "hap" = true) /\
  ("hap" = "" -> nodes_with_prefix "hap" (graph friendly_model)
                 = node_ids (graph friendly_model)).
Proof.
  exact (emotion_selects_by_prefix (graph friendly_model) "hap" happy_node
                                   happy_node_trained eq_refl).
Defined.

End PlaylistFacts.

(** ** The collector's requests: track records, pages and searches *)

Module RequestFacts.

Import SpotifyDataCollector SpotifyDataCollectorFacts.
Local Open Scope nat_scope.

Lemma getitem_in x key v : getitem x key = Ok v -> py_in key x = Ok true.
Proof.
  destruct x; simpl; try discriminate. intro H. f_equal.
  induction fields as [|[k v0] fields IH]; simpl in *; [discriminate|].
  destruct (String.eqb k key); [reflexivity|]. simpl. now apply IH.
Qed.

Lemma getitem_truthy x key v : getitem x key = Ok v -> truthy x = true.
Proof.
  destruct x; simpl; try discriminate. destruct fields; [discriminate|reflexivity].
Qed.

Section Answers.

Context {World : Type}.
Variable spotify : Request -> World -> Result json * World.
Variable request : Request.

(** A value is one the service has answered [request] with. *)
Definition answered (v : json) : Prop :=
  exists w, fst (spotify request w) = Ok v.

Lemma call_answered : post (call spotify request) answered.
Proof.
  intros st v st' E. unfold call in E.
  destruct (spotify request (world st)) as [r w] eqn:Es.
  injection E as -> _. exists (world st). now rewrite Es.
Qed.

Lemma attempts_answered a rest :
  post (attempts rest (call spotify request)) answered ->
  post (attempts (a :: rest) (call spotify request)) answered.
Proof.
  intro IH. cbn [attempts]. apply post_try_catch.
  - apply post_bind. intros _. apply call_answered.
  - intro e. destruct (is_rate_limit e); [|apply post_raise].
    destruct (a <? max_retries - 1); [|apply post_raise].
    apply post_bind. intros _. apply post_bind. intros _.
    apply post_bind. intros _. exact IH.
Qed.

Lemma last_attempt_answered :
  post (attempts [max_retries - 1] (call spotify request)) answered.
Proof.
  cbn [attempts]. apply post_try_catch.
  - apply post_bind. intros _. apply call_answered.
  - intro e. destruct (is_rate_limit e); [|apply post_raise].
    rewrite Nat.ltb_irrefl. apply post_raise.
Qed.

(** What [_handle_rate_limit] returns is an answer of the service: the
    loop never falls through to return [None]. *)
Lemma handle_rate_limit_answered :
  post (_handle_rate_limit spotify request) answered.
Proof.
  unfold _handle_rate_limit. change (seq 0 max_retries) with [0; 1; max_retries - 1].
  do 2 apply attempts_answered. apply last_attempt_answered.
Qed.

End Answers.

(** A page that holds at least one item. *)
Definition has_items (page : json) : Prop :=
  exists items, getitem page "items" = Ok (JList items) /\ items <> [].

Section Termination.

Context {World : Type}.
Variable spotify : Request -> World -> Result json * World.

(** Every further page the service hands out holds at least one item. *)
Hypothesis pages_have_items :
  forall page w v, fst (spotify (Next page) w) = Ok v -> has_items v.

Definition unfinished (r : Result (option json)) : Prop := r = Ok None.

Lemma more_pages_ends fuel : forall results tracks (st : State World),
  1 <= fuel ->
  (forall t, tracks = JList t -> 50 <= fuel + List.length t) ->
  ~ unfinished (fst (more_pages spotify fuel results tracks st)).
Proof.
  unfold unfinished.
  induction fuel as [|fuel IH]; intros results tracks st Hfuel Hroom; [lia|].
  cbn [more_pages]. unfold bind at 1, lift at 1.
  destruct (wants_more results tracks) as [[|]|e] eqn:Ew; try discriminate.
  unfold bind at 1, sleep at 1, emit at 1, modify at 1.
  unfold bind at 1.
  destruct (_handle_rate_limit spotify (Next results) _) as [[v|e] st1] eqn:Eh;
    [|discriminate].
  apply handle_rate_limit_answered in Eh. destruct Eh as (w & Hw).
  destruct (pages_have_items _ _ _ Hw) as (items & Hitems & Hne).
  unfold bind at 1, lift at 1. rewrite (getitem_in _ _ _ Hitems).
  unfold bind at 1, lift at 1. rewrite Hitems.
  unfold bind at 1, lift at 1.
  destruct tracks as [| | | |t|]; cbn [extend]; try discriminate.
  cbn [py_iter bindR].
  assert (Hlen : 50 <= fuel + List.length (t ++ items)).
  { rewrite length_app. specialize (Hroom t eq_refl).
    destruct items; [congruence|]. simpl. lia. }
  destruct fuel as [|fuel].
  - (* no round is left, and none is needed *)
    cbn [more_pages]. unfold bind at 1, lift at 1.
    assert (Hw' : wants_more v (JList (t ++ items)) <> Ok true).
    { unfold wants_more. destruct (getitem v "next") as [next|]; [|discriminate].
      cbn [bindR]. destruct (truthy next); [|discriminate].
      cbn [py_len bindR]. intros [= H]. apply Nat.ltb_lt in H. simpl in Hlen. lia. }
    destruct (wants_more v (JList (t ++ items))) as [[|]|e]; try discriminate.
    congruence.
  - apply IH; [lia|]. intros t' [= <-]. exact Hlen.
Qed.

Lemma get_playlist_tracks_ends fuel playlist_id (st : State World) :
  50 <= fuel ->
  ~ unfinished (fst (get_playlist_tracks spotify fuel playlist_id st)).
Proof.
  intros Hfuel. unfold unfinished, get_playlist_tracks.
  rewrite try_catch_bind. unfold logger at 1, emit at 1, modify at 1.
  rewrite try_catch_bind.
  destruct (_handle_rate_limit spotify (PlaylistTracks playlist_id) _)
    as [[results|e] st1].
  2:{ unfold bind. unfold logger, emit, modify.
      destruct (log_response e _) as [[[]|e'] st2]; discriminate. }
  rewrite try_catch_bind. unfold lift at 1.
  destruct (no_items results) as [[|]|e].
  3:{ unfold bind. unfold logger, emit, modify.
      destruct (log_response e _) as [[[]|e'] st2]; discriminate. }
  { unfold try_catch, bind, logger, emit, modify, ret. discriminate. }
  rewrite try_catch_bind. unfold lift at 1.
  destruct (getitem results "items") as [tracks|e].
  2:{ unfold bind. unfold logger, emit, modify.
      destruct (log_response e _) as [[[]|e'] st2]; discriminate. }
  rewrite try_catch_bind.
  pose proof (more_pages_ends fuel results tracks st1) as Hends.
  destruct (more_pages spotify fuel results tracks st1) as [[[gathered|]|e] st2].
  - unfold try_catch, bind, lift, ret.
    destruct (slice_to gathered 50); [discriminate|].
    unfold logger, emit, modify.
    destruct (log_response e _) as [[[]|e'] st3]; discriminate.
  - exfalso. apply Hends; [lia| |reflexivity]. intros t _. lia.
  - unfold bind. unfold logger, emit, modify.
    destruct (log_response e _) as [[[]|e'] st3]; discriminate.
Qed.

End Termination.

Lemma plain_no_items results : plain (no_items results).
Proof.
  unfold no_items. destruct (negb (truthy results)); [apply plain_Ok|].
  apply plain_bindR; [apply plain_py_in|intro has; apply plain_Ok].
Qed.

Lemma plain_slice_to x n : plain (slice_to x n).
Proof. destruct x; simpl; try apply plain_raised; apply plain_Ok. Qed.

Lemma plain_extend x y : plain (extend x y).
Proof.
  destruct x; simpl; try apply plain_raised.
  apply plain_bindR; [apply plain_py_iter|intro more; apply plain_Ok].
Qed.

Lemma plain_wants_more results tracks : plain (wants_more results tracks).
Proof.
  unfold wants_more. apply plain_bindR; [apply plain_getitem|intro next].
  destruct (truthy next); [|apply plain_Ok].
  apply plain_bindR; [apply plain_py_len|intro n; apply plain_Ok].
Qed.

Section Outcomes.

Context {World : Type}.
Variable spotify : Request -> World -> Result json * World.

Hypothesis service_loggable :
  forall request w e, fst (spotify request w) = Raise e -> loggable e.

Lemma quiet {A} (c : M (State World) A) :
  raises_only c never -> raises_only c loggable.
Proof. intro H. eapply raises_only_weaken; [exact H|intros e []]. Qed.

Lemma more_pages_loggable fuel : forall results tracks,
  raises_only (more_pages spotify fuel results tracks) loggable.
Proof.
  induction fuel as [|fuel IH]; intros results tracks; cbn [more_pages].
  - apply raises_only_bind;
      [apply raises_only_lift, plain_loggable, plain_wants_more|intros [|]];
      apply raises_only_ret.
  - apply raises_only_bind;
      [apply raises_only_lift, plain_loggable, plain_wants_more|intros [|]];
      [|apply raises_only_ret].
    apply raises_only_bind; [apply quiet, emit_never|intros _].
    apply raises_only_bind;
      [now apply handle_rate_limit_loggable|intros page].
    apply raises_only_bind;
      [apply raises_only_lift, plain_loggable, plain_py_in|intros [|]];
      [|apply IH].
    apply raises_only_bind;
      [apply raises_only_lift, plain_loggable, plain_getitem|intros items].
    apply raises_only_bind;
      [apply raises_only_lift, plain_loggable, plain_extend|intros tracks'].
    apply IH.
Qed.

Lemma get_playlist_tracks_never fuel playlist_id :
  raises_only (get_playlist_tracks spotify fuel playlist_id) never.
Proof.
  unfold get_playlist_tracks. apply (raises_only_try_catch _ _ loggable).
  - apply raises_only_bind; [apply quiet, emit_never|intros _].
    apply raises_only_bind;
      [now apply handle_rate_limit_loggable|intros results].
    apply raises_only_bind;
      [apply raises_only_lift, plain_loggable, plain_no_items|intros [|]].
    + apply raises_only_bind; [apply quiet, emit_never|intros _].
      apply raises_only_ret.
    + apply raises_only_bind;
        [apply raises_only_lift, plain_loggable, plain_getitem|intros tracks].
      apply raises_only_bind; [apply more_pages_loggable|intros [gathered|]];
        [|apply raises_only_ret].
      apply raises_only_bind;
        [apply raises_only_lift, plain_loggable, plain_slice_to|intros page].
      apply raises_only_ret.
  - intros e He. apply raises_only_bind; [apply emit_never|intros _].
    apply raises_only_bind; [now apply log_response_never|intros _].
    apply raises_only_ret.
Qed.

End Outcomes.

(** *** What a track record holds *)

(** X15.  In a record of [get_track_info] the first artist of the track is a
    dictionary, and what it lacks is filled in: without ["popularity"] the
    record's [artist_popularity] is 0, without ["genres"] its
    [artist_genres] is the empty list, without ["followers"] its
    [artist_followers] is 0.  The record's [album_release_date] is its
    [release_date], and its [available_markets] is a number, the length of
    the track's list of markets. *)
Theorem track_record_defaults (track record : json) :
  track_info track = Ok record ->
  exists artist,
    first_artist track = Ok (JDict artist) /\
    (dict_lookup artist "popularity" = None ->
     getitem record "artist_popularity" = Ok (JNum 0)) /\
    (dict_lookup artist "genres" = None ->
     getitem record "artist_genres" = Ok (JList [])) /\
    (dict_lookup artist "followers" = None ->
     getitem record "artist_followers" = Ok (JNum 0)) /\
    getitem record "album_release_date" = getitem record "release_date" /\
    exists markets n,
      getitem track "available_markets" = Ok markets /\
      py_len markets = Ok n /\
      getitem record "available_markets" = Ok (JNum (Z.of_nat n)).
Proof.
  unfold track_info. intro H. bindR_inv H. injection H as <-.
  destruct (first_artist track) as [fa|] eqn:Ea; cbn [bindR] in *;
    [|congruence].
  destruct fa as [| | | | |artist]; cbn [getitem py_get] in *; try congruence.
  match goal with
  | E : bindR (getitem track "available_markets") _ = Ok _ |- _ =>
      bindR_inv E; injection E as <-
  end.
  exists artist. split; [reflexivity|].
  cbn [track_info_keys combine dict_lookup String.eqb Ascii.eqb Bool.eqb].
  split; [intro Hn; rewrite Hn in *; congruence|].
  split; [intro Hn; rewrite Hn in *; congruence|].
  split; [intro Hn; rewrite Hn in *; cbn [bindR py_get dict_lookup] in *;
          congruence|].
  split; [congruence|].
  eexists. eexists. split; [reflexivity|]. split; [eassumption|reflexivity].
Qed.

(** X16.  [get_playlist_tracks] comes to an end when every further page
    of the playlist holds at least one item: fifty rounds of its loop are
    enough.  When besides no failure of the service carries a response that
    is [None], it returns a list, of at most fifty items, and never
    raises. *)
Theorem get_playlist_tracks_total {World : Type}
        (spotify : Request -> World -> Result json * World)
        (fuel : nat) (playlist_id : string) (st : State World) :
  (forall page w v, fst (spotify (Next page) w) = Ok v -> has_items v) ->
  50 <= fuel ->
  fst (get_playlist_tracks spotify fuel playlist_id st) <> Ok None /\
  ((forall request w e, fst (spotify request w) = Raise e ->
                        exn_response e <> ResponseNone) ->
   exists page st' n,
     get_playlist_tracks spotify fuel playlist_id st = (Ok (Some page), st') /\
     py_len page = Ok n /\ n <= 50).
Proof.
  intros Hpages Hfuel.
  pose proof (get_playlist_tracks_ends spotify Hpages fuel playlist_id st Hfuel)
    as Hends.
  split; [exact Hends|]. intro Hlog.
  destruct (get_playlist_tracks spotify fuel playlist_id st) as [[[page|]|e] st'] eqn:E.
  - destruct (get_playlist_tracks_post spotify fuel playlist_id st _ _ E page eq_refl)
      as (n & Hn & Hle).
    exists page, st', n. auto.
  - exfalso. now apply Hends.
  - exfalso. exact (get_playlist_tracks_never spotify Hlog fuel playlist_id _ _ _ E).
Qed.

(** *** A playlist whose pages add nothing *)

Section Stalling.

Context {World : Type}.
Variable spotify : Request -> World -> Result json * World.
Variable page next : json.

Hypothesis page_empty : getitem page "items" = Ok (JList []).
Hypothesis page_next : getitem page "next" = Ok next.
Hypothesis next_truthy : truthy next = true.
Hypothesis same_answer : forall request w, fst (spotify request w) = Ok page.

Lemma stalled_call request (st : State World) :
  exists st', _handle_rate_limit spotify request st = (Ok page, st').
Proof.
  pose proof (same_answer request (world st)) as H.
  destruct (spotify request (world st)) as [r w] eqn:E. simpl in H. subst r.
  unfold _handle_rate_limit. change (seq 0 max_retries) with [0; 1; 2].
  rewrite (attempt_ok spotify request 0 [1; 2] st page w E).
  eexists. reflexivity.
Qed.

Lemma stalled_pages fuel : forall (st : State World),
  exists st', more_pages spotify fuel page (JList []) st = (Ok None, st').
Proof.
  assert (W : wants_more page (JList []) = Ok true).
  { unfold wants_more. rewrite page_next. cbn [bindR]. now rewrite next_truthy. }
  induction fuel as [|fuel IH]; intro st; cbn [more_pages];
    unfold bind at 1, lift at 1; rewrite W.
  - eexists. reflexivity.
  - unfold bind at 1, sleep at 1, emit at 1, modify at 1. unfold bind at 1.
    destruct (stalled_call (Next page) (mkState (world st) (trace st ++ [Sleep 1])))
      as (st1 & ->).
    unfold bind at 1, lift at 1. rewrite (getitem_in _ _ _ page_empty).
    unfold bind at 1, lift at 1. rewrite page_empty.
    unfold bind at 1, lift at 1. cbn [extend py_iter bindR app]. apply IH.
Qed.

Lemma stalled_playlist fuel playlist_id (st : State World) :
  fst (get_playlist_tracks spotify fuel playlist_id st) = Ok None.
Proof.
  unfold get_playlist_tracks.
  rewrite try_catch_bind. unfold logger at 1, emit at 1, modify at 1.
  rewrite try_catch_bind.
  destruct (stalled_call (PlaylistTracks playlist_id)
                         (mkState (world st) (trace st ++ [Log INFO])))
    as (st1 & ->).
  rewrite try_catch_bind. unfold lift at 1.
  assert (N : no_items page = Ok false).
  { unfold no_items. rewrite (getitem_truthy _ _ _ page_empty). cbn [negb].
    now rewrite (getitem_in _ _ _ page_empty). }
  rewrite N. rewrite try_catch_bind. unfold lift at 1. rewrite page_empty.
  rewrite try_catch_bind.
  destruct (stalled_pages fuel st1) as (st2 & ->). reflexivity.
Qed.

End Stalling.

(** X17.  The loop of [get_playlist_tracks] need not end.  Against a
    service that answers every request with one page, truthy by its link to
    a next page and holding no item, no number of rounds is enough: the
    method neither returns nor raises. *)
Theorem pagination_never_ends {World : Type}
        (spotify : Request -> World -> Result json * World)
        (page next : json) :
  getitem page "items" = Ok (JList []) ->
  getitem page "next" = Ok next ->
  truthy next = true ->
  (forall request w, fst (spotify request w) = Ok page) ->
  forall fuel playlist_id (st : State World),
    fst (get_playlist_tracks spotify fuel playlist_id st) = Ok None.
Proof.
  intros H1 H2 H3 H4 fuel playlist_id st.
  now apply (stalled_playlist spotify page next).
Qed.

(** *** A failure after the first page *)

(** X18.  A failure on a later page costs the tracks already gathered.
    When the first page links to a next one and holds fewer than fifty items,
    and the request for the next page fails with an exception that is no
    rate-limit error and has no [response] that is [None],
    [get_playlist_tracks] returns the empty list, not the items of the first
    page, after these two requests. *)
Theorem later_failure_discards {World : Type}
        (spotify : Request -> World -> Result json * World)
        (fuel : nat) (playlist_id : string) (st : State World)
        (results next : json) (items : list json) (w w' : World) (e : Exn) :
  spotify (PlaylistTracks playlist_id) (world st) = (Ok results, w) ->
  getitem results "items" = Ok (JList items) ->
  getitem results "next" = Ok next -> truthy next = true ->
  List.length items < 50 ->
  spotify (Next results) w = (Raise e, w') ->
  is_rate_limit e = false -> exn_response e <> ResponseNone ->
  1 <= fuel ->
  exists st',
    get_playlist_tracks spotify fuel playlist_id st = (Ok (Some (JList [])), st') /\
    calls (trace st') = calls (trace st) ++ [PlaylistTracks playlist_id; Next results].
Proof.
  intros Hfirst Hitems Hnext Htruthy Hlen Hsecond Hrate Hresp Hfuel.
  destruct fuel as [|fuel]; [lia|].
  unfold get_playlist_tracks.
  rewrite try_catch_bind. unfold logger at 1, emit at 1, modify at 1.
  rewrite try_catch_bind. unfold _handle_rate_limit at 1.
  change (seq 0 max_retries) with [0; 1; 2].
  rewrite (attempt_ok spotify _ 0 [1; 2] _ results w) by exact Hfirst.
  rewrite try_catch_bind. unfold lift at 1.
  assert (N : no_items results = Ok false).
  { unfold no_items. rewrite (getitem_truthy _ _ _ Hitems). cbn [negb].
    now rewrite (getitem_in _ _ _ Hitems). }
  rewrite N. rewrite try_catch_bind. unfold lift at 1. rewrite Hitems.
  rewrite try_catch_bind. cbn [more_pages].
  assert (W : wants_more results (JList items) = Ok true).
  { unfold wants_more. rewrite Hnext. cbn [bindR]. rewrite Htruthy.
    cbn [py_len bindR]. f_equal. now apply Nat.ltb_lt. }
  unfold bind at 1, lift at 1. rewrite W.
  unfold bind at 1, sleep at 1, emit at 1, modify at 1. unfold bind at 1.
  unfold _handle_rate_limit at 1. change (seq 0 max_retries) with [0; 1; 2].
  rewrite (attempt_raise spotify _ 0 [1; 2] _ e w').
  2:{ exact Hsecond. }
  2:{ now rewrite Hrate. }
  unfold bind at 1, logger at 1, emit at 1, modify at 1. unfold bind at 1.
  rewrite (log_response_ok e _ Hresp). unfold ret.
  eexists. split; [reflexivity|].
  cbn [trace]. rewrite !calls_app. cbn [calls flat_map app].
  rewrite calls_response_lines, !app_nil_r. now rewrite <- app_assoc.
Qed.

(** *** A rate-limit error without a response *)

(** X19.  When a call fails with a rate-limit error whose [response] is
    [None], [_handle_rate_limit] neither retries nor re-raises that error:
    the line that logs the status raises an [AttributeError], which takes
    its place, after the one call and without the wait that was announced. *)
Theorem rate_limit_without_response {World : Type}
        (spotify : Request -> World -> Result json * World)
        (request : Request) (st : State World) (e : Exn) (w : World) :
  spotify request (world st) = (Raise e, w) ->
  is_rate_limit e = true ->
  exn_response e = ResponseNone ->
  exists e',
    _handle_rate_limit spotify request st
    = (Raise e', mkState w (trace st ++ [Sleep 1; Called request; Log WARNING])) /\
    exn_class e' = AttributeError.
Proof.
  intros Hcall Hrate Hresp.
  unfold _handle_rate_limit. change (seq 0 max_retries) with [0; 1; 2].
  cbn [attempts]. unfold try_catch at 1, bind at 1, sleep at 1, emit at 1, modify at 1.
  unfold call at 1. cbn [world trace]. rewrite Hcall, Hrate.
  change (0 <? max_retries - 1) with true. cbv iota.
  unfold bind at 1, logger at 1, emit at 1, modify at 1.
  unfold bind at 1, log_response at 1. rewrite Hresp. unfold raise.
  eexists. split; [cbn [world trace]; now rewrite <- !app_assoc|reflexivity].
Qed.

(** *** The search as a whole *)

(** X20.  When no failure of the service carries a response that is
    [None], [search_playlists_by_mood] returns a list and never raises; the
    list holds at most [limit] playlists, no two with the same identifier;
    and the service has been sent the four queries in their order, each
    between one and three times, and nothing else. *)
Theorem search_playlists_total {World : Type}
        (spotify : Request -> World -> Result json * World)
        (mood : string) (limit : nat) (st : State World) :
  (forall request w e, fst (spotify request w) = Raise e ->
                       exn_response e <> ResponseNone) ->
  exists playlists st' k1 k2 k3 k4,
    search_playlists_by_mood spotify mood limit st = (Ok playlists, st') /\
    List.length playlists <= limit /\
    distinct_ids playlists /\
    Forall (fun k => 1 <= k <= max_retries) [k1; k2; k3; k4] /\
    calls (trace st')
    = calls (trace st)
      ++ repeat (Search ("mood " ++ mood) limit) k1
      ++ repeat (Search (mood ++ " music") limit) k2
      ++ repeat (Search (mood ++ " songs") limit) k3
      ++ repeat (Search (mood ++ " playlist") limit) k4.
Proof.
  intro Hlog.
  destruct (search_never_raises spotify Hlog mood limit st) as (playlists & st' & E).
  destruct (search_sends_four_queries spotify Hlog mood limit st)
    as (k1 & k2 & k3 & k4 & Hk & Hsent).
  destruct (search_result_distinct spotify mood limit st playlists st' E)
    as [Hlen Hdistinct].
  rewrite E in Hsent. exists playlists, st', k1, k2, k3, k4. auto.
Qed.

(** *** On concrete services *)

Lemma track_record_defaults_witness :
  exists artist,
    first_artist sample_track = Ok (JDict artist) /\
    (dict_lookup artist "popularity" = None ->
     getitem (JDict (combine track_info_keys
                [ JStr "t1"; JStr "Blue"; JStr "Ann"; JNum 50; JNum 200000;
                  JStr "Skies"; JStr "2020-01-01"; JBool false; JNum 1; JNum 1;
                  JNum 2; JBool false; JStr "album"; JStr "2020-01-01"; JNum 12;
                  JNum 0; JList []; JNum 0 ])) "artist_popularity"
     = Ok (JNum 0)).
Proof.
  destruct (track_record_defaults sample_track _ eq_refl)
    as (artist & Ha & Hp & _).
  exists artist. split; assumption.
Defined.

Lemma get_playlist_tracks_total_witness :
  fst (get_playlist_tracks endless 50 "p" (mkState tt [])) <> Ok None /\
  ((forall request w e, fst (endless request w) = Raise e ->
                        exn_response e <> ResponseNone) ->
   exists page st' n,
     get_playlist_tracks endless 50 "p" (mkState tt []) = (Ok (Some page), st') /\
     py_len page = Ok n /\ n <= 50).
Proof.
  apply (get_playlist_tracks_total endless 50 "p" (mkState tt [])); [|lia].
  intros page w v H. simpl in H. injection H as <-.
  exists (repeat track_item 30). split; [reflexivity|discriminate].
Defined.

(** A page without items that links to a next page. *)
Definition hollow_page : json :=
  JDict [ ("items", JList []);
          ("next", JStr "https://api.spotify.com/v1/playlists/p/tracks") ].

Definition hollow (_ : Request) (w : unit) : Result json * unit :=
  (Ok hollow_page, w).

Lemma pagination_never_ends_witness :
  fst (get_playlist_tracks hollow 1000 "p" (mkState tt [])) = Ok None.
Proof.
  apply (pagination_never_ends hollow hollow_page
           (JStr "https://api.spotify.com/v1/playlists/p/tracks"));
    reflexivity.
Defined.

(** A playlist of which only the first page can be had. *)
Definition server_error : Exn :=
  mkExn ClientError "http status: 500, code: -1 - Server error" NoResponseAttr.

Definition torn (request : Request) (w : unit) : Result json * unit :=
  match request with
  | Next _ => (Raise server_error, w)
  | _ => (Ok endless_page, w)
  end.

Lemma later_failure_discards_witness :
  exists st',
    get_playlist_tracks torn 5 "p" (mkState tt []) = (Ok (Some (JList [])), st') /\
    calls (trace st') = calls [] ++ [PlaylistTracks "p"; Next endless_page].
Proof.
  apply (later_failure_discards torn 5 "p" (mkState tt []) endless_page
           (JStr "https://api.spotify.com/v1/playlists/p/tracks")
           (repeat track_item 30) tt tt server_error);
    try reflexivity; try discriminate; simpl; lia.
Defined.

(** A rate-limit error as the HTTP library raises it when no response has
    come. *)
Definition rate_limit_unanswered : Exn :=
  mkExn ClientError "429 Too Many Requests" ResponseNone.

Definition unanswered (_ : Request) (w : unit) : Result json * unit :=
  (Raise rate_limit_unanswered, w).

Lemma rate_limit_without_response_witness :
  exists e',
    _handle_rate_limit unanswered (Track "t1") (mkState tt [])
    = (Raise e', mkState tt ([] ++ [Sleep 1; Called (Track "t1"); Log WARNING])) /\
    exn_class e' = AttributeError.
Proof.
  apply (rate_limit_without_response unanswered (Track "t1") (mkState tt [])
                                     rate_limit_unanswered tt);
    reflexivity.
Defined.

(** A service that knows two playlists and finds them for every query. *)
Definition found_playlists : json :=
  JDict [("playlists",
          JDict [("items", JList [ JDict [("id", JStr "p1")];
                                   JDict [("id", JStr "p2")] ])])].

Definition library (_ : Request) (w : unit) : Result json * unit :=
  (Ok found_playlists, w).

Lemma search_playlists_total_witness :
  exists playlists st' k1 k2 k3 k4,
    search_playlists_by_mood library "calm" 5 (mkState tt [])
    = (Ok playlists, st') /\
    List.length playlists <= 5 /\
    distinct_ids playlists /\
    Forall (fun k => 1 <= k <= max_retries) [k1; k2; k3; k4] /\
    calls (trace st')
    = calls []
      ++ repeat (Search ("mood " ++ "calm") 5) k1
      ++ repeat (Search ("calm" ++ " music") 5) k2
      ++ repeat (Search ("calm" ++ " songs") 5) k3
      ++ repeat (Search ("calm" ++ " playlist") 5) k4.
Proof.
  apply (search_playlists_total library "calm" 5 (mkState tt [])).
  intros request w e H. discriminate H.
Defined.

End RequestFacts.

(** ** Collecting a dataset and publishing a playlist *)

Module DataCollectionFacts.

Import SpotifyDataCollector SpotifyDataCollectorFacts RequestFacts.
Import DataCollection.
Local Open Scope nat_scope.

(** *** Running a computation step by step *)

Lemma bind_ok {S A B} (c : M S A) (k : A -> M S B) s b s' :
  bind c k s = (Ok b, s') ->
  exists a s1, c s = (Ok a, s1) /\ k a s1 = (Ok b, s').
Proof.
  unfold bind. destruct (c s) as [[a|e] s1]; [eauto|discriminate].
Qed.

Lemma lift_ok {S A} (r : Result A) (s : S) a s' :
  lift r s = (Ok a, s') -> r = Ok a /\ s' = s.
Proof. unfold lift. now intros [= -> ->]. Qed.

Lemma on_state_ok {World L A} (c : M (State World) A) (s : State World * L) a s' :
  on_state c s = (Ok a, s') ->
  exists st', c (fst s) = (Ok a, st') /\ s' = (st', snd s).
Proof.
  unfold on_state. destruct (c (fst s)) as [r st'].
  intros [= -> <-]. eauto.
Qed.

(** *** The records of a mood *)

(** A record as [collect_mood_data] builds it: the mood, then the eighteen
    keys of a track record. *)
Definition mood_record (mood : string) (record : json) : Prop :=
  exists fields,
    record = JDict (("mood", JStr mood) :: fields) /\
    map fst fields = track_info_keys.

(** The pauses among the asides. *)
Definition pauses (asides : list (nat * Aside)) : list Q :=
  flat_map (fun a => match snd a with Paused s => [s] | _ => [] end) asides.

Lemma pauses_app l1 l2 : pauses (l1 ++ l2) = pauses l1 ++ pauses l2.
Proof. apply flat_map_app. Qed.

Lemma dict_set_fresh kv key v :
  ~ In key (map fst kv) -> dict_set kv key v = kv ++ [(key, v)].
Proof.
  induction kv as [|[k v0] kv IH]; simpl; intro H; [reflexivity|].
  destruct (String.eqb_spec k key) as [->|_]; [tauto|].
  f_equal. apply IH. tauto.
Qed.

Lemma dict_update_fresh more : forall base,
  NoDup (map fst (base ++ more)) -> dict_update base more = base ++ more.
Proof.
  induction more as [|[k v] more IH]; intros base H; simpl.
  - now rewrite app_nil_r.
  - unfold dict_update in *. simpl. rewrite dict_set_fresh.
    + rewrite IH; rewrite <- app_assoc; [reflexivity|exact H].
    + rewrite map_app in H. simpl in H. apply NoDup_remove_2 in H.
      intro Hin. apply H, in_or_app. now left.
Qed.

Lemma record_keys_NoDup : NoDup ("mood" :: track_info_keys).
Proof.
  unfold track_info_keys.
  repeat (constructor; [simpl; intuition discriminate|]). constructor.
Qed.

Lemma with_mood_record mood v record :
  is_track_record v -> with_mood mood v = Ok record -> mood_record mood record.
Proof.
  intros (fields & -> & Hk). simpl. intros [= <-].
  exists fields. split; [|exact Hk].
  rewrite dict_update_fresh; [reflexivity|].
  simpl. rewrite Hk. apply record_keys_NoDup.
Qed.

Section Gathering.

Context {World : Type}.
Variable spotify : Request -> World -> Result json * World.
Variable odd_playlist_tracks : json -> M (State World) (option json).
Variable odd_track_info : json -> M (State World) json.

(** Whatever the client makes of an identifier that is no string, what
    [get_track_info] then returns is nothing or a track record. *)
Hypothesis odd_track_info_post :
  forall id, post (odd_track_info id) (fun v => v = JNull \/ is_track_record v).

Lemma get_track_info_post track_id :
  post (get_track_info spotify track_id)
       (fun v => v = JNull \/ is_track_record v).
Proof.
  unfold get_track_info. apply post_try_catch.
  - apply post_bind. intros _. apply post_bind. intros track.
    destruct (negb (truthy track)).
    + apply post_bind. intros _. apply post_ret. now left.
    + apply post_lift. intros v Hv. right. now apply (track_info_record track).
  - intro e. apply post_bind. intros _. apply post_bind. intros _.
    apply post_ret. now left.
Qed.

Lemma track_info_of_post id :
  post (track_info_of spotify odd_track_info id)
       (fun v => v = JNull \/ is_track_record v).
Proof.
  destruct id; simpl; try apply odd_track_info_post. apply get_track_info_post.
Qed.

(** What a run of the loops adds: records of the mood, no more than the
    number asked for, and one pause of a second and a half for each. *)
Definition gathered (mood : string) (num_tracks : nat)
           (tracks_data : list json) (s : Session World)
           (tracks_data' : list json) (s' : Session World) : Prop :=
  exists records naps,
    tracks_data' = tracks_data ++ records /\
    List.length tracks_data' <= num_tracks /\
    Forall (mood_record mood) records /\
    snd s' = snd s ++ naps /\
    pauses naps = repeat (3 # 2)%Q (List.length records) /\
    List.length naps = List.length records.

Lemma gathered_refl mood num_tracks tracks_data s :
  List.length tracks_data <= num_tracks ->
  gathered mood num_tracks tracks_data s tracks_data s.
Proof.
  intro H. exists [], []. rewrite !app_nil_r. repeat split; auto.
Qed.

Lemma gathered_trans mood num_tracks d1 s1 d2 s2 d3 s3 :
  gathered mood num_tracks d1 s1 d2 s2 ->
  gathered mood num_tracks d2 s2 d3 s3 ->
  gathered mood num_tracks d1 s1 d3 s3.
Proof.
  intros (r1 & n1 & -> & L1 & F1 & E1 & P1 & N1)
         (r2 & n2 & -> & L2 & F2 & E2 & P2 & N2).
  exists (r1 ++ r2), (n1 ++ n2).
  split; [now rewrite app_assoc|]. split; [exact L2|].
  split; [now apply Forall_app|].
  split; [rewrite E2, E1; now rewrite <- app_assoc|].
  split; [|rewrite !length_app; lia].
  rewrite pauses_app, P1, P2, length_app. now rewrite repeat_app.
Qed.

Lemma gathered_asides mood num_tracks d s d' st' :
  gathered mood num_tracks d s d' (fst s, snd s) ->
  gathered mood num_tracks d (st', snd s) d' (st', snd s).
Proof. intros (r & n & H). exists r, n. exact H. Qed.

Lemma gather_gathered mood num_tracks items : forall tracks_data s tracks_data' s',
  List.length tracks_data <= num_tracks ->
  gather spotify odd_track_info mood num_tracks items tracks_data s
  = (Ok tracks_data', s') ->
  gathered mood num_tracks tracks_data s tracks_data' s'.
Proof.
  induction items as [|item items IH]; intros d s d' s' Hd H.
  - injection H as <- <-. now apply gathered_refl.
  - cbn [gather] in H.
    destruct (num_tracks <=? List.length d) eqn:Efull.
    { injection H as <- <-. now apply gathered_refl. }
    apply Nat.leb_gt in Efull.
    apply bind_ok in H. destruct H as (track & s1 & H1 & H).
    apply lift_ok in H1. destruct H1 as [_ ->].
    apply bind_ok in H. destruct H as (skip & s1 & H1 & H).
    apply lift_ok in H1. destruct H1 as [_ ->].
    destruct skip; [now apply IH|].
    apply bind_ok in H. destruct H as (id & s1 & H1 & H).
    apply lift_ok in H1. destruct H1 as [_ ->].
    apply bind_ok in H. destruct H as (info & s1 & H1 & H).
    apply on_state_ok in H1. destruct H1 as (st1 & Hinfo & ->).
    apply track_info_of_post in Hinfo.
    destruct (negb (truthy info)) eqn:Etruthy.
    { specialize (IH _ _ _ _ Hd H).
      destruct IH as (r & n & E1 & E2 & E3 & E4 & E5). exists r, n.
      cbn [snd] in E4. repeat split; tauto. }
    destruct Hinfo as [->|Hrecord]; [discriminate|].
    apply bind_ok in H. destruct H as (record & s1 & H1 & H).
    apply lift_ok in H1. destruct H1 as [Hrec ->].
    apply (with_mood_record mood) in Hrec; [|exact Hrecord].
    apply bind_ok in H. destruct H as ([] & s1 & H1 & H).
    unfold pause, aside, modify in H1. injection H1 as <-.
    apply IH in H; [|rewrite length_app; simpl; lia].
    destruct H as (r & n & -> & E2 & E3 & E4 & E5 & E6). cbn [fst snd] in E4.
    exists (record :: r), ((List.length (trace st1), Paused (3 # 2)%Q) :: n).
    split; [now rewrite <- app_assoc|]. split; [exact E2|].
    split; [now constructor|].
    split; [rewrite E4; now rewrite <- app_assoc|].
    split; [|simpl; now rewrite E6].
    change (pauses ((List.length (trace st1), Paused (3 # 2)%Q) :: n))
      with ((3 # 2)%Q :: pauses n).
    now rewrite E5.
Qed.

Lemma collect_playlists_gathered fuel mood num_tracks playlists :
  forall tracks_data s tracks_data' s',
    List.length tracks_data <= num_tracks ->
    collect_playlists spotify odd_playlist_tracks odd_track_info
                      fuel mood num_tracks playlists tracks_data s
    = (Ok (Some tracks_data'), s') ->
    gathered mood num_tracks tracks_data s tracks_data' s'.
Proof.
  induction playlists as [|playlist playlists IH]; intros d s d' s' Hd H.
  - injection H as <- <-. now apply gathered_refl.
  - cbn [collect_playlists] in H.
    apply bind_ok in H. destruct H as (id & s1 & H1 & H).
    apply lift_ok in H1. destruct H1 as [_ ->].
    apply bind_ok in H. destruct H as (tracks & s1 & H1 & H).
    apply on_state_ok in H1. destruct H1 as (st1 & _ & ->).
    destruct tracks as [tracks|]; [|discriminate].
    apply bind_ok in H. destruct H as (items & s1 & H1 & H).
    apply lift_ok in H1. destruct H1 as [_ ->].
    apply bind_ok in H. destruct H as (d1 & s1 & H1 & H).
    apply gather_gathered in H1; [|exact Hd].
    assert (Hd1 : List.length d1 <= num_tracks)
      by (destruct H1 as (r & n & _ & L & _); exact L).
    apply IH in H; [|exact Hd1].
    pose proof (gathered_trans _ _ _ _ _ _ _ _ H1 H) as (r & n & G).
    exists r, n. exact G.
Qed.

End Gathering.

Lemma collect_mood_data_gathered {World : Type}
      (spotify : Request -> World -> Result json * World)
      (odd_playlist_tracks : json -> M (State World) (option json))
      (odd_track_info : json -> M (State World) json)
      (fuel : nat) (mood : string) (num_tracks : nat)
      (s s' : Session World) (tracks_data : list json) :
  (forall id st v st', odd_track_info id st = (Ok v, st') ->
                       v = JNull \/ is_track_record v) ->
  collect_mood_data spotify odd_playlist_tracks odd_track_info
                    fuel mood num_tracks s
  = (Ok (Some tracks_data), s') ->
  exists s1, snd s1 = snd s /\ gathered mood num_tracks [] s1 tracks_data s'.
Proof.
  intros Hodd H. unfold collect_mood_data in H.
  apply bind_ok in H. destruct H as (playlists & s1 & H1 & H).
  apply on_state_ok in H1. destruct H1 as (st1 & _ & ->).
  apply (collect_playlists_gathered spotify odd_playlist_tracks odd_track_info Hodd)
    in H; [|simpl; lia].
  eexists. split; [|exact H]. reflexivity.
Qed.

(** X21.  [collect_mood_data] returns at most [num_tracks] records.  Each
    is a dictionary that starts with the mood and goes on with the eighteen
    keys of a track record, and for each the method has paused once, for a
    second and a half. *)
Theorem collect_mood_data_records {World : Type}
        (spotify : Request -> World -> Result json * World)
        (odd_playlist_tracks : json -> M (State World) (option json))
        (odd_track_info : json -> M (State World) json)
        (fuel : nat) (mood : string) (num_tracks : nat)
        (s s' : Session World) (tracks_data : list json) :
  (forall id st v st', odd_track_info id st = (Ok v, st') ->
                       v = JNull \/ is_track_record v) ->
  collect_mood_data spotify odd_playlist_tracks odd_track_info
                    fuel mood num_tracks s
  = (Ok (Some tracks_data), s') ->
  List.length tracks_data <= num_tracks /\
  Forall (mood_record mood) tracks_data /\
  exists naps,
    snd s' = snd s ++ naps /\
    pauses naps = repeat (3 # 2)%Q (List.length tracks_data) /\
    List.length naps = List.length tracks_data.
Proof.
  intros Hodd H.
  destruct (collect_mood_data_gathered _ _ _ _ _ _ _ _ _ Hodd H)
    as (s1 & E1 & r & n & -> & L & F & E & P & N).
  simpl in *. rewrite E1 in E.
  repeat split; auto. exists n. auto.
Qed.

(** *** The whole dataset *)

Section Moods.

Context {World : Type}.
Variable spotify : Request -> World -> Result json * World.
Variable odd_playlist_tracks : json -> M (State World) (option json).
Variable odd_track_info : json -> M (State World) json.

Hypothesis odd_track_info_post :
  forall id st v st', odd_track_info id st = (Ok v, st') ->
                      v = JNull \/ is_track_record v.

(** The rows of one mood: at most twenty records of that mood. *)
Definition mood_rows (mood : string) (rows : list json) : Prop :=
  List.length rows <= 20 /\ Forall (mood_record mood) rows.

Lemma collect_moods_rows fuel moods : forall all_data s all_data' s',
  collect_moods spotify odd_playlist_tracks odd_track_info fuel moods all_data s
  = (Ok (Some all_data'), s') ->
  exists parts,
    all_data' = all_data ++ List.concat parts /\
    Forall2 mood_rows moods parts.
Proof.
  induction moods as [|mood moods IH]; intros d s d' s' H.
  - injection H as <- <-. exists []. simpl. rewrite app_nil_r. auto.
  - cbn [collect_moods] in H.
    apply bind_ok in H. destruct H as ([rows|] & s1 & H1 & H); [|discriminate].
    apply collect_mood_data_gathered in H1; [|exact odd_track_info_post].
    destruct H1 as (s0 & _ & r & n & E & L & F & _). simpl in E. subst rows.
    apply IH in H. destruct H as (parts & -> & Hparts).
    exists (r :: parts). simpl. rewrite <- app_assoc.
    split; [reflexivity|]. constructor; [now split|exact Hparts].
Qed.

Lemma concat_rows_length moods : forall parts,
  Forall2 mood_rows moods parts ->
  List.length (List.concat parts) <= 20 * List.length moods.
Proof.
  induction moods as [|mood moods IH]; intros parts H;
    inversion H as [|? rows ? parts' [L _] Hrest]; subst.
  - simpl. lia.
  - simpl. rewrite length_app. specialize (IH _ Hrest). lia.
Qed.

End Moods.

(** X22.  The rows [collect_all_mood_data] returns come mood by mood, in
    the order of the moods it was given or, given none, of its seven default
    moods; each mood has at most twenty rows, every one a record of that
    mood.  So there are at most twenty rows for every mood, 140 by
    default. *)
Theorem collect_all_mood_data_rows {World : Type}
        (spotify : Request -> World -> Result json * World)
        (odd_playlist_tracks : json -> M (State World) (option json))
        (odd_track_info : json -> M (State World) json)
        (fuel : nat) (moods : option (list string))
        (s s' : Session World) (all_data : list json) :
  (forall id st v st', odd_track_info id st = (Ok v, st') ->
                       v = JNull \/ is_track_record v) ->
  collect_all_mood_data spotify odd_playlist_tracks odd_track_info fuel moods s
  = (Ok (Some all_data), s') ->
  let moods := match moods with
               | None => [ "happy"; "sad"; "energetic"; "calm"; "angry";
                           "romantic"; "melancholic" ]
               | Some moods => moods
               end in
  (exists parts, all_data = List.concat parts /\ Forall2 mood_rows moods parts) /\
  List.length all_data <= 20 * List.length moods.
Proof.
  intros Hodd H ms. unfold collect_all_mood_data in H.
  apply (collect_moods_rows spotify odd_playlist_tracks odd_track_info Hodd) in H.
  destruct H as (parts & -> & Hparts). simpl.
  assert (Hms : Forall2 mood_rows ms parts) by (destruct moods; exact Hparts).
  split; [eauto|]. now apply concat_rows_length.
Qed.

(** *** What has been sent stays sent *)

Section Sent.

Context {World : Type}.
Variable spotify : Request -> World -> Result json * World.

(** The requests [C] have been sent, and perhaps others after them. *)
Definition grown (C : list Request) (st : State World) : Prop :=
  exists rest, sent st = C ++ rest.

Lemma grown_refl (st : State World) : grown (sent st) st.
Proof. exists []. now rewrite app_nil_r. Qed.

Lemma grown_more C more (st : State World) : grown (C ++ more) st -> grown C st.
Proof. intros [rest E]. exists (more ++ rest). now rewrite app_assoc. Qed.

Lemma emit_grown C ev : preserves (grown C) (@emit World ev).
Proof.
  intros st [rest E]. unfold grown, sent, emit, modify in *. cbn [snd trace].
  rewrite calls_app, E. exists (rest ++ calls [ev]). now rewrite app_assoc.
Qed.

Lemma call_grown C request : preserves (grown C) (call spotify request).
Proof.
  intros st [rest E]. unfold grown, sent, call in *.
  destruct (spotify request (world st)) as [r w]. cbn [snd trace].
  rewrite calls_app, E. exists (rest ++ calls [Called request]).
  now rewrite app_assoc.
Qed.

Lemma log_response_grown C e : preserves (grown C) (@log_response World e).
Proof.
  unfold log_response. destruct (exn_response e) as [| |c h [t|]].
  - apply preserves_ret.
  - apply preserves_raise.
  - repeat (apply preserves_bind; [apply emit_grown|intros _]). apply emit_grown.
  - repeat (apply preserves_bind; [apply emit_grown|intros _]). apply preserves_ret.
Qed.

Lemma attempts_grown C remaining request :
  preserves (grown C) (attempts remaining (call spotify request)).
Proof.
  induction remaining as [|a rest IH]; cbn [attempts].
  - apply preserves_ret.
  - apply preserves_try_catch.
    + apply preserves_bind; [apply emit_grown|intros _; apply call_grown].
    + intro e. destruct (is_rate_limit e); [|apply preserves_raise].
      destruct (a <? max_retries - 1); [|apply preserves_raise].
      apply preserves_bind; [apply emit_grown|intros _].
      apply preserves_bind; [apply log_response_grown|intros _].
      apply preserves_bind; [apply emit_grown|intros _]. exact IH.
Qed.

Lemma get_track_info_grown C track_id :
  preserves (grown C) (get_track_info spotify track_id).
Proof.
  unfold get_track_info. apply preserves_try_catch.
  - apply preserves_bind; [apply emit_grown|intros _].
    apply preserves_bind; [apply attempts_grown|intros track].
    destruct (negb (truthy track)); [|apply preserves_lift].
    apply preserves_bind; [apply emit_grown|intros _]. apply preserves_ret.
  - intro e. apply preserves_bind; [apply emit_grown|intros _].
    apply preserves_bind; [apply log_response_grown|intros _]. apply preserves_ret.
Qed.

Lemma more_pages_grown C fuel : forall results tracks,
  preserves (grown C) (more_pages spotify fuel results tracks).
Proof.
  induction fuel as [|fuel IH]; intros results tracks; cbn [more_pages];
    (apply preserves_bind; [apply preserves_lift|intros [|]];
     [|apply preserves_ret]).
  - apply preserves_ret.
  - apply preserves_bind; [apply emit_grown|intros _].
    apply preserves_bind; [apply attempts_grown|intros page].
    apply preserves_bind; [apply preserves_lift|intros [|]]; [|apply IH].
    apply preserves_bind; [apply preserves_lift|intros items].
    apply preserves_bind; [apply preserves_lift|intros tracks']. apply IH.
Qed.

Lemma playlist_rest_grown C fuel results :
  preserves (grown C)
    (missing <- lift (no_items results) ;;
     if missing then (logger WARNING ;; ret (Some (JList [])))
     else
       tracks <- lift (getitem results "items") ;;
       gathered <- more_pages spotify fuel results tracks ;;
       match gathered with
       | None => ret None
       | Some tracks =>
           page <- lift (slice_to tracks 50) ;;
           ret (Some page)
       end)%monad.
Proof.
  apply preserves_bind; [apply preserves_lift|intros [|]].
  - apply preserves_bind; [apply emit_grown|intros _]. apply preserves_ret.
  - apply preserves_bind; [apply preserves_lift|intros tracks].
    apply preserves_bind; [apply more_pages_grown|intros [tracks'|]];
      [|apply preserves_ret].
    apply preserves_bind; [apply preserves_lift|intros page]. apply preserves_ret.
Qed.

Lemma playlist_handler_grown C e :
  preserves (grown C)
    (logger ERROR ;; log_response e ;; ret (Some (JList [])))%monad.
Proof.
  apply preserves_bind; [apply (@emit_grown C)|intros _].
  apply preserves_bind; [apply log_response_grown|intros _]. apply preserves_ret.
Qed.

(** [get_playlist_tracks] asks for the playlist, whatever comes of it. *)
Lemma get_playlist_tracks_asks fuel playlist_id (st : State World) :
  grown (sent st ++ [PlaylistTracks playlist_id])
        (snd (get_playlist_tracks spotify fuel playlist_id st)).
Proof.
  unfold get_playlist_tracks.
  rewrite try_catch_bind. unfold logger at 1, emit at 1, modify at 1.
  rewrite try_catch_bind.
  set (st0 := mkState (world st) (trace st ++ [Log INFO])).
  destruct (handle_rate_limit_sent spotify (PlaylistTracks playlist_id) st0)
    as (k & [Hk _] & Hsent).
  assert (H0 : sent st0 = sent st).
  { unfold sent, st0. simpl. rewrite calls_app. simpl. now rewrite app_nil_r. }
  rewrite H0 in Hsent.
  assert (Hg : grown (sent st ++ [PlaylistTracks playlist_id])
                     (snd (_handle_rate_limit spotify (PlaylistTracks playlist_id) st0))).
  { rewrite <- H0 in *. exists (repeat (PlaylistTracks playlist_id) (k - 1)).
    rewrite Hsent, <- app_assoc. f_equal.
    destruct k; [lia|]. simpl. now rewrite Nat.sub_0_r. }
  destruct (_handle_rate_limit spotify (PlaylistTracks playlist_id) st0)
    as [[results|e] st1]; simpl in Hg.
  - apply preserves_try_catch; [apply playlist_rest_grown| |exact Hg].
    intro e. apply playlist_handler_grown.
  - now apply playlist_handler_grown.
Qed.

Lemma get_playlist_tracks_grown C fuel playlist_id :
  preserves (grown C) (get_playlist_tracks spotify fuel playlist_id).
Proof.
  intros st [rest E].
  destruct (get_playlist_tracks_asks fuel playlist_id st) as [rest' E'].
  exists (rest ++ [PlaylistTracks playlist_id] ++ rest').
  rewrite E', E. now rewrite <- !app_assoc.
Qed.

End Sent.

Section Fetching.

Context {World : Type}.
Variable spotify : Request -> World -> Result json * World.
Variable odd_playlist_tracks : json -> M (State World) (option json).
Variable odd_track_info : json -> M (State World) json.

(** Whatever the client makes of an identifier that is no string, the
    trace keeps the requests that have been sent. *)
Hypothesis odd_playlist_tracks_grown :
  forall id C, preserves (grown C) (odd_playlist_tracks id).
Hypothesis odd_track_info_grown :
  forall id C, preserves (grown C) (odd_track_info id).

Definition grown_session (C : list Request) (s : Session World) : Prop :=
  grown C (fst s).

Lemma on_state_grown {A} C (c : M (State World) A) :
  preserves (grown C) c -> preserves (grown_session C) (on_state c).
Proof.
  intros H [st l] Hs. unfold on_state, grown_session in *. simpl in *.
  specialize (H st Hs). destruct (c st) as [r st']. exact H.
Qed.

Lemma gather_grown C mood num_tracks items : forall tracks_data,
  preserves (grown_session C)
            (gather spotify odd_track_info mood num_tracks items tracks_data).
Proof.
  induction items as [|item items IH]; intro d; cbn [gather].
  - apply preserves_ret.
  - destruct (num_tracks <=? List.length d); [apply preserves_ret|].
    apply preserves_bind; [apply preserves_lift|intros track].
    apply preserves_bind; [apply preserves_lift|intros [|]]; [apply IH|].
    apply preserves_bind; [apply preserves_lift|intros id].
    apply preserves_bind.
    { apply on_state_grown. destruct id; simpl; try apply odd_track_info_grown.
      apply get_track_info_grown. }
    intros info. destruct (negb (truthy info)); [apply IH|].
    apply preserves_bind; [apply preserves_lift|intros record].
    apply preserves_bind; [|intros _; apply IH].
    intros s Hs. exact Hs.
Qed.

Lemma playlist_tracks_of_grown C fuel id :
  preserves (grown C) (playlist_tracks_of spotify odd_playlist_tracks fuel id).
Proof.
  destruct id; simpl; try apply odd_playlist_tracks_grown.
  apply get_playlist_tracks_grown.
Qed.

(** Every playlist with a string for its identifier is asked for among
    the requests [added]. *)
Definition fetched (playlists : list json) (added : list Request) : Prop :=
  Forall (fun playlist =>
            forall playlist_id,
              getitem playlist "id" = Ok (JStr playlist_id) ->
              In (PlaylistTracks playlist_id) added)
         playlists.

Lemma fetched_more playlists before added :
  fetched playlists added -> fetched playlists (before ++ added).
Proof.
  unfold fetched. apply Forall_impl. intros playlist H pid Hpid.
  apply in_or_app. right. now apply H.
Qed.

Lemma collect_playlists_fetched fuel mood num_tracks playlists :
  forall tracks_data s tracks_data' s',
    collect_playlists spotify odd_playlist_tracks odd_track_info
                      fuel mood num_tracks playlists tracks_data s
    = (Ok (Some tracks_data'), s') ->
    exists added,
      sent (fst s') = sent (fst s) ++ added /\ fetched playlists added.
Proof.
  induction playlists as [|playlist playlists IH]; intros d s d' s' H.
  - injection H as _ <-. exists []. split; [now rewrite app_nil_r|constructor].
  - cbn [collect_playlists] in H.
    apply bind_ok in H. destruct H as (id & s1 & H1 & H).
    apply lift_ok in H1. destruct H1 as [Hid ->].
    apply bind_ok in H. destruct H as (tracks & s1 & H1 & H).
    apply on_state_ok in H1. destruct H1 as (st1 & Htracks & ->).
    destruct tracks as [tracks|]; [|discriminate].
    apply bind_ok in H. destruct H as (items & s2 & H1 & H).
    apply lift_ok in H1. destruct H1 as [_ ->].
    apply bind_ok in H. destruct H as (d1 & s2 & Hg & H).
    assert (G1 : grown (sent (fst s)) st1).
    { pose proof (playlist_tracks_of_grown _ fuel id (fst s) (grown_refl (fst s)))
        as G. now rewrite Htracks in G. }
    assert (A1 : forall pid, id = JStr pid ->
                             grown (sent (fst s) ++ [PlaylistTracks pid]) st1).
    { intros pid ->. simpl in Htracks.
      pose proof (get_playlist_tracks_asks spotify fuel pid (fst s)) as G.
      now rewrite Htracks in G. }
    assert (G2 : forall C, grown C st1 -> grown_session C s2).
    { intros C HC.
      pose proof (gather_grown C mood num_tracks items d (st1, snd s) HC) as G.
      now rewrite Hg in G. }
    destruct (IH _ _ _ _ H) as (added & E3 & F3).
    destruct (G2 _ G1) as [first E2].
    exists (first ++ added). split; [now rewrite E3, E2, app_assoc|].
    constructor; [|now apply fetched_more].
    intros pid Hpid. rewrite Hid in Hpid. injection Hpid as ->.
    destruct (G2 _ (A1 pid eq_refl)) as [rest E].
    rewrite E2, <- app_assoc in E. apply app_inv_head in E. rewrite E.
    simpl. now left.
Qed.

End Fetching.

(** X23.  [collect_mood_data] asks for the tracks of every playlist the
    search has found, however small [num_tracks] is: reaching the number of
    records asked for ends the loop over the tracks of one playlist, not the
    loop over the playlists. *)
Theorem every_playlist_is_fetched {World : Type}
        (spotify : Request -> World -> Result json * World)
        (odd_playlist_tracks : json -> M (State World) (option json))
        (odd_track_info : json -> M (State World) json)
        (fuel : nat) (mood : string) (num_tracks : nat)
        (s s' : Session World) (playlists tracks_data : list json)
        (st1 : State World) :
  (forall id C st, (exists rest, calls (trace st) = C ++ rest) ->
                   exists rest, calls (trace (snd (odd_playlist_tracks id st)))
                                = C ++ rest) ->
  (forall id C st, (exists rest, calls (trace st) = C ++ rest) ->
                   exists rest, calls (trace (snd (odd_track_info id st)))
                                = C ++ rest) ->
  search_playlists_by_mood spotify mood 5 (fst s) = (Ok playlists, st1) ->
  collect_mood_data spotify odd_playlist_tracks odd_track_info
                    fuel mood num_tracks s
  = (Ok (Some tracks_data), s') ->
  exists added,
    calls (trace (fst s')) = calls (trace st1) ++ added /\
    Forall (fun playlist =>
              forall playlist_id,
                getitem playlist "id" = Ok (JStr playlist_id) ->
                In (PlaylistTracks playlist_id) added)
           playlists.
Proof.
  intros Hp Ht Hsearch H. unfold collect_mood_data in H.
  apply bind_ok in H. destruct H as (playlists' & s1 & H1 & H).
  apply on_state_ok in H1. destruct H1 as (st1' & Hsearch' & ->).
  rewrite Hsearch in Hsearch'. injection Hsearch' as <- <-.
  apply (collect_playlists_fetched spotify odd_playlist_tracks odd_track_info) in H.
  - exact H.
  - intros id C st. apply Hp.
  - intros id C st. apply Ht.
Qed.

(** *** What can make the collection fail *)

(** An exception of reading a value that is not what was expected. *)
Definition misread (e : Exn) : Prop :=
  exn_response e = NoResponseAttr /\
  (exn_class e = KeyError \/ exn_class e = TypeError).

Definition misreads {A} (r : Result A) : Prop :=
  forall e, r = Raise e -> misread e.

Lemma misreads_Ok {A} (a : A) : misreads (Ok a).
Proof. intros e [=]. Qed.

Lemma misreads_bindR {A B} (r : Result A) (k : A -> Result B) :
  misreads r -> (forall a, misreads (k a)) -> misreads (bindR r k).
Proof.
  intros Hr Hk e. destruct r as [a|e0]; simpl; [exact (Hk a e)|].
  intros [= <-]. now apply Hr.
Qed.

Lemma misreads_getitem x key : misreads (getitem x key).
Proof.
  destruct x; simpl; try (intros e [= <-]; split; auto).
  destruct (dict_lookup fields key); [apply misreads_Ok|].
  intros e [= <-]. split; auto.
Qed.

Lemma misreads_py_iter x : misreads (py_iter x).
Proof. destruct x; simpl; try apply misreads_Ok; intros e [= <-]; split; auto. Qed.

Lemma misreads_with_mood mood v : misreads (with_mood mood v).
Proof. destruct v; simpl; try apply misreads_Ok; intros e [= <-]; split; auto. Qed.

Lemma misreads_no_track track : misreads (no_track track).
Proof.
  unfold no_track. destruct (negb (truthy track)); [apply misreads_Ok|].
  apply misreads_bindR; [apply misreads_getitem|intro id; apply misreads_Ok].
Qed.

Section Failures.

Context {World : Type}.
Variable spotify : Request -> World -> Result json * World.
Variable odd_playlist_tracks : json -> M (State World) (option json).
Variable odd_track_info : json -> M (State World) json.

Hypothesis service_loggable :
  forall request w e, fst (spotify request w) = Raise e -> loggable e.
Hypothesis odd_playlist_tracks_never :
  forall id, raises_only (odd_playlist_tracks id) never.
Hypothesis odd_track_info_never :
  forall id, raises_only (odd_track_info id) never.

Lemma get_track_info_never track_id :
  raises_only (get_track_info spotify track_id) never.
Proof.
  unfold get_track_info. apply (raises_only_try_catch _ _ loggable).
  - apply raises_only_bind;
      [eapply raises_only_weaken; [apply emit_never|intros ? []]|intros _].
    apply raises_only_bind;
      [now apply handle_rate_limit_loggable|intros track].
    destruct (negb (truthy track)).
    + apply raises_only_bind;
        [eapply raises_only_weaken; [apply emit_never|intros ? []]|intros _].
      apply raises_only_ret.
    + apply raises_only_lift, plain_loggable, plain_track_info.
  - intros e He. apply raises_only_bind; [apply emit_never|intros _].
    apply raises_only_bind; [now apply log_response_never|intros _].
    apply raises_only_ret.
Qed.

Lemma search_never mood limit :
  raises_only (search_playlists_by_mood spotify mood limit) never.
Proof.
  intros st e st' E.
  destruct (search_never_raises spotify service_loggable mood limit st)
    as (l & st1 & E1).
  congruence.
Qed.

Lemma unheard {A} (c : M (State World) A) :
  raises_only c never -> raises_only (@on_state World (list (nat * Aside)) A c) misread.
Proof.
  intro H. apply on_state_raises.
  eapply raises_only_weaken; [exact H|intros e []].
Qed.

Lemma gather_misread mood num_tracks items : forall tracks_data,
  raises_only (gather spotify odd_track_info mood num_tracks items tracks_data)
              misread.
Proof.
  induction items as [|item items IH]; intro d; cbn [gather].
  - apply raises_only_ret.
  - destruct (num_tracks <=? List.length d); [apply raises_only_ret|].
    apply raises_only_bind;
      [apply raises_only_lift, misreads_getitem|intros track].
    apply raises_only_bind;
      [apply raises_only_lift, misreads_no_track|intros [|]]; [apply IH|].
    apply raises_only_bind;
      [apply raises_only_lift, misreads_getitem|intros id].
    apply raises_only_bind.
    { apply unheard. destruct id; simpl; try apply odd_track_info_never.
      apply get_track_info_never. }
    intros info. destruct (negb (truthy info)); [apply IH|].
    apply raises_only_bind;
      [apply raises_only_lift, misreads_with_mood|intros record].
    apply raises_only_bind; [apply raises_only_modify|intros _]. apply IH.
Qed.

Lemma collect_playlists_misread fuel mood num_tracks playlists :
  forall tracks_data,
    raises_only (collect_playlists spotify odd_playlist_tracks odd_track_info
                                   fuel mood num_tracks playlists tracks_data)
                misread.
Proof.
  induction playlists as [|playlist playlists IH]; intro d; cbn [collect_playlists].
  - apply raises_only_ret.
  - apply raises_only_bind;
      [apply raises_only_lift, misreads_getitem|intros id].
    apply raises_only_bind.
    { apply unheard. destruct id; simpl; try apply odd_playlist_tracks_never.
      now apply get_playlist_tracks_never. }
    intros [tracks|]; [|apply raises_only_ret].
    apply raises_only_bind;
      [apply raises_only_lift, misreads_py_iter|intros items].
    apply raises_only_bind; [apply gather_misread|intros d1]. apply IH.
Qed.

End Failures.

(** X24.  [collect_mood_data] has no handler of its own.  When no failure
    of the service carries a response that is [None], the three methods it
    calls swallow every failure of the service; what it can still raise is
    the [KeyError] or [TypeError] of reading an item, a track or a playlist
    that is not shaped as expected, an exception without a [response]. *)
Theorem collect_mood_data_failures {World : Type}
        (spotify : Request -> World -> Result json * World)
        (odd_playlist_tracks : json -> M (State World) (option json))
        (odd_track_info : json -> M (State World) json)
        (fuel : nat) (mood : string) (num_tracks : nat)
        (s s' : Session World) (e : Exn) :
  (forall request w e, fst (spotify request w) = Raise e ->
                       exn_response e <> ResponseNone) ->
  (forall id st e st', odd_playlist_tracks id st <> (Raise e, st')) ->
  (forall id st e st', odd_track_info id st <> (Raise e, st')) ->
  collect_mood_data spotify odd_playlist_tracks odd_track_info
                    fuel mood num_tracks s
  = (Raise e, s') ->
  exn_response e = NoResponseAttr /\
  (exn_class e = KeyError \/ exn_class e = TypeError).
Proof.
  intros Hlog Hp Ht H.
  assert (Hp' : forall id, raises_only (odd_playlist_tracks id) never)
    by (intros id st e0 st' E; exact (Hp id st e0 st' E)).
  assert (Ht' : forall id, raises_only (odd_track_info id) never)
    by (intros id st e0 st' E; exact (Ht id st e0 st' E)).
  assert (R : raises_only (collect_mood_data spotify odd_playlist_tracks
                                             odd_track_info fuel mood num_tracks)
                          misread).
  { unfold collect_mood_data. apply raises_only_bind.
    - apply unheard. now apply search_never.
    - intro playlists. now apply collect_playlists_misread. }
  exact (R _ _ _ H).
Qed.

(** *** Publishing a playlist *)

(** The calls of the client's other methods among the asides. *)
Definition asked (asides : list (nat * Aside)) : list AccountRequest :=
  flat_map (fun a => match snd a with Asked r => [r] | _ => [] end) asides.

Lemma asked_app l1 l2 : asked (l1 ++ l2) = asked l1 ++ asked l2.
Proof. apply flat_map_app. Qed.

(** The slices [track_uris[i:i + 100]] for [i] in
    [range(0, len(track_uris), 100)]. *)
Definition chunks (track_uris : list string) : list (list string) :=
  map (fun i => firstn 100 (skipn i track_uris))
      (py_range (List.length track_uris) 100).

Lemma slices_concat {A} n m : forall l : list A,
  List.length l <= m * n ->
  List.concat (map (fun i => firstn n (skipn i l))
                   (map (fun k => k * n) (seq 0 m))) = l.
Proof.
  induction m as [|m IH]; intros l Hl.
  - simpl in *. destruct l; [reflexivity|simpl in Hl; lia].
  - cbn [seq map List.concat]. rewrite <- seq_shift, !map_map.
    cbn [Nat.mul skipn].
    rewrite (map_ext _ (fun k => firstn n (skipn (k * n) (skipn n l)))).
    + rewrite <- map_map with (f := fun k => k * n)
                              (g := fun i => firstn n (skipn i (skipn n l))).
      rewrite IH; [apply firstn_skipn|].
      rewrite length_skipn. simpl in Hl. lia.
    + intro k. cbn [Nat.mul]. rewrite Nat.add_comm, <- skipn_skipn. reflexivity.
Qed.

Lemma ceil_div_covers n len : 0 < n -> len <= (len + n - 1) / n * n.
Proof.
  intro Hn. pose proof (Nat.mul_succ_div_gt (len + n - 1) n) as H.
  assert (n <> 0) by lia. specialize (H H0). lia.
Qed.

Lemma ceil_div_tight n len k :
  0 < n -> k < (len + n - 1) / n -> k * n < len.
Proof.
  intros Hn Hk. pose proof (Nat.Div0.mul_div_le (len + n - 1) n) as H. nia.
Qed.

Lemma chunks_concat l : List.concat (chunks l) = l.
Proof.
  unfold chunks, py_range. apply slices_concat, ceil_div_covers. lia.
Qed.

Lemma chunks_sizes l : Forall (fun c => 1 <= List.length c <= 100) (chunks l).
Proof.
  unfold chunks, py_range. rewrite map_map. apply Forall_forall.
  intros c Hc. apply in_map_iff in Hc. destruct Hc as (k & <- & Hk).
  apply in_seq in Hk. destruct Hk as [_ Hk]. rewrite Nat.add_0_l in Hk.
  apply ceil_div_tight in Hk; [|lia].
  rewrite length_firstn, length_skipn. lia.
Qed.

Section Publishing.

Context {World : Type}.
Variable account : AccountRequest -> World -> Result json * World.
Context {Cell : Type}.
Variable py_str : Cell -> string.

Lemma ask_ok request (s : Session World) v s' :
  ask account request s = (Ok v, s') ->
  fst (account request (world (fst s))) = Ok v /\
  world (fst s') = snd (account request (world (fst s))) /\
  trace (fst s') = trace (fst s) /\
  asked (snd s') = asked (snd s) ++ [request].
Proof.
  unfold ask. destruct (account request (world (fst s))) as [r w].
  intros [= -> <-]. simpl. rewrite asked_app. simpl. auto.
Qed.

(** The requests and the sleeps of the loop over the chunks. *)
Lemma add_chunks_ok playlist track_uris starts : forall (s s' : Session World),
  for_each starts (add_chunk account playlist track_uris) s = (Ok tt, s') ->
  exists adds,
    asked (snd s') = asked (snd s) ++ adds /\
    Forall2 (fun add i =>
               exists id, getitem playlist "id" = Ok id /\
                          add = PlaylistAddItems id (firstn 100 (skipn i track_uris)))
            adds starts /\
    sleeps (trace (fst s')) = sleeps (trace (fst s)) ++ repeat 1 (List.length starts) /\
    calls (trace (fst s')) = calls (trace (fst s)).
Proof.
  induction starts as [|i starts IH]; intros s s' H.
  - injection H as <-. exists []. rewrite !app_nil_r. auto.
  - cbn [for_each] in H.
    apply bind_ok in H. destruct H as ([] & s1 & H1 & H).
    unfold add_chunk in H1.
    apply bind_ok in H1. destruct H1 as (id & s2 & H2 & H1).
    apply lift_ok in H2. destruct H2 as [Hid ->].
    apply bind_ok in H1. destruct H1 as (v & s2 & H2 & H1).
    apply ask_ok in H2. destruct H2 as (_ & _ & Ht & Ha).
    apply on_state_ok in H1. destruct H1 as (st3 & H3 & ->).
    unfold sleep, emit, modify in H3. injection H3 as <-.
    apply IH in H. destruct H as (adds & Ha' & Hadds & Hs & Hc).
    cbn [fst snd trace] in *.
    exists (PlaylistAddItems id (firstn 100 (skipn i track_uris)) :: adds).
    split; [rewrite Ha', Ha; now rewrite <- app_assoc|].
    split; [constructor; eauto|].
    split.
    + rewrite Hs, sleeps_app, Ht. simpl. now rewrite <- app_assoc.
    + rewrite Hc, calls_app, Ht. simpl. now rewrite app_nil_r.
Qed.

Lemma log_playlist_ok playlist (s s' : Session World) :
  log_playlist playlist s = (Ok tt, s') ->
  asked (snd s') = asked (snd s) /\
  sleeps (trace (fst s')) = sleeps (trace (fst s)) /\
  calls (trace (fst s')) = calls (trace (fst s)).
Proof.
  unfold log_playlist. intro H.
  apply bind_ok in H. destruct H as (name & s1 & H1 & H).
  apply lift_ok in H1. destruct H1 as [_ ->].
  apply bind_ok in H. destruct H as ([] & s1 & H1 & H).
  apply on_state_ok in H1. destruct H1 as (st1 & H1 & ->).
  unfold logger, emit, modify in H1. injection H1 as <-.
  apply bind_ok in H. destruct H as (url & s1 & H1 & H).
  apply lift_ok in H1. destruct H1 as [_ ->].
  apply on_state_ok in H. destruct H as (st2 & H & ->).
  unfold logger, emit, modify in H. injection H as <-. cbn [fst snd trace].
  split; [reflexivity|].
  rewrite !sleeps_app, !calls_app. simpl. now rewrite !app_nil_r.
Qed.

Lemma create_playlist_body name description tracks_df (s s' : Session World)
      playlist :
  create_playlist account py_str name description tracks_df s = (Ok playlist, s') ->
  (user <- ask account CurrentUser ;;
   user_id <- lift (getitem user "id") ;;
   playlist <- ask account (UserPlaylistCreate user_id name description) ;;
   ids <- lift (column Cell tracks_df "id") ;;
   let track_uris := map (track_uri Cell py_str) ids in
   for_each (py_range (List.length track_uris) 100)
            (add_chunk account playlist track_uris) ;;
   log_playlist playlist ;;
   ret playlist)%monad s = (Ok playlist, s').
Proof.
  unfold create_playlist, try_catch.
  match goal with |- (match ?b with _ => _ end) = _ -> _ =>
    destruct b as [[p|e] s1] end; [auto|].
  intro H. apply bind_ok in H. destruct H as (u & s2 & _ & H). discriminate H.
Qed.

End Publishing.

(** X25.  The slices [create_playlist] cuts the track URIs into, a hundred
    at a time, put end to end give the URIs back, each once and in their
    order; every slice holds between one and a hundred URIs, so no empty
    request is made; and there is one slice for every hundred URIs or part
    of a hundred. *)
Theorem chunks_cover (track_uris : list string) :
  List.concat (chunks track_uris) = track_uris /\
  Forall (fun chunk => 1 <= List.length chunk <= 100) (chunks track_uris) /\
  List.length (chunks track_uris) = (List.length track_uris + 99) / 100.
Proof.
  split; [apply chunks_concat|]. split; [apply chunks_sizes|].
  unfold chunks, py_range. rewrite !length_map, length_seq.
  f_equal. lia.
Qed.

(** X26.  When [create_playlist] returns, it has asked for the current
    user, has created one playlist in that user's name, and has added the
    URIs of the column ['id'], slice by slice in their order, to the
    playlist it returns; it has slept for a second after each slice; and it
    has made no other call. *)
Theorem create_playlist_adds_all {World : Type}
        (account : AccountRequest -> World -> Result json * World)
        {Cell : Type} (py_str : Cell -> string)
        (name description : string) (tracks_df : DataFrame Cell)
        (s s' : Session World) (playlist : json) :
  create_playlist account py_str name description tracks_df s = (Ok playlist, s') ->
  exists user_id ids adds,
    column Cell tracks_df "id" = Ok ids /\
    asked (snd s')
    = asked (snd s)
      ++ [CurrentUser; UserPlaylistCreate user_id name description] ++ adds /\
    Forall2 (fun add chunk =>
               exists id, getitem playlist "id" = Ok id /\
                          add = PlaylistAddItems id chunk)
            adds (chunks (map (fun cell => ("spotify:track:" ++ py_str cell)%string)
                             ids)) /\
    sleeps (trace (fst s'))
    = sleeps (trace (fst s)) ++ repeat 1 (List.length adds) /\
    calls (trace (fst s')) = calls (trace (fst s)).
Proof.
  intro H. apply create_playlist_body in H.
  apply bind_ok in H. destruct H as (user & s1 & H1 & H).
  apply ask_ok in H1. destruct H1 as (_ & _ & T1 & A1).
  apply bind_ok in H. destruct H as (user_id & s2 & H2 & H).
  apply lift_ok in H2. destruct H2 as [_ ->].
  apply bind_ok in H. destruct H as (p & s2 & H2 & H).
  apply ask_ok in H2. destruct H2 as (_ & _ & T2 & A2).
  apply bind_ok in H. destruct H as (ids & s3 & H3 & H).
  apply lift_ok in H3. destruct H3 as [Hids ->].
  apply bind_ok in H. destruct H as ([] & s3 & H3 & H).
  apply add_chunks_ok in H3. destruct H3 as (adds & A3 & Hadds & S3 & C3).
  apply bind_ok in H. destruct H as ([] & s4 & H4 & H).
  apply log_playlist_ok in H4. destruct H4 as (A4 & S4 & C4).
  injection H as -> ->.
  exists user_id, ids, adds. split; [exact Hids|].
  split; [rewrite A4, A3, A2, A1; now rewrite <- !app_assoc|].
  assert (Hc : Forall2 (fun add chunk =>
                          exists id, getitem playlist "id" = Ok id /\
                                     add = PlaylistAddItems id chunk)
                       adds (chunks (map (track_uri Cell py_str) ids))).
  { unfold chunks. clear -Hadds.
    induction Hadds; simpl; constructor; auto. }
  split; [exact Hc|]. split; [|now rewrite C4, C3, T2, T1].
  rewrite S4, S3, T2, T1. f_equal. f_equal.
  apply Forall2_length in Hadds. now rewrite Hadds.
Qed.

Lemma column_missing {Cell : Type} (tracks_df : DataFrame Cell) name :
  ~ In name (map fst tracks_df) ->
  column Cell tracks_df name = Raise (raised KeyError name).
Proof.
  induction tracks_df as [|[k cells] df IH]; simpl; intro H; [reflexivity|].
  destruct (String.eqb_spec k name) as [->|_]; [tauto|]. apply IH. tauto.
Qed.

(** X27.  [create_playlist] creates the playlist before it looks at the
    data frame.  Given a data frame without a column ['id'], as an empty one
    is, it raises the [KeyError] of the missing column only after the
    playlist has been created in the user's account, and leaves that
    playlist there, empty. *)
Theorem playlist_created_before_frame_is_read {World : Type}
        (account : AccountRequest -> World -> Result json * World)
        {Cell : Type} (py_str : Cell -> string)
        (name description : string) (tracks_df : DataFrame Cell)
        (s : Session World) (user user_id playlist : json) (w1 w2 : World) :
  account CurrentUser (world (fst s)) = (Ok user, w1) ->
  getitem user "id" = Ok user_id ->
  account (UserPlaylistCreate user_id name description) w1 = (Ok playlist, w2) ->
  ~ In "id" (map fst tracks_df) ->
  exists s',
    create_playlist account py_str name description tracks_df s
    = (Raise (raised KeyError "id"), s') /\
    asked (snd s')
    = asked (snd s) ++ [CurrentUser; UserPlaylistCreate user_id name description] /\
    world (fst s') = w2.
Proof.
  intros Huser Hid Hcreate Hcol.
  unfold create_playlist, try_catch.
  unfold bind at 1, ask at 1. rewrite Huser.
  unfold bind at 1, lift at 1. rewrite Hid.
  unfold bind at 1, ask at 1. cbn [fst snd world trace]. rewrite Hcreate.
  unfold bind at 1, lift at 1. rewrite (column_missing _ _ Hcol).
  unfold bind, on_state, logger, emit, modify, log_response, raised, raise, ret.
  cbn [fst snd exn_response world trace].
  eexists. split; [reflexivity|]. cbn [fst snd world].
  split; [|reflexivity]. rewrite !asked_app. simpl. now rewrite <- app_assoc.
Qed.

(** *** On concrete services *)

(** A service that finds the same two playlists for every query, has one
    track in every playlist, and knows that track. *)
Definition one_page : json :=
  JDict [("items", JList [track_item]); ("next", JNull)].

Definition shop (request : Request) (w : unit) : Result json * unit :=
  match request with
  | Search _ _ => (Ok found_playlists, w)
  | PlaylistTracks _ | Next _ => (Ok one_page, w)
  | Track _ => (Ok sample_track, w)
  end.

(** A client that turns away an identifier that is no string, without a
    request: the two methods log the failure and return their fallback. *)
Definition turned_away {A} (fallback : A) : M (State unit) A :=
  (logger INFO ;; sleep 1 ;; logger ERROR ;; ret fallback)%monad.

Definition no_tracks (_ : json) : M (State unit) (option json) :=
  turned_away (Some (JList [])).

Definition no_info (_ : json) : M (State unit) json := turned_away JNull.

Definition fresh : Session unit := (mkState tt [], []).

Lemma no_info_post id st v st' :
  no_info id st = (Ok v, st') -> v = JNull \/ is_track_record v.
Proof. intros [= <- _]. now left. Qed.

Lemma collect_mood_data_records_witness :
  exists tracks_data s',
    collect_mood_data shop no_tracks no_info 5 "calm" 20 fresh
    = (Ok (Some tracks_data), s') /\
    List.length tracks_data = 2 /\
    List.length tracks_data <= 20 /\
    Forall (mood_record "calm") tracks_data /\
    exists naps,
      snd s' = snd fresh ++ naps /\
      pauses naps = repeat (3 # 2)%Q (List.length tracks_data) /\
      List.length naps = List.length tracks_data.
Proof.
  destruct (collect_mood_data shop no_tracks no_info 5 "calm" 20 fresh)
    as [[[tracks_data|]|e] s'] eqn:E;
    try (vm_compute in E; discriminate E).
  exists tracks_data, s'. split; [reflexivity|]. split.
  - pose proof E as E'. vm_compute in E'. injection E' as <- _. reflexivity.
  - exact (collect_mood_data_records shop no_tracks no_info 5 "calm" 20 fresh s'
                                     tracks_data no_info_post E).
Defined.

Lemma collect_all_mood_data_rows_witness :
  exists all_data s',
    collect_all_mood_data shop no_tracks no_info 5 (Some ["calm"; "sad"]) fresh
    = (Ok (Some all_data), s') /\
    (exists parts, all_data = List.concat parts /\
                   Forall2 mood_rows ["calm"; "sad"] parts) /\
    List.length all_data <= 20 * 2.
Proof.
  destruct (collect_all_mood_data shop no_tracks no_info 5
                                  (Some ["calm"; "sad"]) fresh)
    as [[[all_data|]|e] s'] eqn:E;
    try (vm_compute in E; discriminate E).
  exists all_data, s'. split; [reflexivity|].
  exact (collect_all_mood_data_rows shop no_tracks no_info 5
                                    (Some ["calm"; "sad"]) fresh s' all_data
                                    no_info_post E).
Defined.

Lemma turned_away_grown {A} (fallback : A) C (st : State unit) :
  (exists rest, calls (trace st) = C ++ rest) ->
  exists rest, calls (trace (snd (turned_away fallback st))) = C ++ rest.
Proof.
  intros [rest E]. exists rest. unfold turned_away, bind, logger, sleep, emit, modify, ret.
  cbn [snd trace]. rewrite !calls_app, E. simpl. now rewrite !app_nil_r.
Qed.

(** No record is asked for, and both playlists are fetched all the same. *)
Lemma every_playlist_is_fetched_witness :
  exists playlists st1 tracks_data s',
    search_playlists_by_mood shop "calm" 5 (fst fresh) = (Ok playlists, st1) /\
    collect_mood_data shop no_tracks no_info 5 "calm" 0 fresh
    = (Ok (Some tracks_data), s') /\
    tracks_data = [] /\ List.length playlists = 2 /\
    exists added,
      calls (trace (fst s')) = calls (trace st1) ++ added /\
      Forall (fun playlist =>
                forall playlist_id,
                  getitem playlist "id" = Ok (JStr playlist_id) ->
                  In (PlaylistTracks playlist_id) added)
             playlists.
Proof.
  destruct (search_playlists_by_mood shop "calm" 5 (fst fresh))
    as [[playlists|e] st1] eqn:Es; [|vm_compute in Es; discriminate Es].
  destruct (collect_mood_data shop no_tracks no_info 5 "calm" 0 fresh)
    as [[[tracks_data|]|e] s'] eqn:E;
    try (vm_compute in E; discriminate E).
  exists playlists, st1, tracks_data, s'.
  split; [reflexivity|]. split; [reflexivity|]. split.
  { pose proof E as E'. vm_compute in E'. injection E' as <- _. reflexivity. }
  split.
  { pose proof Es as E'. vm_compute in E'. injection E' as <- _. reflexivity. }
  apply (every_playlist_is_fetched shop no_tracks no_info 5 "calm" 0 fresh s'
                                   playlists tracks_data st1);
    try assumption.
  - intros id C st. apply turned_away_grown.
  - intros id C st. apply turned_away_grown.
Defined.

(** A playlist one of whose items has no track. *)
Definition torn_page : json :=
  JDict [ ("items", JList [JDict [("added_at", JStr "2020-01-01")]]);
          ("next", JNull) ].

Definition shoddy (request : Request) (w : unit) : Result json * unit :=
  match request with
  | Search _ _ => (Ok found_playlists, w)
  | PlaylistTracks _ | Next _ => (Ok torn_page, w)
  | Track _ => (Ok sample_track, w)
  end.

Lemma collect_mood_data_failures_witness :
  exists e s',
    collect_mood_data shoddy no_tracks no_info 5 "calm" 20 fresh = (Raise e, s') /\
    exn_response e = NoResponseAttr /\
    (exn_class e = KeyError \/ exn_class e = TypeError).
Proof.
  destruct (collect_mood_data shoddy no_tracks no_info 5 "calm" 20 fresh)
    as [[[tracks_data|]|e] s'] eqn:E;
    try (vm_compute in E; discriminate E).
  exists e, s'. split; [reflexivity|].
  apply (collect_mood_data_failures shoddy no_tracks no_info 5 "calm" 20 fresh s' e);
    try exact E.
  - intros [| | |] w e0 H; discriminate H.
  - intros id st e0 st' H. discriminate H.
  - intros id st e0 st' H. discriminate H.
Defined.

(** An account that accepts whatever it is asked. *)
Definition new_playlist : json :=
  JDict [ ("id", JStr "pl1"); ("name", JStr "Emotional Journey");
          ("external_urls",
           JDict [("spotify", JStr "https://open.spotify.com/playlist/pl1")]) ].

Definition studio (request : AccountRequest) (w : unit) : Result json * unit :=
  match request with
  | CurrentUser => (Ok (JDict [("id", JStr "me")]), w)
  | UserPlaylistCreate _ _ _ => (Ok new_playlist, w)
  | PlaylistAddItems _ _ => (Ok (JDict [("snapshot_id", JStr "s1")]), w)
  end.

(** A data frame of 250 tracks, numbered. *)
Definition numbered_tracks : DataFrame nat :=
  [("mood", repeat 0 250); ("id", seq 0 250)].

Lemma create_playlist_adds_all_witness :
  exists playlist s' user_id ids adds,
    create_playlist studio TransitionModel.str_of_nat "Emotional Journey" ""
                    numbered_tracks fresh
    = (Ok playlist, s') /\
    List.length adds = 3 /\
    column nat numbered_tracks "id" = Ok ids /\
    asked (snd s')
    = asked (snd fresh)
      ++ [CurrentUser; UserPlaylistCreate user_id "Emotional Journey" ""] ++ adds /\
    Forall2 (fun add chunk =>
               exists id, getitem playlist "id" = Ok id /\
                          add = PlaylistAddItems id chunk)
            adds
            (chunks (map (fun cell => ("spotify:track:"
                                         ++ TransitionModel.str_of_nat cell)%string)
                         ids)) /\
    sleeps (trace (fst s'))
    = sleeps (trace (fst fresh)) ++ repeat 1 (List.length adds) /\
    calls (trace (fst s')) = calls (trace (fst fresh)).
Proof.
  destruct (create_playlist studio TransitionModel.str_of_nat "Emotional Journey" ""
                            numbered_tracks fresh) as [[playlist|e] s'] eqn:E;
    [|vm_compute in E; discriminate E].
  destruct (create_playlist_adds_all studio TransitionModel.str_of_nat
              "Emotional Journey" "" numbered_tracks fresh s' playlist E)
    as (user_id & ids & adds & H1 & H2 & H3 & H4 & H5).
  exists playlist, s', user_id, ids, adds. split; [reflexivity|].
  split; [|auto].
  apply Forall2_length in H3. rewrite H3.
  injection H1 as <-. vm_compute. reflexivity.
Defined.

Lemma playlist_created_before_frame_is_read_witness :
  exists s',
    create_playlist studio TransitionModel.str_of_nat "Emotional Journey" ""
                    [] fresh
    = (Raise (raised KeyError "id"), s') /\
    asked (snd s')
    = asked (snd fresh)
      ++ [CurrentUser; UserPlaylistCreate (JStr "me") "Emotional Journey" ""] /\
    world (fst s') = tt.
Proof.
  apply (playlist_created_before_frame_is_read
           studio TransitionModel.str_of_nat "Emotional Journey" "" [] fresh
           (JDict [("id", JStr "me")]) (JStr "me") new_playlist tt tt);
    try reflexivity.
  intros [].
Defined.

End DataCollectionFacts.
